(** * Backup server agent: an executable model of the backup pipeline and
    of the per-task scheduler, with the properties claimed about them.

    The Go sources modelled here are
      - [internal/backup/backup.go]          (ExecuteBackup, createArchive,
        countFiles, uploadToS3, uploadDirectoryToS3, cleanupOldBackups),
      - [internal/backup/backup_storage.go]  (the ledger of backup records),
      - [internal/cron]                      (CronManager and the system
        crontab synchronisation),
      - [internal/config]                    (the Task and Config structs,
        AddOrUpdateTask, RemoveTask, GetTask, Save),
      - [internal/api]                       (authMiddleware, executeTask,
        setTaskConfig).

    Go strings are byte strings ([string]); Go [int] and [int64] are [Z];
    a Go [error] is the text it prints ([%v]); a Go map is a [gmap].
    Stateful code is written in a small state monad over an explicit world
    record; the outcome of every call that leaves the process (a command,
    a file operation, an object-store request) is taken from a fault plan
    that the caller of the model supplies.  The scheduler has no lock:
    its [AddTask] is given both as one call and statement by statement, so
    that calls that overlap can be told from calls that follow each
    other. *)

From Stdlib Require Import Ascii String Floats Uint63.
From stdpp Require Import gmap strings list pretty.

(** ** Go's [strings] package, on byte strings *)
Module GoStrings.

Definition LF : ascii := "010"%char.
Definition nl : string := String LF "".

(** [strings.HasPrefix(s, prefix)] *)
Definition HasPrefix (s prefix : string) : bool := String.prefix prefix s.

Fixpoint drop_bytes (n : nat) (s : string) : string :=
  match n, s with
  | O, _ => s
  | S n', String _ r => drop_bytes n' r
  | S _, EmptyString => EmptyString
  end.

(** [strings.TrimPrefix(s, prefix)] *)
Definition TrimPrefix (s prefix : string) : string :=
  if HasPrefix s prefix then drop_bytes (String.length prefix) s else s.

(** [strings.Contains(s, substr)]: [substr] occurs at some offset. *)
Fixpoint Contains (s substr : string) : bool :=
  HasPrefix s substr
  || match s with
     | EmptyString => false
     | String _ r => Contains r substr
     end.

(** [strings.Split(s, sep)] for a one-byte separator: every occurrence
    cuts, so [n] separators give [n + 1] pieces (and [""] gives [[""]]). *)
Fixpoint SplitByte (sep : ascii) (s : string) : list string :=
  match s with
  | EmptyString => [EmptyString]
  | String c r =>
      if decide (c = sep) then EmptyString :: SplitByte sep r
      else match SplitByte sep r with
           | h :: t => String c h :: t
           | [] => [String c EmptyString]
           end
  end.

(** [strings.Join(elems, sep)] *)
Fixpoint Join (elems : list string) (sep : string) : string :=
  match elems with
  | [] => ""
  | [x] => x
  | x :: rest => x +:+ sep +:+ Join rest sep
  end.

(** The ASCII white space: tab, line feed, vertical tab, form feed,
    carriage return, space. *)
Definition asciiSpace (c : ascii) : bool :=
  let n := nat_of_ascii c in
  (Nat.leb 9 n && Nat.leb n 13) || Nat.eqb n 32.

(** The three-byte encodings of the white space above U+00FF:
    U+1680, U+2000 to U+200A, U+2028, U+2029, U+202F, U+205F, U+3000. *)
Definition three_byte_space (b1 b2 b3 : nat) : bool :=
  (Nat.eqb b1 225 && Nat.eqb b2 154 && Nat.eqb b3 128)
  || (Nat.eqb b1 226 && Nat.eqb b2 128
      && ((Nat.leb 128 b3 && Nat.leb b3 138)
          || Nat.eqb b3 168 || Nat.eqb b3 169 || Nat.eqb b3 175))
  || (Nat.eqb b1 226 && Nat.eqb b2 129 && Nat.eqb b3 159)
  || (Nat.eqb b1 227 && Nat.eqb b2 128 && Nat.eqb b3 128).

(** The number of bytes of the white-space rune ([unicode.IsSpace]) that
    [s] starts with, 0 when it starts with none.  The runes are the ASCII
    white space, U+0085 and U+00A0 (two bytes, the first one 0xC2) and the
    three-byte ones.  Each encoding starts with a byte that is no
    continuation byte, so it is found at a rune boundary whatever
    precedes it, invalid bytes included. *)
Definition space_width (s : string) : nat :=
  match s with
  | EmptyString => 0
  | String c1 r1 =>
      if asciiSpace c1 then 1
      else match r1 with
           | EmptyString => 0
           | String c2 r2 =>
               if Nat.eqb (nat_of_ascii c1) 194
                  && (Nat.eqb (nat_of_ascii c2) 133
                      || Nat.eqb (nat_of_ascii c2) 160)
               then 2
               else match r2 with
                    | EmptyString => 0
                    | String c3 _ =>
                        if three_byte_space (nat_of_ascii c1)
                             (nat_of_ascii c2) (nat_of_ascii c3)
                        then 3 else 0
                    end
           end
  end.

(** The fields of [s] once the first [skip] bytes, the rest of a
    white-space rune, have been passed over. *)
Fixpoint fields_from (skip : nat) (s : string) : list string :=
  match s with
  | EmptyString => []
  | String c r =>
      match skip with
      | S k => fields_from k r
      | O =>
          match space_width s with
          | S k => fields_from k r
          | O =>
              match r with
              | EmptyString => [String c EmptyString]
              | String _ _ =>
                  match space_width r with
                  | S _ => String c EmptyString :: fields_from 0 r
                  | O =>
                      match fields_from 0 r with
                      | h :: t => String c h :: t
                      | [] => [String c EmptyString]
                      end
                  end
              end
          end
      end
  end.

(** [strings.Fields(s)]: the maximal runs of bytes between white-space
    runes. *)
Definition Fields (s : string) : list string := fields_from 0 s.

(** [strings.ReplaceAll(s, old, new)] for one-byte [old] and [new]. *)
Fixpoint ReplaceByte (s : string) (old new : ascii) : string :=
  match s with
  | EmptyString => EmptyString
  | String c r =>
      String (if decide (c = old) then new else c) (ReplaceByte r old new)
  end.

(** [fmt.Sprintf("%d", n)] *)
Definition Itoa (n : Z) : string := pretty n.

(** [filepath.Base(path)]: the last element of the path, trailing
    separators removed; ["."] for the empty path, ["/"] for slashes only. *)
Definition Base (path : string) : string :=
  if decide (path = "") then "."
  else match filter (fun part => part ≠ "") (SplitByte "/"%char path) with
       | [] => "/"
       | part :: parts => default part (last (part :: parts))
       end.

(** The elements of a cleaned path: [.] is dropped, [..] takes the
    element before it away, is dropped at the root and stays at the head of
    a relative path.  [kept] holds the elements so far, last one first. *)
Fixpoint clean_elems (rooted : bool) (kept elems : list string) : list string :=
  match elems with
  | [] => rev kept
  | e :: rest =>
      if decide (e = "") then clean_elems rooted kept rest
      else if decide (e = ".") then clean_elems rooted kept rest
      else if decide (e = "..") then
        match kept with
        | top :: below =>
            if decide (top = "..") then clean_elems rooted (e :: kept) rest
            else clean_elems rooted below rest
        | [] =>
            if rooted then clean_elems rooted kept rest
            else clean_elems rooted [e] rest
        end
      else clean_elems rooted (e :: kept) rest
  end.

(** [filepath.Clean(path)], with [/] as separator. *)
Definition Clean (path : string) : string :=
  let rooted := HasPrefix path "/" in
  let body := Join (clean_elems rooted [] (SplitByte "/"%char path)) "/" in
  if rooted then "/" +:+ body
  else if decide (body = "") then "." else body.

(** [filepath.Join(elem...)]: the empty elements are ignored, the others
    joined with [/] and the result cleaned; [""] when there is none. *)
Definition filepath_Join (elem : list string) : string :=
  match filter (fun e => e ≠ "") elem with
  | [] => ""
  | parts => Clean (Join parts "/")
  end.

#[global] Arguments Clean : simpl never.
#[global] Arguments filepath_Join : simpl never.

End GoStrings.
Import GoStrings.

(** ** The state monad the model is written in *)
Section State.
Context {W : Type}.

Definition M (A : Type) : Type := W -> A * W.

Definition ret {A} (a : A) : M A := fun w => (a, w).
Definition bind {A B} (m : M A) (k : A -> M B) : M B :=
  fun w => let (a, w') := m w in k a w'.
Definition gets {A} (f : W -> A) : M A := fun w => (f w, w).
Definition modify (f : W -> W) : M unit := fun w => (tt, f w).

(** [when b m]: a Go [if b { m }] whose body yields nothing. *)
Definition when (b : bool) (m : M unit) : M unit :=
  if b then m else ret tt.

(** A Go [for _, x := range xs { body }] without [break]. *)
Fixpoint for_each {A} (xs : list A) (body : A -> M unit) : M unit :=
  match xs with
  | [] => ret tt
  | x :: rest => bind (body x) (fun _ => for_each rest body)
  end.

Definition exec {A} (m : M A) (w : W) : W := snd (m w).
Definition eval {A} (m : M A) (w : W) : A := fst (m w).
End State.
Arguments M : clear implicits.

Notation "'let*' x ':=' c1 'in' c2" := (bind c1 (fun x => c2))
  (at level 10, x binder, c1 at level 100, c2 at level 200).
Notation "c1 ';;' c2" := (bind c1 (fun _ => c2))
  (at level 100, c2 at level 200, right associativity).

(** ** Logging ([internal/logger]) *)
Inductive Level := INFO | WARN | ERROR.

#[global] Instance Level_eq_dec : EqDecision Level.
Proof. solve_decision. Defined.

(** ** [internal/config]: the task definition *)
Module Config.

Record Task := {
  TaskID : Z;
  SourcePath : string;
  CreateArchive : bool;
  ArchiveFormat : string;
  S3Endpoint : string;
  S3AccessKey : string;
  S3SecretKey : string;
  S3Bucket : string;
  S3Region : string;
  StorageType : string;
  StorageConfig : string;
  CleanupEnabled : bool;
  CleanupDays : Z;
  IsDockerCompose : bool;
  DockerComposePath : string;
  ScheduleCron : string
}.

Record Config := {
  Port : Z;
  ServerIP : string;
  ServerHostname : string;
  Tasks : list Task
}.

End Config.
Import Config.

(** Go's two's-complement [int] (64 bits on the agent's targets). *)
Definition wrap64 (z : Z) : Z := ((z + 2 ^ 63) `mod` 2 ^ 64 - 2 ^ 63)%Z.

(** ** [internal/cron]: the scheduler and the system crontab *)
Module Cron.

(** *** The trigger engine (robfig/cron v3, as far as the manager uses it)

    An entry binds an identifier to the closure passed to [AddFunc]; the
    closure of [AddTask] captures the task, which is all that is kept of
    it here.  [AddFunc] increments [nextID] and uses the new value;
    [Remove] drops every entry carrying the identifier. *)
Definition EntryID := Z.

Record Entry := { ID : EntryID; Spec : string; Job : Task }.

Record Engine := { live : list Entry; nextID : EntryID }.

Record CronManager := {
  cron : Engine;
  config : Config;
  entries : gmap Z EntryID
}.

(** The manager together with what it acts on: the user's crontab, as
    [crontab -l] prints it, and the log. *)
Record Host := {
  manager : CronManager;
  crontab : string;
  journal : list (Level * string)
}.

(** Outcome of the two [crontab] invocations of one synchronisation.
    [cmd.Output()] returns what the command wrote to its standard output
    also when the command fails, and the code keeps it. *)
Record Faults := {
  list_fails : bool;               (* [crontab -l] exits non-zero *)
  list_stdout : string;            (* what it had printed when it failed *)
  install_err : option string      (* [crontab -] fails with this error *)
}.

Definition no_faults : Faults :=
  {| list_fails := false; list_stdout := ""; install_err := None |}.

Definition set_manager (f : CronManager -> CronManager) : M Host unit :=
  modify (fun h => {| manager := f (manager h); crontab := crontab h;
                      journal := journal h |}).

Definition set_crontab (text : string) : M Host unit :=
  modify (fun h => {| manager := manager h; crontab := text;
                      journal := journal h |}).

Definition note (lvl : Level) (format : string) : M Host unit :=
  modify (fun h => {| manager := manager h; crontab := crontab h;
                      journal := journal h ++ [(lvl, format)] |}).

Definition cron_Remove (id : EntryID) : M Host unit :=
  set_manager (fun cm =>
    {| cron := {| live := filter (fun e => ID e ≠ id) (live (cron cm));
                  nextID := nextID (cron cm) |};
       config := config cm; entries := entries cm |}).

Definition set_entry (taskID : Z) (id : EntryID) : M Host unit :=
  set_manager (fun cm =>
    {| cron := cron cm; config := config cm;
       entries := <[taskID := id]> (entries cm) |}).

Definition delete_entry (taskID : Z) : M Host unit :=
  set_manager (fun cm =>
    {| cron := cron cm; config := config cm;
       entries := delete taskID (entries cm) |}).

(** *** The system crontab *)

Definition execPath : string := "/usr/bin/backup-server-agent".

(** A schedule of six fields loses its first one (the seconds). *)
Definition cronExpr (task : Task) : string :=
  let parts := Fields (ScheduleCron task) in
  if decide (length parts = 6) then Join (tail parts) " "
  else ScheduleCron task.

Definition cronLine (task : Task) : string :=
  cronExpr task +:+ " " +:+ execPath +:+ " --task-id " +:+ Itoa (TaskID task).

Definition marker (taskID : Z) : string := "--task-id " +:+ Itoa taskID.

(** The loop shared by [updateSystemCron] and [removeFromSystemCron]:
    keep the lines that do not contain the marker. *)
Definition keep_unmarked (taskID : Z) (lines : list string) : list string :=
  filter (fun line => Contains line (marker taskID) = false) lines.

(** [cmd.Output()] of [crontab -l], its error dropped. *)
Definition read_crontab (f : Faults) : M Host string :=
  gets (fun h => if list_fails f then list_stdout f else crontab h).

(** Lines 116-136 of [updateSystemCron]: the new text from the text read,
    and its installation. *)
Definition install_line (f : Faults) (task : Task) (crontabContent : string)
  : M Host unit :=
  let lines := SplitByte LF crontabContent in
  let newLines := keep_unmarked (TaskID task) lines ++ [cronLine task] in
  match install_err f with
  | Some _ => note WARN "Failed to update system crontab: %v"
  | None =>
      set_crontab (Join newLines nl +:+ nl) ;;
      note INFO "Updated system crontab for task %d"
  end.

Definition updateSystemCron (f : Faults) (task : Task) : M Host unit :=
  let* crontabContent := read_crontab f in
  install_line f task crontabContent.

Definition removeFromSystemCron (f : Faults) (taskID : Z) : M Host unit :=
  let* currentCrontab := read_crontab f in
  let lines := SplitByte LF currentCrontab in
  let newLines := keep_unmarked taskID lines in
  match install_err f with
  | Some _ => note WARN "Failed to remove from system crontab: %v"
  | None =>
      set_crontab (Join newLines nl +:+ nl) ;;
      note INFO "Removed task %d from system crontab"
  end.

Section Manager.
(** The engine's parser ([cron.WithSeconds()]) is a library function:
    [parse_err spec] is the error it reports, if any. *)
Variable parse_err : string -> option string.

Definition cron_AddFunc (spec : string) (job : Task)
  : M Host (string + EntryID) :=
  match parse_err spec with
  | Some err => ret (inl err)
  | None =>
      let* id := gets (fun h => wrap64 (nextID (cron (manager h)) + 1)%Z) in
      set_manager (fun cm =>
        {| cron := {| live := live (cron cm)
                              ++ [{| ID := id; Spec := spec; Job := job |}];
                      nextID := id |};
           config := config cm; entries := entries cm |}) ;;
      ret (inr id)
  end.

Definition New (cfg : Config) (tab : string) : Host :=
  {| manager := {| cron := {| live := []; nextID := 0%Z |};
                   config := cfg; entries := ∅ |};
     crontab := tab; journal := [] |}.

Definition Start : M Host unit := note INFO "Cron manager started".
Definition Stop : M Host unit := note INFO "Cron manager stopped".

Definition AddTask (f : Faults) (task : Task) : M Host unit :=
  let* old := gets (fun h => entries (manager h) !! TaskID task) in
  match old with
  | Some entryID => cron_Remove entryID
  | None => ret tt
  end ;;
  let* r := cron_AddFunc (ScheduleCron task) task in
  match r with
  | inl _ => note ERROR "Failed to add cron task %d: %v"
  | inr entryID =>
      set_entry (TaskID task) entryID ;;
      note INFO "Added cron task %d with schedule: %s" ;;
      updateSystemCron f task
  end.

Definition RemoveTask (f : Faults) (taskID : Z) : M Host unit :=
  let* old := gets (fun h => entries (manager h) !! taskID) in
  match old with
  | Some entryID =>
      cron_Remove entryID ;;
      delete_entry taskID ;;
      note INFO "Removed cron task %d"
  | None => ret tt
  end ;;
  removeFromSystemCron f taskID.

Definition LoadTasks (f : Task -> Faults) : M Host unit :=
  let* tasks := gets (fun h => Tasks (config (manager h))) in
  for_each tasks (fun task =>
    when (negb (String.eqb (ScheduleCron task) "")) (AddTask (f task) task)).

(** *** The methods, statement by statement

    [CronManager] has no lock, and the HTTP server runs every request in
    a goroutine of its own: calls of [AddTask] (made by [setTaskConfig])
    can overlap, the statements of one running between those of another.
    The engine's methods take the engine's lock: [Remove] and [AddFunc]
    are single steps. *)

(** Where a call of [AddTask] stands, with the locals it holds. *)
Inductive AddTaskAt :=
| AtLookup                          (* line 51, before the read of the table *)
| AtRemove (old : option EntryID)   (* lines 51-53 *)
| AtAddFunc                         (* line 56 *)
| AtRecord (entryID : EntryID)      (* lines 76-77 *)
| AtList                            (* lines 111-112 *)
| AtInstall (crontabContent : string)   (* lines 114-136 *)
| AtReturn.

#[global] Instance AddTaskAt_eq_dec : EqDecision AddTaskAt.
Proof. solve_decision. Defined.

(** The next statement of a call of [AddTask]. *)
Definition AddTask_step (f : Faults) (task : Task) (at_ : AddTaskAt)
  : M Host AddTaskAt :=
  match at_ with
  | AtLookup =>
      let* old := gets (fun h => entries (manager h) !! TaskID task) in
      ret (AtRemove old)
  | AtRemove old =>
      match old with
      | Some entryID => cron_Remove entryID
      | None => ret tt
      end ;;
      ret AtAddFunc
  | AtAddFunc =>
      let* r := cron_AddFunc (ScheduleCron task) task in
      match r with
      | inl _ => note ERROR "Failed to add cron task %d: %v" ;; ret AtReturn
      | inr entryID => ret (AtRecord entryID)
      end
  | AtRecord entryID =>
      set_entry (TaskID task) entryID ;;
      note INFO "Added cron task %d with schedule: %s" ;;
      ret AtList
  | AtList =>
      let* crontabContent := read_crontab f in
      ret (AtInstall crontabContent)
  | AtInstall crontabContent =>
      install_line f task crontabContent ;; ret AtReturn
  | AtReturn => ret AtReturn
  end.

(** A call that runs its next [n] statements without another call in
    between. *)
Fixpoint AddTask_steps (n : nat) (f : Faults) (task : Task) (at_ : AddTaskAt)
  : M Host AddTaskAt :=
  match n with
  | O => ret at_
  | S n' =>
      let* next := AddTask_step f task at_ in
      AddTask_steps n' f task next
  end.

(** A call of [AddTask] in progress. *)
Record Call := {
  call_faults : Faults;
  call_task : Task;
  call_at : AddTaskAt
}.

Definition begin_call (f : Faults) (task : Task) : Call :=
  {| call_faults := f; call_task := task; call_at := AtLookup |}.

(** The call after its next statement. *)
Definition moved (c : Call) (h : Host) : Call :=
  {| call_faults := call_faults c; call_task := call_task c;
     call_at := eval (AddTask_step (call_faults c) (call_task c) (call_at c)) h |}.

Definition after_step (c : Call) (h : Host) : Host :=
  exec (AddTask_step (call_faults c) (call_task c) (call_at c)) h.

(** One whole call of a method. *)
Inductive whole_call : Host -> Host -> Prop :=
  | call_Start h : whole_call h (exec Start h)
  | call_Stop h : whole_call h (exec Stop h)
  | call_LoadTasks h f : whole_call h (exec (LoadTasks f) h)
  | call_AddTask h f task : whole_call h (exec (AddTask f task) h)
  | call_RemoveTask h f taskID : whole_call h (exec (RemoveTask f taskID) h).

(** The states of a manager whose methods are called one after another,
    each call returning before the next one starts, observed at any
    moment: between calls ([None]) or between two statements of the one
    call of [AddTask] in progress. *)
Inductive serial : Host -> option Call -> Prop :=
  | serial_New cfg tab : serial (New cfg tab) None
  | serial_whole h h' : serial h None -> whole_call h h' -> serial h' None
  | serial_begin h f task : serial h None -> serial h (Some (begin_call f task))
  | serial_step h c :
      serial h (Some c) -> call_at c ≠ AtReturn ->
      serial (after_step c h) (Some (moved c h))
  | serial_return h c :
      serial h (Some c) -> call_at c = AtReturn -> serial h None.

(** A move of the server: a request starts a call, or the call number
    [i] runs its next statement. *)
Inductive Move :=
| Begin (f : Faults) (task : Task)
| Next (i : nat).

Definition move (m : Move) (st : Host * list Call) : Host * list Call :=
  match m with
  | Begin f task => (st.1, st.2 ++ [begin_call f task])
  | Next i =>
      match st.2 !! i with
      | Some c => (after_step c st.1, <[i := moved c st.1]> st.2)
      | None => st
      end
  end.

(** The states of a fresh manager whose calls of [AddTask] may overlap:
    any number of calls in progress, their statements in any order. *)
Inductive overlapping : Host -> list Call -> Prop :=
  | over_New cfg tab : overlapping (New cfg tab) []
  | over_move h calls m :
      overlapping h calls ->
      overlapping (move m (h, calls)).1 (move m (h, calls)).2.

(** The live triggers whose closure runs the task [taskID]. *)
Definition live_triggers (taskID : Z) (h : Host) : list Entry :=
  filter (fun e => TaskID (Job e) = taskID) (live (cron (manager h))).

(** Every live trigger is the one the job table records for its task. *)
Definition tabled (h : Host) : Prop :=
  ∀ e, e ∈ live (cron (manager h)) →
       entries (manager h) !! TaskID (Job e) = Some (ID e).

Definition single_trigger (h : Host) : Prop :=
  ∀ taskID, length (live_triggers taskID h) ≤ 1.

(** What the engine holds once the trigger recorded for [taskID] has been
    retired. *)
Definition retired (taskID : Z) (cm : CronManager) : list Entry :=
  match entries cm !! taskID with
  | Some id => filter (fun e => ID e ≠ id) (live (cron cm))
  | None => live (cron cm)
  end.

(** The entry [AddFunc] creates for [task]. *)
Definition new_entry (task : Task) (cm : CronManager) : Entry :=
  {| ID := wrap64 (nextID (cron cm) + 1); Spec := ScheduleCron task;
     Job := task |}.

Definition inv (h : Host) : Prop := tabled h ∧ single_trigger h.

(** Every live trigger of a task other than [taskID] is the one the job
    table records. *)
Definition tabled_but (taskID : Z) (h : Host) : Prop :=
  ∀ e, e ∈ live (cron (manager h)) → TaskID (Job e) ≠ taskID →
       entries (manager h) !! TaskID (Job e) = Some (ID e).

(** What holds between the statements of a call of [AddTask] no other
    call runs into. *)
Definition between (c : Call) (h : Host) : Prop :=
  let taskID := TaskID (call_task c) in
  match call_at c with
  | AtLookup | AtList | AtInstall _ | AtReturn => inv h
  | AtRemove old => inv h ∧ old = entries (manager h) !! taskID
  | AtAddFunc =>
      tabled_but taskID h ∧ live_triggers taskID h = [] ∧ single_trigger h
  | AtRecord entryID =>
      tabled_but taskID h
      ∧ (∀ e, e ∈ live (cron (manager h)) → TaskID (Job e) = taskID →
              ID e = entryID)
      ∧ single_trigger h
  end.

Definition run_moves (ms : list Move) (st : Host * list Call)
  : Host * list Call :=
  foldl (fun st m => move m st) st ms.

End Manager.

(** A parser that accepts every schedule, and two tasks whose identifiers
    share a decimal prefix. *)
Definition accept_all : string -> option string := fun _ => None.

Definition plain_task (id : Z) (schedule : string) : Task :=
  {| TaskID := id; SourcePath := "/data"; CreateArchive := true;
     ArchiveFormat := "tar.gz"; S3Endpoint := ""; S3AccessKey := "";
     S3SecretKey := ""; S3Bucket := ""; S3Region := ""; StorageType := "";
     StorageConfig := ""; CleanupEnabled := false; CleanupDays := 0;
     IsDockerCompose := false; DockerComposePath := "";
     ScheduleCron := schedule |}.

Definition task1 : Task := plain_task 1 "0 30 4 * * *".

Definition line12 : string :=
  "0 2 * * * /usr/bin/backup-server-agent --task-id 12".

Definition empty_config : Config :=
  {| Port := 11540; ServerIP := ""; ServerHostname := ""; Tasks := [] |}.

(** A fresh manager on a host whose crontab holds the line of task 12. *)
Definition host12 : Host := New empty_config (line12 +:+ nl).

(** Two requests for task 1 served at the same time: the two calls of
    [AddTask] take their statements in turn. *)
Definition two_requests : list Move :=
  [Begin no_faults task1; Begin no_faults task1]
  ++ concat (replicate 6 [Next 0; Next 1]).

End Cron.

(** ** The file tree and [filepath.Walk] *)
Module Fs.

(** What [os.Lstat] reports about a path, as far as the agent looks. *)
Record FileInfo := { IsDir : bool; IsRegular : bool; Size : Z }.

(** The tree below a path: a path that cannot be examined, a file that is
    not a directory (regular or not: symlink, device, socket), or a
    directory with the outcome of reading it and its entries in the
    order [Walk] visits them (sorted by name). *)
#[warnings="-register-all"]
Inductive Node :=
| Missing (err : string)
| File (regular : bool) (size : Z)
| Dir (read_err : option string) (children : list (string * Node)).

Definition info_of_file (regular : bool) (size : Z) : FileInfo :=
  {| IsDir := false; IsRegular := regular; Size := size |}.

Definition info_of_dir : FileInfo :=
  {| IsDir := true; IsRegular := false; Size := 4096 |}.

(** A [filepath.WalkFunc]: the path (its components below the root),
    the file information ([nil] when [err] is set), the error met, and the
    error returned.  The callbacks of this program return [nil] or an
    error, never [filepath.SkipDir]. *)
Definition WalkFunc (W : Type) : Type :=
  list string -> option FileInfo -> option string -> M W (option string).

(** [filepath.Walk]: the callback is called on the root and then, in a
    readable directory the callback did not refuse, on every entry in turn;
    the first error a callback returns ends the walk. *)
Fixpoint Walk {W} (fn : WalkFunc W) (rel : list string) (n : Node)
  : M W (option string) :=
  match n with
  | Missing err => fn rel None (Some err)
  | File regular size => fn rel (Some (info_of_file regular size)) None
  | Dir read_err children =>
      let* err1 := fn rel (Some info_of_dir) read_err in
      match read_err, err1 with
      | None, None =>
          (fix entries (cs : list (string * Node)) : M W (option string) :=
             match cs with
             | [] => ret None
             | (name, c) :: rest =>
                 let* err := Walk fn (rel ++ [name]) c in
                 match err with
                 | Some e => ret (Some e)
                 | None => entries rest
                 end
             end) children
      | _, _ => ret err1
      end
  end.

(** [filepath.Rel(root, path)] for a path [Walk] passes to its callback. *)
Definition Rel (rel : list string) : string :=
  match rel with
  | [] => "."
  | _ => Join rel "/"
  end.

(** The callback of [countFiles]; its state is the captured [count]. *)
Definition count_regular : WalkFunc Z :=
  fun _ info err =>
    match err, info with
    | None, Some i =>
        if IsRegular i then modify (fun count => wrap64 (count + 1)) ;; ret None
        else ret None
    | _, _ => ret None
    end.

(** [countFiles(path)], on the tree found at [path]. *)
Definition countFiles (tree : Node) : Z :=
  exec (Walk count_regular [] tree) 0%Z.

(** The regular files a walk can reach: those whose [Lstat] succeeds, in
    directories that can be read. *)
Fixpoint regular_files (n : Node) : nat :=
  match n with
  | Missing _ => 0
  | File regular _ => if regular then 1 else 0
  | Dir (Some _) _ => 0
  | Dir None children =>
      (fix total (cs : list (string * Node)) : nat :=
         match cs with
         | [] => 0
         | (_, c) :: rest => regular_files c + total rest
         end) children
  end.

(** A source tree: two regular files, a symlink, an entry that cannot be
    examined and a directory that cannot be read. *)
Definition sample_tree : Node :=
  Dir None
    [("a.txt", File true 10%Z);
     ("gone", Missing "lstat /data/gone: no such file or directory");
     ("link", File false 0%Z);
     ("locked", Dir (Some "open /data/locked: permission denied")
                  [("secret", File true 7%Z)]);
     ("sub", Dir None [("b.txt", File true 20%Z)])].

(** A source tree every entry of which can be read. *)
Definition clean_tree : Node :=
  Dir None
    [("a.txt", File true 10%Z);
     ("link", File false 0%Z);
     ("sub", Dir None [("b.txt", File true 20%Z)])].

End Fs.

(** ** The world the backup pipeline acts on *)
Module Sys.

(** [internal/backup/backup_storage.go]: one entry of the ledger.
    A [time.Time] is a number of seconds. *)
Record BackupRecord := {
  SourcePath : string;
  ArchiveName : string;
  BackupDate : Z;
  S3UploadDate : option Z;
  ArchiveSizeMB : float;
  S3Path : string;
  Status : string
}.

(** The ledger file [/var/lib/backup-server-agent/backups.json]: absent, a
    JSON array of records, or content [json.Unmarshal] rejects with the
    records it had decoded when it gave up (none for a syntax error, which
    is found before decoding starts). *)
Inductive LedgerFile :=
| Absent
| Stored (records : list BackupRecord)
| Garbled (decoded : list BackupRecord) (err : string).

(** What the process does that can be seen from outside, in order. *)
Inductive Event :=
| EvLog (lvl : Level) (format : string)
| EvRun (argv : list string)
| EvWriteLedger
| EvRemove (path : string)
| EvBucketExists (bucket : string)
| EvMakeBucket (bucket region : string)
| EvFPutObject (bucket key path : string)
| EvListObjects (bucket : string)
| EvRemoveObject (bucket key : string).

#[global] Instance Event_eq_dec : EqDecision Event.
Proof. solve_decision. Defined.

Record World := {
  ledger : LedgerFile;
  files : gmap string Z;                  (* local files written here: size *)
  buckets : gmap string (gmap string Z);  (* bucket, key: last modified *)
  clock : Z;
  trace : list Event
}.

(** What a failed [os.WriteFile] leaves behind: the open failed, the file
    was truncated and the data did not all arrive, or only the close
    failed. *)
Inductive Residue := Untouched | Truncated | Written.

(** The faults one ledger operation meets. *)
Record IoFaults := {
  mkdir_err : option string;
  read_err : option string;
  write_err : option (string * Residue)
}.

Definition io_ok : IoFaults :=
  {| mkdir_err := None; read_err := None; write_err := None |}.

(** The fault plan of one run: the outcome of every call that leaves the
    process, and the library functions the model does not spell out. *)
Record Plan := {
  format_time : Z -> string;     (* [Format("20060102_150405")] *)
  add_days : Z -> Z -> Z;        (* [t.AddDate(0, 0, days)], in local time *)
  run_err : list string -> option string;    (* [cmd.Run()], by argv *)
  source : Fs.Node;              (* the tree at the task's source path *)
  create_err : option string;    (* [os.Create] of the archive *)
  entry_err : list string -> option string;
                                 (* header, open or copy error at an entry *)
  archive_size : Z;              (* bytes in the archive once closed *)
  save_io : IoFaults;            (* [SaveBackupRecord] *)
  stat_err : option string;      (* [os.Stat] of the archive *)
  backfill_io : IoFaults;        (* [GetBackupRecords] of the size backfill *)
  update_io : IoFaults;          (* [UpdateBackupRecord] *)
  remove_err : option string;    (* [os.Remove] of the archive *)
  new_client_err : string -> bool -> string -> option string;
                                 (* [minio.New], by endpoint, TLS, region *)
  bucket_exists_err : option string;
  make_bucket_err : option string;
    (* any failure of [MakeBucket], among them the "already exists" answer
       to a create that lost the race against another actor *)
  put_err : string -> option string;          (* [FPutObject], by key *)
  list_err : option string;
  remove_object_err : string -> option string (* [RemoveObject], by key *)
}.

Definition with_ledger (l : LedgerFile) (w : World) : World :=
  {| ledger := l; files := files w; buckets := buckets w; clock := clock w;
     trace := trace w |}.

Definition with_files (f : gmap string Z) (w : World) : World :=
  {| ledger := ledger w; files := f; buckets := buckets w; clock := clock w;
     trace := trace w |}.

Definition with_buckets (b : gmap string (gmap string Z)) (w : World) : World :=
  {| ledger := ledger w; files := files w; buckets := b; clock := clock w;
     trace := trace w |}.

Definition emit (e : Event) : M World unit :=
  modify (fun w => {| ledger := ledger w; files := files w;
                      buckets := buckets w; clock := clock w;
                      trace := trace w ++ [e] |}).

Definition logf (lvl : Level) (format : string) : M World unit :=
  emit (EvLog lvl format).

(** [time.Now()]: every reading is later than the one before. *)
Definition time_Now : M World Z :=
  fun w => (clock w, {| ledger := ledger w; files := files w;
                        buckets := buckets w; clock := (clock w + 1)%Z;
                        trace := trace w |}).

(** [exec.Command(argv...).Run()]; the working directory of the command
    ([cmd.Dir]) is not recorded. *)
Definition Run (p : Plan) (argv : list string) : M World (option string) :=
  emit (EvRun argv) ;; ret (run_err p argv).

End Sys.

(** ** [internal/backup/backup_storage.go]: the ledger *)
Module Storage.
Import Sys.

(** [os.ReadFile] followed by [json.Unmarshal] into an empty slice: the
    records obtained, and the error of the decoder (a failed read gives
    no records and is told apart by the caller). *)
Definition read_records (io : IoFaults) (l : LedgerFile)
  : option (list BackupRecord * option string) :=
  match read_err io, l with
  | Some _, _ | None, Absent => None
  | None, Stored records => Some (records, None)
  | None, Garbled decoded err => Some (decoded, Some err)
  end.

(** [json.MarshalIndent] followed by [os.WriteFile].  Marshalling these
    records cannot fail: every field is a string, a finite number or a
    time read from the clock or from the file. *)
Definition WriteFile (io : IoFaults) (records : list BackupRecord)
  : M World (option string) :=
  emit EvWriteLedger ;;
  match write_err io with
  | None => modify (with_ledger (Stored records)) ;; ret None
  | Some (err, Untouched) => ret (Some err)
  | Some (err, Truncated) =>
      modify (with_ledger (Garbled [] "unexpected end of JSON input")) ;;
      ret (Some err)
  | Some (err, Written) => modify (with_ledger (Stored records)) ;; ret (Some err)
  end.

Definition SaveBackupRecord (io : IoFaults) (record : BackupRecord)
  : M World (option string) :=
  match mkdir_err io with
  | Some err => ret (Some err)
  | None =>
      let* l := gets ledger in
      let records :=
        match read_records io l with
        | Some (decoded, _) => decoded
        | None => []
        end in
      WriteFile io (records ++ [record])
  end.

Definition GetBackupRecords (io : IoFaults)
  : M World (list BackupRecord * option string) :=
  let* l := gets ledger in
  match read_records io l with
  | None => ret ([], None)
  | Some (records, Some err) => ret (records, Some err)
  | Some (records, None) => ret (records, None)
  end.

Definition uploaded (s3Path : string) (uploadDate : Z) (r : BackupRecord)
  : BackupRecord :=
  {| SourcePath := SourcePath r; ArchiveName := ArchiveName r;
     BackupDate := BackupDate r; S3UploadDate := Some uploadDate;
     ArchiveSizeMB := ArchiveSizeMB r; S3Path := s3Path;
     Status := "success" |}.

(** The loop of [UpdateBackupRecord]: the first record with the archive
    name is updated, then [break]. *)
Fixpoint mark_uploaded (archiveName s3Path : string) (uploadDate : Z)
    (records : list BackupRecord) : list BackupRecord :=
  match records with
  | [] => []
  | r :: rest =>
      if decide (ArchiveName r = archiveName)
      then uploaded s3Path uploadDate r :: rest
      else r :: mark_uploaded archiveName s3Path uploadDate rest
  end.

Definition UpdateBackupRecord (io : IoFaults) (archiveName s3Path : string)
    (uploadDate : Z) : M World (option string) :=
  let* '(records, err) := GetBackupRecords io in
  match err with
  | Some e => ret (Some e)
  | None => WriteFile io (mark_uploaded archiveName s3Path uploadDate records)
  end.

(** The index of the first record with the archive name, if any. *)
Fixpoint first_match (archiveName : string) (records : list BackupRecord)
  : option nat :=
  match records with
  | [] => None
  | r :: rest =>
      if decide (ArchiveName r = archiveName) then Some 0
      else S <$> first_match archiveName rest
  end.

(** A ledger of two runs of the same source, the first one uploaded. *)
Definition monday : BackupRecord :=
  {| SourcePath := "/data"; ArchiveName := "10.0.0.5_data_1.tar.gz";
     BackupDate := 1; S3UploadDate := Some 2%Z; ArchiveSizeMB := 0%float;
     S3Path := "s3://backups/10.0.0.5_data_1.tar.gz"; Status := "success" |}.

Definition tuesday : BackupRecord :=
  {| SourcePath := "/data"; ArchiveName := "10.0.0.5_data_5.tar.gz";
     BackupDate := 5; S3UploadDate := None; ArchiveSizeMB := 0%float;
     S3Path := ""; Status := "creating" |}.

Definition two_runs : World :=
  {| ledger := Stored [monday; tuesday]; files := ∅; buckets := ∅;
     clock := 6; trace := [] |}.

(** The same host with a ledger file cut short: [json.Unmarshal] finds the
    syntax error before it decodes anything. *)
Definition cut_short : World :=
  {| ledger := Garbled [] "unexpected end of JSON input"; files := ∅;
     buckets := ∅; clock := 6; trace := [] |}.

End Storage.

(** ** [internal/backup/backup.go]: the pipeline *)
Module Backup.
Import Sys Storage.

Record BackupResult := {
  Success : bool;
  ArchivePath : string;
  ArchiveSize : Z;
  FilesCount : Z;
  Error : string;
  S3Path : string
}.

Definition with_Error (msg : string) (r : BackupResult) : BackupResult :=
  {| Success := Success r; ArchivePath := ArchivePath r;
     ArchiveSize := ArchiveSize r; FilesCount := FilesCount r;
     Error := msg; S3Path := S3Path r |}.

Definition with_S3Path (s3Path : string) (r : BackupResult) : BackupResult :=
  {| Success := Success r; ArchivePath := ArchivePath r;
     ArchiveSize := ArchiveSize r; FilesCount := FilesCount r;
     Error := Error r; S3Path := s3Path |}.

Definition with_Success (r : BackupResult) : BackupResult :=
  {| Success := true; ArchivePath := ArchivePath r;
     ArchiveSize := ArchiveSize r; FilesCount := FilesCount r;
     Error := Error r; S3Path := S3Path r |}.

(** [float64(n)] for an [int64]. *)
Definition float64_of_int64 (n : Z) : float :=
  if (n <? 0)%Z then PrimFloat.opp (PrimFloat.of_uint63 (Uint63.of_Z (- n)))
  else PrimFloat.of_uint63 (Uint63.of_Z n).

(** [float64(size) / (1024 * 1024)] *)
Definition megabytes (size : Z) : float :=
  PrimFloat.div (float64_of_int64 size) (float64_of_int64 (1024 * 1024)).

(** *** Local files *)

Definition write_file (path : string) (size : Z) : M World unit :=
  modify (fun w => with_files (<[path := size]> (files w)) w).

(** [os.Stat(path)]: the size, or the error. *)
Definition os_Stat (p : Plan) (path : string) : M World (string + Z) :=
  let* known := gets (fun w => files w !! path) in
  match stat_err p, known with
  | Some err, _ => ret (inl err)
  | None, None => ret (inl "no such file or directory")
  | None, Some size => ret (inr size)
  end.

Definition os_Remove (p : Plan) (path : string) : M World (option string) :=
  emit (EvRemove path) ;;
  let* known := gets (fun w => files w !! path) in
  match remove_err p, known with
  | Some err, _ => ret (Some err)
  | None, None => ret (Some "no such file or directory")
  | None, Some _ =>
      modify (fun w => with_files (delete path (files w)) w) ;; ret None
  end.

(** *** The object store (minio-go) *)

Record ObjectInfo := {
  Key : string;
  LastModified : Z;
  Err : option string
}.

Definition BucketExists (p : Plan) (bucket : string) : M World (string + bool) :=
  emit (EvBucketExists bucket) ;;
  match bucket_exists_err p with
  | Some err => ret (inl err)
  | None => gets (fun w => inr (bool_decide (is_Some (buckets w !! bucket))))
  end.

Definition MakeBucket (p : Plan) (bucket region : string)
  : M World (option string) :=
  emit (EvMakeBucket bucket region) ;;
  let* present := gets (fun w => buckets w !! bucket) in
  match make_bucket_err p, present with
  | Some err, _ => ret (Some err)
  | None, Some _ =>
      ret (Some "Your previous request to create the named bucket succeeded and you already own it.")
  | None, None =>
      modify (fun w => with_buckets (<[bucket := ∅]> (buckets w)) w) ;; ret None
  end.

Definition FPutObject (p : Plan) (bucket key path : string)
  : M World (option string) :=
  emit (EvFPutObject bucket key path) ;;
  let* objects := gets (fun w => buckets w !! bucket) in
  match put_err p key, objects with
  | Some err, _ => ret (Some err)
  | None, None => ret (Some "The specified bucket does not exist")
  | None, Some objs =>
      modify (fun w =>
        with_buckets (<[bucket := <[key := clock w]> objs]> (buckets w)) w) ;;
      ret None
  end.

(** [ListObjects] with [Recursive: true], drained: the objects of the
    bucket, or a single entry carrying the error. *)
Definition ListObjects (p : Plan) (bucket : string) : M World (list ObjectInfo) :=
  emit (EvListObjects bucket) ;;
  let* objects := gets (fun w => buckets w !! bucket) in
  match list_err p, objects with
  | Some err, _ => ret [{| Key := ""; LastModified := 0; Err := Some err |}]
  | None, None =>
      ret [{| Key := ""; LastModified := 0;
              Err := Some "The specified bucket does not exist" |}]
  | None, Some objs =>
      ret ((fun kv => {| Key := kv.1; LastModified := kv.2; Err := None |})
             <$> map_to_list objs)
  end.

Definition RemoveObject (p : Plan) (bucket key : string)
  : M World (option string) :=
  emit (EvRemoveObject bucket key) ;;
  match remove_object_err p key with
  | Some err => ret (Some err)
  | None =>
      modify (fun w =>
        with_buckets (alter (delete key) bucket (buckets w)) w) ;;
      ret None
  end.

(** The endpoint without its scheme, and whether TLS is used. *)
Definition endpoint_of (task : Task) : string :=
  TrimPrefix (TrimPrefix (S3Endpoint task) "http://") "https://".

Definition useSSL (task : Task) : bool := HasPrefix (S3Endpoint task) "https://".

(** [minio.New(endpoint, options)]: the error, if any. *)
Definition minio_New (p : Plan) (task : Task) : option string :=
  new_client_err p (endpoint_of task) (useSSL task) (S3Region task).

(** The bucket check shared by the two upload functions: [BucketExists],
    then [MakeBucket] with the task's region when the bucket is absent. *)
Definition ensure_bucket (p : Plan) (task : Task) : M World (option string) :=
  let* exists_ := BucketExists p (S3Bucket task) in
  match exists_ with
  | inl err => ret (Some ("failed to check bucket: " +:+ err))
  | inr true => ret None
  | inr false =>
      let* err := MakeBucket p (S3Bucket task) (S3Region task) in
      match err with
      | Some e => ret (Some ("failed to create bucket: " +:+ e))
      | None => ret None
      end
  end.

Definition uploadToS3 (p : Plan) (task : Task) (archivePath : string)
  : M World (string * option string) :=
  logf INFO "Uploading to S3: %s/%s" ;;
  match minio_New p task with
  | Some err => ret ("", Some ("failed to create S3 client: " +:+ err))
  | None =>
      let* err := ensure_bucket p task in
      match err with
      | Some e => ret ("", Some e)
      | None =>
          let objectName := Base archivePath in
          let* err := FPutObject p (S3Bucket task) objectName archivePath in
          match err with
          | Some e => ret ("", Some ("failed to upload file: " +:+ e))
          | None =>
              let s3Path := "s3://" +:+ S3Bucket task +:+ "/" +:+ objectName in
              logf INFO "Successfully uploaded to %s" ;;
              ret (s3Path, None)
          end
      end
  end.

(** The path [Walk] hands to its callback: the root as it was given,
    and for an entry [filepath.Join] of the directory's path and the
    entry's name. *)
Definition walk_path (root : string) (rel : list string) : string :=
  foldl (fun path name => filepath_Join [path; name]) root rel.

(** The callback of the walk in [uploadDirectoryToS3]. *)
Definition upload_entry (p : Plan) (task : Task) (sourcePath prefix : string)
  : Fs.WalkFunc World :=
  fun rel info err =>
    match err, info with
    | Some e, _ => ret (Some e)
    | None, None => ret None
    | None, Some i =>
        if negb (Fs.IsRegular i) then ret None
        else
          let path := walk_path sourcePath rel in
          let objectName := prefix +:+ "/" +:+ Fs.Rel rel in
          let* err := FPutObject p (S3Bucket task) objectName path in
          match err with
          | Some e => ret (Some ("failed to upload " +:+ path +:+ ": " +:+ e))
          | None => ret None
          end
    end.

Definition uploadDirectoryToS3 (p : Plan) (task : Task) (sourcePath : string)
  : M World (string * option string) :=
  logf INFO "Uploading directory to S3: %s/%s" ;;
  match minio_New p task with
  | Some err => ret ("", Some ("failed to create S3 client: " +:+ err))
  | None =>
      let* err := ensure_bucket p task in
      match err with
      | Some e => ret ("", Some e)
      | None =>
          let* now := time_Now in
          let timestamp := format_time p now in
          let baseName := Base sourcePath in
          let prefix := baseName +:+ "_" +:+ timestamp in
          let* err := Fs.Walk (upload_entry p task sourcePath prefix) []
                        (source p) in
          match err with
          | Some e => ret ("", Some e)
          | None =>
              let s3Path := "s3://" +:+ S3Bucket task +:+ "/" +:+ prefix +:+ "/" in
              logf INFO "Successfully uploaded directory to %s" ;;
              ret (s3Path, None)
          end
      end
  end.

(** The body of the loop over the listing in [cleanupOldBackups]. *)
Definition sweep_object (p : Plan) (task : Task) (cutoffTime : Z)
    (object : ObjectInfo) : M World unit :=
  match Err object with
  | Some _ => ret tt
  | None =>
      if (LastModified object <? cutoffTime)%Z then
        logf INFO "Deleting old backup: %s" ;;
        let* err := RemoveObject p (S3Bucket task) (Key object) in
        match err with
        | Some _ => logf WARN "Failed to delete %s: %v"
        | None => ret tt
        end
      else ret tt
  end.

(** [now.AddDate(0, 0, -task.CleanupDays)]: the negation is that of a Go
    [int]; the calendar arithmetic is the library's. *)
Definition cutoff (p : Plan) (now days : Z) : Z :=
  add_days p now (wrap64 (- days)).

Definition cleanupOldBackups (p : Plan) (task : Task) : M World (option string) :=
  logf INFO "Cleaning up backups older than %d days" ;;
  match minio_New p task with
  | Some err => ret (Some err)
  | None =>
      let* now := time_Now in
      let cutoffTime := cutoff p now (CleanupDays task) in
      let* objects := ListObjects p (S3Bucket task) in
      for_each objects (sweep_object p task cutoffTime) ;;
      ret None
  end.

(** *** The archive *)

(** The callback of the walk in [createArchive]: an error met by the walk
    is returned; otherwise the header is written and, for a regular file,
    the content copied, and the first error of these steps is returned. *)
Definition archive_entry (p : Plan) : Fs.WalkFunc World :=
  fun rel info err =>
    match err with
    | Some e => ret (Some e)
    | None => ret (entry_err p rel)
    end.

(** [createArchive]: the archive path, the archive name and the error.
    The file is created before the walk and stays when the walk fails; the
    deferred [Close] calls flush what was written on either path. *)
Definition createArchive (p : Plan) (sourcePath format serverIP : string)
  : M World (string * string * option string) :=
  let* now := time_Now in
  let timestamp := format_time p now in
  let safePath := ReplaceByte (TrimPrefix sourcePath "/") "/"%char "_"%char in
  let archiveName :=
    serverIP +:+ "_" +:+ safePath +:+ "_" +:+ timestamp +:+ "." +:+ format in
  let archivePath := filepath_Join ["/tmp"; archiveName] in
  logf INFO "Creating archive: %s from %s" ;;
  match create_err p with
  | Some e => ret ("", "", Some e)
  | None =>
      write_file archivePath 0 ;;
      let* err := Fs.Walk (archive_entry p) [] (source p) in
      write_file archivePath (archive_size p) ;;
      match err with
      | Some e => ret ("", "", Some e)
      | None => ret (archivePath, archiveName, None)
      end
  end.

(** *** The service guard *)

Definition guarded (task : Task) : bool :=
  IsDockerCompose task && bool_decide (DockerComposePath task ≠ "").

Definition compose_argv (legacy : bool) (task : Task) (verb : list string)
  : list string :=
  (if legacy then ["docker-compose"] else ["docker"; "compose"])
  ++ ["-f"; DockerComposePath task] ++ verb.

(** The stop at the head of [ExecuteBackup]. *)
Definition compose_down (p : Plan) (task : Task) : M World unit :=
  logf INFO "Stopping Docker Compose project: %s" ;;
  let* err := Run p (compose_argv false task ["down"]) in
  match err with
  | None => ret tt
  | Some _ =>
      let* err := Run p (compose_argv true task ["down"]) in
      match err with
      | Some _ => logf WARN "Failed to stop docker-compose: %v"
      | None => ret tt
      end
  end.

(** The deferred function of [ExecuteBackup]. *)
Definition compose_up (p : Plan) (task : Task) : M World unit :=
  logf INFO "Starting Docker Compose project: %s" ;;
  let* err := Run p (compose_argv false task ["up"; "-d"]) in
  match err with
  | None => ret tt
  | Some _ =>
      let* err := Run p (compose_argv true task ["up"; "-d"]) in
      match err with
      | Some _ => logf ERROR "Failed to start docker-compose: %v"
      | None => ret tt
      end
  end.

(** *** [ExecuteBackup] *)

Definition empty_result : BackupResult :=
  {| Success := false; ArchivePath := ""; ArchiveSize := 0; FilesCount := 0;
     Error := ""; S3Path := "" |}.

Definition with_archive (archivePath : string) (r : BackupResult) : BackupResult :=
  {| Success := Success r; ArchivePath := archivePath;
     ArchiveSize := ArchiveSize r; FilesCount := FilesCount r;
     Error := Error r; S3Path := S3Path r |}.

Definition with_ArchiveSize (size : Z) (r : BackupResult) : BackupResult :=
  {| Success := Success r; ArchivePath := ArchivePath r;
     ArchiveSize := size; FilesCount := FilesCount r;
     Error := Error r; S3Path := S3Path r |}.

Definition with_FilesCount (n : Z) (r : BackupResult) : BackupResult :=
  {| Success := Success r; ArchivePath := ArchivePath r;
     ArchiveSize := ArchiveSize r; FilesCount := n;
     Error := Error r; S3Path := S3Path r |}.

(** The record written when the archive has been built. *)
Definition creating_record (task : Task) (archiveName : string) (now : Z)
  : BackupRecord :=
  {| Sys.SourcePath := Config.SourcePath task; ArchiveName := archiveName;
     BackupDate := now; S3UploadDate := None; ArchiveSizeMB := 0%float;
     Sys.S3Path := ""; Status := "creating" |}.

Definition sized (mb : float) (r : BackupRecord) : BackupRecord :=
  {| Sys.SourcePath := Sys.SourcePath r; ArchiveName := ArchiveName r;
     BackupDate := BackupDate r; S3UploadDate := S3UploadDate r;
     ArchiveSizeMB := mb; Sys.S3Path := Sys.S3Path r; Status := Status r |}.

(** The loop of the size backfill: the first record with the archive name
    gets the size, then [break]. *)
Fixpoint backfill (archiveName : string) (mb : float)
    (records : list BackupRecord) : list BackupRecord :=
  match records with
  | [] => []
  | r :: rest =>
      if decide (ArchiveName r = archiveName) then sized mb r :: rest
      else r :: backfill archiveName mb rest
  end.

(** A step that falls through yields [inr]; one that executes
    [return result, err] yields [inl]. *)
Definition Returned : Type := (BackupResult * option string)%type.

(** Lines 66-108: the archive, its ledger record, the size and the file
    count.  Falls through with the result and the archive name. *)
Definition archive_step (p : Plan) (task : Task) (serverIP : string)
    (result : BackupResult) : M World (Returned + BackupResult * string) :=
  if CreateArchive task then
    let* '(archivePath, name, err) :=
      createArchive p (Config.SourcePath task) (ArchiveFormat task) serverIP in
    match err with
    | Some e =>
        ret (inl (with_Error ("Failed to create archive: " +:+ e) result, Some e))
    | None =>
        let result := with_archive archivePath result in
        let archiveName := name in
        let* now := time_Now in
        let* err := SaveBackupRecord (save_io p)
                      (creating_record task archiveName now) in
        match err with
        | Some _ => logf WARN "Failed to save backup record: %v"
        | None => ret tt
        end ;;
        let* stat := os_Stat p (ArchivePath result) in
        let* result :=
          match stat with
          | inl _ => ret result
          | inr size =>
              let result := with_ArchiveSize size result in
              let* '(records, _) := GetBackupRecords (backfill_io p) in
              (* the updated slice is a local that nothing reads again *)
              let _records := backfill archiveName (megabytes size) records in
              ret result
          end in
        ret (inr (with_FilesCount (Fs.countFiles (source p)) result, archiveName))
    end
  else
    ret (inr (with_FilesCount (Fs.countFiles (source p)) result, "")).

(** Lines 110-141: the upload. *)
Definition upload_step (p : Plan) (task : Task) (result : BackupResult)
    (archiveName : string) : M World (Returned + BackupResult) :=
  if bool_decide (S3Endpoint task ≠ "") && bool_decide (S3Bucket task ≠ "") then
    if bool_decide (ArchivePath result ≠ "") then
      let* '(s3Path, err) := uploadToS3 p task (ArchivePath result) in
      match err with
      | Some e =>
          ret (inl (with_Error ("Failed to upload to S3: " +:+ e) result, Some e))
      | None =>
          let result := with_S3Path s3Path result in
          let* now := time_Now in
          let* err := UpdateBackupRecord (update_io p) archiveName s3Path now in
          match err with
          | Some _ => logf WARN "Failed to update backup record: %v"
          | None => ret tt
          end ;;
          let* err := os_Remove p (ArchivePath result) in
          match err with
          | Some _ => logf WARN "Failed to remove archive after upload: %v"
          | None => logf INFO "Archive removed after successful upload: %s"
          end ;;
          ret (inr result)
      end
    else
      let* '(s3Path, err) := uploadDirectoryToS3 p task (Config.SourcePath task) in
      match err with
      | Some e =>
          ret (inl (with_Error ("Failed to upload directory to S3: " +:+ e) result,
                    Some e))
      | None => ret (inr (with_S3Path s3Path result))
      end
  else ret (inr result).

(** Lines 143-148: the cleanup. *)
Definition cleanup_step (p : Plan) (task : Task) : M World unit :=
  if CleanupEnabled task then
    let* err := cleanupOldBackups p task in
    match err with
    | Some _ => logf WARN "Failed to cleanup old backups: %v"
    | None => ret tt
    end
  else ret tt.

(** The statements of [ExecuteBackup] after the [defer]. *)
Definition run_backup (p : Plan) (task : Task) (serverIP : string)
  : M World Returned :=
  let* a := archive_step p task serverIP empty_result in
  match a with
  | inl returned => ret returned
  | inr (result, archiveName) =>
      let* u := upload_step p task result archiveName in
      match u with
      | inl returned => ret returned
      | inr result =>
          cleanup_step p task ;;
          ret (with_Success result, None)
      end
  end.

(** [ExecuteBackup]: the stop, the [defer] of the restart, the rest of the
    body; the deferred restart runs when the body has returned, whichever
    [return] it took. *)
Definition ExecuteBackup (p : Plan) (task : Task) (serverIP : string)
  : M World Returned :=
  when (guarded task) (compose_down p task) ;;
  let* returned := run_backup p task serverIP in
  when (guarded task) (compose_up p task) ;;
  ret returned.

(** The world ExecuteBackup finds when it starts its upload step, and what
    its archive step fell through with. *)
Definition until_upload (p : Plan) (task : Task) (serverIP : string)
  : M World (Returned + BackupResult * string) :=
  when (guarded task) (compose_down p task) ;;
  archive_step p task serverIP empty_result.

(** *** The hard failures of a run *)

(** The error of the archive build, when an archive is asked for. *)
Definition build_failure (p : Plan) (task : Task) (serverIP : string)
    (w : World) : option string :=
  if CreateArchive task then
    (eval (createArchive p (Config.SourcePath task) (ArchiveFormat task) serverIP)
       (exec (when (guarded task) (compose_down p task)) w)).2
  else None.

(** The upload [ExecuteBackup] makes for a result: of the archive when
    there is one, of the source tree otherwise. *)
Definition upload_of (p : Plan) (task : Task) (result : BackupResult)
  : M World (string * option string) :=
  if bool_decide (ArchivePath result ≠ "")
  then uploadToS3 p task (ArchivePath result)
  else uploadDirectoryToS3 p task (Config.SourcePath task).

(** The error of the upload, when the run gets to it and a destination is
    configured. *)
Definition upload_failure (p : Plan) (task : Task) (serverIP : string)
    (w : World) : option string :=
  match until_upload p task serverIP w with
  | (inr (result, _), w1) =>
      if bool_decide (S3Endpoint task ≠ "") && bool_decide (S3Bucket task ≠ "")
      then (eval (upload_of p task result) w1).2
      else None
  | (inl _, _) => None
  end.

Definition first_hard_failure (p : Plan) (task : Task) (serverIP : string)
    (w : World) : option string :=
  match build_failure p task serverIP w with
  | Some e => Some e
  | None => upload_failure p task serverIP w
  end.

(** The warnings and errors [ExecuteBackup] has in its text. *)
Definition known_complaints : list Event :=
  [EvLog WARN "Failed to stop docker-compose: %v";
   EvLog WARN "Failed to save backup record: %v";
   EvLog WARN "Failed to update backup record: %v";
   EvLog WARN "Failed to remove archive after upload: %v";
   EvLog WARN "Failed to delete %s: %v";
   EvLog WARN "Failed to cleanup old backups: %v";
   EvLog ERROR "Failed to start docker-compose: %v"].

(** The lines the pipeline logs: information, or one of the complaints. *)
Definition pipeline_line (lvl : Level) (format : string) : Prop :=
  lvl = INFO ∨ EvLog lvl format ∈ known_complaints.


(** *** A run to try things on *)

Definition calm : Plan :=
  {| format_time := Itoa;
     add_days := fun t days => (t + 86400 * days)%Z;
     run_err := fun _ => None;
     source := Fs.clean_tree;
     create_err := None;
     entry_err := fun _ => None;
     archive_size := 5242880;
     save_io := io_ok;
     stat_err := None;
     backfill_io := io_ok;
     update_io := io_ok;
     remove_err := None;
     new_client_err := fun _ _ _ => None;
     bucket_exists_err := None;
     make_bucket_err := None;
     put_err := fun _ => None;
     list_err := None;
     remove_object_err := fun _ => None |}.

Definition nightly : Task :=
  {| TaskID := 1; Config.SourcePath := "/data"; CreateArchive := true;
     ArchiveFormat := "tar.gz"; S3Endpoint := "https://s3.example.org";
     S3AccessKey := "key"; S3SecretKey := "secret"; S3Bucket := "backups";
     S3Region := "eu-west-1"; StorageType := "s3"; StorageConfig := "";
     CleanupEnabled := true; CleanupDays := 7;
     IsDockerCompose := true; DockerComposePath := "/srv/app/compose.yml";
     ScheduleCron := "0 30 4 * * *" |}.

(** The same plan with an object store that drops the connection on
    every upload. *)
Definition flaky : Plan :=
  {| format_time := Itoa;
     add_days := fun t days => (t + 86400 * days)%Z;
     run_err := fun _ => None;
     source := Fs.clean_tree;
     create_err := None;
     entry_err := fun _ => None;
     archive_size := 5242880;
     save_io := io_ok;
     stat_err := None;
     backfill_io := io_ok;
     update_io := io_ok;
     remove_err := None;
     new_client_err := fun _ _ _ => None;
     bucket_exists_err := None;
     make_bucket_err := None;
     put_err := fun _ => Some "connection reset by peer";
     list_err := None;
     remove_object_err := fun _ => None |}.

(** The same plan with a bucket creation that loses the race: another
    actor has created the bucket since the check. *)
Definition raced : Plan :=
  {| format_time := Itoa;
     add_days := fun t days => (t + 86400 * days)%Z;
     run_err := fun _ => None;
     source := Fs.clean_tree;
     create_err := None;
     entry_err := fun _ => None;
     archive_size := 5242880;
     save_io := io_ok;
     stat_err := None;
     backfill_io := io_ok;
     update_io := io_ok;
     remove_err := None;
     new_client_err := fun _ _ _ => None;
     bucket_exists_err := None;
     make_bucket_err :=
       Some "Your previous request to create the named bucket succeeded and you already own it.";
     put_err := fun _ => None;
     list_err := None;
     remove_object_err := fun _ => None |}.



(** A world whose bucket holds one old archive. *)
Definition stale : World :=
  {| ledger := Absent; files := ∅;
     buckets := {[ "backups" := {[ "10.0.0.5_data_1600000000.tar.gz" := 1600000000%Z ]} ]};
     clock := 1700000000; trace := [] |}.

Definition fresh : World :=
  {| ledger := Absent; files := ∅; buckets := ∅; clock := 1700000000;
     trace := [] |}.

End Backup.

(** ** Relating the world before and after a computation *)
Module Frame.
Import Sys.

(** [m] takes every world to one related to it by [R]. *)
Definition keeps {A} (R : World -> World -> Prop) (m : M World A) : Prop :=
  ∀ w, R w (exec m w).

(** Whatever the world, the value [m] yields satisfies [P]. *)
Definition returns {A} (P : A -> Prop) (m : M World A) : Prop :=
  ∀ w, P (eval m w).

(** The relations used are preorders. *)
Class Preorder (R : World -> World -> Prop) : Prop := {
  frame_refl : ∀ w, R w w;
  frame_trans : ∀ a b c, R a b -> R b c -> R a c
}.

(** The trace grew by events that all satisfy [Q]. *)
Definition quiet (Q : Event -> Prop) (w w' : World) : Prop :=
  ∃ t, trace w' = trace w ++ t ∧ Forall Q t.

(** The ledger and the local files are as they were. *)
Definition local_kept (w w' : World) : Prop :=
  ledger w' = ledger w ∧ files w' = files w.

(** The events a computation adds to the trace. *)
Definition emitted {A} (m : M World A) (w : World) : list Event :=
  drop (length (trace w)) (trace (exec m w)).

(** Any event at all. *)
Definition any_event (e : Event) : Prop := True.

(** A request to the object store. *)
Definition store_event (e : Event) : Prop :=
  match e with
  | EvBucketExists _ | EvMakeBucket _ _ | EvFPutObject _ _ _
  | EvListObjects _ | EvRemoveObject _ _ => True
  | _ => False
  end.

(** A request that reads, writes or deletes objects. *)
Definition object_event (e : Event) : Prop :=
  match e with
  | EvFPutObject _ _ _ | EvListObjects _ | EvRemoveObject _ _ => True
  | _ => False
  end.

(** A bucket check or a bucket creation. *)
Definition bucket_event (e : Event) : Prop :=
  match e with
  | EvBucketExists _ | EvMakeBucket _ _ => True
  | _ => False
  end.

(** A command. *)
Definition run_event (e : Event) : Prop :=
  match e with
  | EvRun _ => True
  | _ => False
  end.


(** The events of an upload after its first log line: none (no client),
    or the bucket check, the bucket creation if any, and what follows;
    something follows a check that found no bucket only after the
    creation. *)
Definition checked_shape (task : Task) (absent : Prop) (t : list Event) : Prop :=
  t = []
  ∨ ∃ mk tail,
      t = EvBucketExists (S3Bucket task) :: mk ++ tail
      ∧ (mk = [] ∨ mk = [EvMakeBucket (S3Bucket task) (S3Region task)])
      ∧ (tail ≠ [] → absent →
         mk = [EvMakeBucket (S3Bucket task) (S3Region task)]).

(** In the events [t], every object request comes after the bucket check
    and, when the bucket was absent, after its creation. *)
Definition bucket_checked_first (task : Task) (absent : Prop) (t : list Event)
  : Prop :=
  ∀ before e after,
    t = before ++ e :: after → object_event e →
    EvBucketExists (S3Bucket task) ∈ before
    ∧ (absent → EvMakeBucket (S3Bucket task) (S3Region task) ∈ before).

(** A write to the ledger or the removal of a local file. *)
Definition local_event (e : Event) : Prop :=
  match e with
  | EvWriteLedger | EvRemove _ => True
  | _ => False
  end.


End Frame.


(** ** [internal/config]: the operations on the task list

    (The two default-storage fields of the Go [Config] are not touched by
    these functions.) *)
Module ConfigOps.

Definition with_Tasks (tasks : list Task) (c : Config) : Config :=
  {| Port := Port c; ServerIP := ServerIP c;
     ServerHostname := ServerHostname c; Tasks := tasks |}.

(** The loop of [AddOrUpdateTask]: the first task with the identifier is
    overwritten and the function returns; [None] when the loop ends
    without a match. *)
Fixpoint replace_first (task : Task) (tasks : list Task) : option (list Task) :=
  match tasks with
  | [] => None
  | t :: rest =>
      if decide (TaskID t = TaskID task) then Some (task :: rest)
      else cons t <$> replace_first task rest
  end.

Definition AddOrUpdateTask (task : Task) (c : Config) : Config :=
  match replace_first task (Tasks c) with
  | Some tasks => with_Tasks tasks c
  | None => with_Tasks (Tasks c ++ [task]) c
  end.

Definition RemoveTask (taskID : Z) (c : Config) : Config :=
  with_Tasks (filter (fun t => TaskID t ≠ taskID) (Tasks c)) c.

(** The loop of [GetTask]: the first task with the identifier. *)
Fixpoint first_task (taskID : Z) (tasks : list Task) : option Task :=
  match tasks with
  | [] => None
  | t :: rest =>
      if decide (TaskID t = taskID) then Some t else first_task taskID rest
  end.

Definition GetTask (taskID : Z) (c : Config) : option Task :=
  first_task taskID (Tasks c).

(** A configuration of two tasks. *)
Definition two_tasks : Config :=
  {| Port := 11540; ServerIP := "10.0.0.1"; ServerHostname := "";
     Tasks := [Cron.plain_task 1 "0 30 4 * * *"; Cron.plain_task 12 "0 0 2 * * *"] |}.

End ConfigOps.

(** ** Words and lines of a crontab entry *)
Module CronText.

(** No white-space rune starts at any byte of [s]. *)
Fixpoint spaceless (s : string) : bool :=
  match s with
  | EmptyString => true
  | String _ r =>
      match space_width s with
      | O => spaceless r
      | S _ => false
      end
  end.

(** A field as [strings.Fields] yields them: not empty, no white space. *)
Definition word (s : string) : Prop := s ≠ "" ∧ spaceless s = true.

(** The lines of a crontab that carry the marker of [taskID]. *)
Definition marked (taskID : Z) (lines : list string) : list string :=
  filter (fun line => Contains line (Cron.marker taskID) = true) lines.

(** What [crontab -l] hands to the synchronisation. *)
Definition listed (f : Cron.Faults) (h : Cron.Host) : list string :=
  SplitByte LF (if Cron.list_fails f then Cron.list_stdout f
                else Cron.crontab h).

End CronText.

(** ** What a ledger file yields to a reader that ignores the decoder's
    error *)
Module LedgerText.
Import Sys.

Definition decodable (l : LedgerFile) : list BackupRecord :=
  match l with
  | Absent => []
  | Stored records => records
  | Garbled decoded _ => decoded
  end.

(** A ledger file whose one record has a number for its status: the
    decoder keeps the record, its status empty, and reports the type
    error. *)
Definition unfinished : BackupRecord :=
  {| SourcePath := "/data"; ArchiveName := "10.0.0.5_data_1.tar.gz";
     BackupDate := 1; S3UploadDate := None; ArchiveSizeMB := 0%float;
     S3Path := ""; Status := "" |}.

Definition mistyped : LedgerFile :=
  Garbled [unfinished]
    "json: cannot unmarshal number into Go struct field BackupRecord.status of type string".

End LedgerText.

(** ** Vocabulary for the runs of the pipeline *)
Module Pipeline.
Import Sys Backup.

(** The name [createArchive] composes for an archive started when the
    clock reads [now]. *)
Definition archive_name_at (p : Plan) (sourcePath format serverIP : string)
    (now : Z) : string :=
  serverIP +:+ "_"
  +:+ ReplaceByte (TrimPrefix sourcePath "/") "/"%char "_"%char
  +:+ "_" +:+ format_time p now +:+ "." +:+ format.

(** One of the four commands of the service guard of [task]. *)
Definition compose_command (task : Task) (e : Event) : Prop :=
  ∃ legacy verb,
    e = EvRun (compose_argv legacy task verb)
    ∧ (verb = ["down"] ∨ verb = ["up"; "-d"]).

(** A write of the ledger. *)
Definition ledger_event (e : Event) : Prop :=
  match e with
  | EvWriteLedger => True
  | _ => False
  end.

(** A listing or a deletion of objects: what the cleanup asks of the
    object store. *)
Definition sweep_event (e : Event) : Prop :=
  match e with
  | EvListObjects _ | EvRemoveObject _ _ => True
  | _ => False
  end.

(** An object the sweep deletes: last modified before the cutoff, and its
    removal succeeds. *)
Definition expired (p : Plan) (cutoffTime : Z) (key : string) (modified : Z)
  : Prop :=
  (modified < cutoffTime)%Z ∧ remove_object_err p key = None.

#[global] Instance expired_dec p cutoffTime key modified :
  Decision (expired p cutoffTime key modified).
Proof. unfold expired. apply _. Defined.

(** Neither a step of an upload (bucket check, bucket creation, object
    upload) nor the removal of a local file. *)
Definition upload_free (e : Event) : Prop :=
  match e with
  | EvBucketExists _ | EvMakeBucket _ _ | EvFPutObject _ _ _ | EvRemove _ =>
      False
  | _ => True
  end.

(** The regular files of a tree that can be walked without error, each
    by the names that lead to it from [rel], in the order of the walk. *)
Fixpoint regular_paths (rel : list string) (n : Fs.Node)
  : list (list string) :=
  match n with
  | Fs.Missing _ => []
  | Fs.File regular _ => if regular then [rel] else []
  | Fs.Dir (Some _) _ => []
  | Fs.Dir None children =>
      (fix below (cs : list (string * Fs.Node)) : list (list string) :=
         match cs with
         | [] => []
         | (name, c) :: rest => regular_paths (rel ++ [name]) c ++ below rest
         end) children
  end.

(** Where [createArchive] puts the archive [name]. *)
Definition archive_path (name : string) : string :=
  filepath_Join ["/tmp"; name].

(** One turn of the sweep, on the objects of the bucket. *)
Definition sweep_one (p : Plan) (cutoffTime : Z) (objs : gmap string Z)
    (kv : string * Z) : gmap string Z :=
  if decide (expired p cutoffTime kv.1 kv.2) then delete kv.1 objs else objs.

(** Nothing changed but the trace. *)
Definition trace_only (w w' : World) : Prop :=
  ledger w' = ledger w ∧ files w' = files w ∧ buckets w' = buckets w
  ∧ clock w' = clock w.

(** A task that mirrors its source tree into the bucket, without archive. *)
Definition mirror : Task :=
  {| TaskID := 2; Config.SourcePath := "/srv/www"; CreateArchive := false;
     ArchiveFormat := ""; S3Endpoint := "http://minio.local:9000";
     S3AccessKey := "key"; S3SecretKey := "secret"; S3Bucket := "mirror";
     S3Region := ""; StorageType := "s3"; StorageConfig := "";
     CleanupEnabled := true; CleanupDays := 30;
     IsDockerCompose := false; DockerComposePath := "";
     ScheduleCron := "0 0 3 * * *" |}.

(** A plan in which the archive writer fails at the first entry. *)
Definition torn : Plan :=
  {| format_time := Itoa;
     add_days := fun t days => (t + 86400 * days)%Z;
     run_err := fun _ => None;
     source := Fs.clean_tree;
     create_err := None;
     entry_err := fun _ => Some "write /tmp/archive: no space left on device";
     archive_size := 512;
     save_io := io_ok;
     stat_err := None;
     backfill_io := io_ok;
     update_io := io_ok;
     remove_err := None;
     new_client_err := fun _ _ _ => None;
     bucket_exists_err := None;
     make_bucket_err := None;
     put_err := fun _ => None;
     list_err := None;
     remove_object_err := fun _ => None |}.

End Pipeline.

(** ** [internal/api]: the middleware and the handlers that act on tasks

    The router and the scheduler are created in [main] from the same
    [*config.Config]: the configuration the handlers change is the one the
    manager holds.  Binding the request body ([ShouldBindJSON]) is a
    library call: a handler is given its error or the value bound. *)
Module Api.
Import Sys Backup ConfigOps.

(** The answers of the handlers modelled here. *)
Inductive Response :=
| BadRequest (error : string)            (* 400, {"error": ...} *)
| Forbidden                              (* 403, {"error": "Forbidden"} *)
| InternalServerError (error : string)   (* 500, the error text *)
| StatusOk                               (* 200, {"status": "ok"} *)
| Executed (success : bool) (archive_size files_count : Z) (s3_path : string).
                                         (* 200, the result of the run *)

(** [authMiddleware]: the answer that ends the request, or [None] when
    the request goes on to its handler ([c.Next()]). *)
Definition authMiddleware (cfg : Config) (path clientIP hostname : string)
  : option Response :=
  if String.eqb path "/ping" then None
  else if negb (String.eqb (ServerIP cfg) "")
          && negb (String.eqb clientIP (ServerIP cfg))
  then Some Forbidden
  else if negb (String.eqb (ServerHostname cfg) "")
          && negb (String.eqb hostname (ServerHostname cfg))
  then Some Forbidden
  else None.

(** The configuration [config.Load] creates when there is no file. *)
Definition default_config : Config :=
  {| Port := 11540; ServerIP := ""; ServerHostname := ""; Tasks := [] |}.

(** The body of [POST /api/task/execute]. *)
Record ExecuteRequest := {
  ReqTaskID : Z;
  ReqSourcePath : string;
  ReqCreateArchive : bool;
  ReqArchiveFormat : string;
  ReqS3Endpoint : string;
  ReqS3AccessKey : string;
  ReqS3SecretKey : string;
  ReqS3Bucket : string;
  ReqS3Region : string;
  ReqCleanupEnabled : bool;
  ReqCleanupDays : Z;
  ReqIsDockerCompose : bool;
  ReqDockerComposePath : string
}.

(** The task [executeTask] builds from the request; the fields the
    request does not have keep their zero value. *)
Definition task_of_request (req : ExecuteRequest) : Task :=
  {| TaskID := ReqTaskID req;
     Config.SourcePath := ReqSourcePath req;
     CreateArchive := ReqCreateArchive req;
     ArchiveFormat := ReqArchiveFormat req;
     S3Endpoint := ReqS3Endpoint req;
     S3AccessKey := ReqS3AccessKey req;
     S3SecretKey := ReqS3SecretKey req;
     S3Bucket := ReqS3Bucket req;
     S3Region := ReqS3Region req;
     StorageType := "";
     StorageConfig := "";
     CleanupEnabled := ReqCleanupEnabled req;
     CleanupDays := ReqCleanupDays req;
     IsDockerCompose := ReqIsDockerCompose req;
     DockerComposePath := ReqDockerComposePath req;
     ScheduleCron := "" |}.

(** The server address a run is given. *)
Definition serverIP_of (cfg : Config) : string :=
  if String.eqb (ServerIP cfg) "" then "unknown" else ServerIP cfg.

Definition executeTask (p : Plan) (cfg : Config)
    (body : string + ExecuteRequest) : M World Response :=
  match body with
  | inl err => ret (BadRequest err)
  | inr req =>
      let task := task_of_request req in
      let serverIP := serverIP_of cfg in
      let* '(result, err) := ExecuteBackup p task serverIP in
      match err with
      | Some e => ret (InternalServerError e)
      | None =>
          ret (Executed (Success result) (ArchiveSize result)
                 (FilesCount result) (Backup.S3Path result))
      end
  end.

(** The configuration file [/etc/backupserveragent/config.json]. *)
Inductive ConfigFile :=
| NoConfig
| Holds (cfg : Config)
| Damaged.

(** The agent: the scheduler on its host (with the shared configuration)
    and the configuration file. *)
Record Agent := { host : Cron.Host; config_file : ConfigFile }.

(** The faults [config.Save] meets. *)
Record SaveFaults := {
  save_mkdir_err : option string;
  save_write_err : option (string * Residue)
}.

Definition on_host {A} (m : M Cron.Host A) : M Agent A :=
  fun a => let (x, h) := m (host a) in
           (x, {| host := h; config_file := config_file a |}).

Definition set_file (f : ConfigFile) : M Agent unit :=
  modify (fun a => {| host := host a; config_file := f |}).

(** [config.Save(cfg)].  Marshalling a configuration cannot fail. *)
Definition Save (sf : SaveFaults) (cfg : Config) : M Agent (option string) :=
  match save_mkdir_err sf with
  | Some e => ret (Some ("failed to create config directory: " +:+ e))
  | None =>
      match save_write_err sf with
      | None => set_file (Holds cfg) ;; ret None
      | Some (e, Untouched) => ret (Some ("failed to write config: " +:+ e))
      | Some (e, Truncated) =>
          set_file Damaged ;; ret (Some ("failed to write config: " +:+ e))
      | Some (e, Written) =>
          set_file (Holds cfg) ;; ret (Some ("failed to write config: " +:+ e))
      end
  end.

(** [r.config.AddOrUpdateTask(task)], on the shared configuration. *)
Definition update_config (task : Task) : M Cron.Host unit :=
  Cron.set_manager (fun cm =>
    {| Cron.cron := Cron.cron cm;
       Cron.config := AddOrUpdateTask task (Cron.config cm);
       Cron.entries := Cron.entries cm |}).

Definition setTaskConfig (parse_err : string -> option string)
    (sf : SaveFaults) (cf : Cron.Faults) (body : string + Task)
  : M Agent Response :=
  match body with
  | inl err => ret (BadRequest err)
  | inr task =>
      on_host (update_config task) ;;
      let* cfg := gets (fun a => Cron.config (Cron.manager (host a))) in
      let* err := Save sf cfg in
      match err with
      | Some e => ret (InternalServerError e)
      | None =>
          on_host (Cron.AddTask parse_err cf task) ;;
          ret StatusOk
      end
  end.

(** A request for an archive of [/data] without upload. *)
Definition archive_request : ExecuteRequest :=
  {| ReqTaskID := 5; ReqSourcePath := "/data"; ReqCreateArchive := true;
     ReqArchiveFormat := "tar.gz"; ReqS3Endpoint := ""; ReqS3AccessKey := "";
     ReqS3SecretKey := ""; ReqS3Bucket := ""; ReqS3Region := "";
     ReqCleanupEnabled := false; ReqCleanupDays := 0;
     ReqIsDockerCompose := false; ReqDockerComposePath := "" |}.

(** An agent that has just started with the default configuration. *)
Definition started : Agent :=
  {| host := Cron.New default_config ""; config_file := Holds default_config |}.

Definition disk_full : SaveFaults :=
  {| save_mkdir_err := None;
     save_write_err := Some ("no space left on device", Truncated) |}.

End Api.

(** * The string functions on small inputs *)
Module GoStringsProps.

Example Contains_prefix_of_longer_number :
  Contains "--task-id 12" "--task-id 1" = true
  ∧ Contains "--task-id 1" "--task-id 12" = false
  ∧ Contains "" "" = true.
Proof. repeat split. Qed.

Example SplitByte_lines :
  SplitByte LF ("a" +:+ nl +:+ "b" +:+ nl) = ["a"; "b"; ""]
  ∧ SplitByte LF "" = [""].
Proof. split; reflexivity. Qed.

Example Join_lines : Join ["a"; "b"; ""] nl = "a" +:+ nl +:+ "b" +:+ nl.
Proof. reflexivity. Qed.

Example Fields_of_schedule :
  Fields "  0 30  4 * * * " = ["0"; "30"; "4"; "*"; "*"; "*"]
  ∧ Fields "@daily" = ["@daily"]
  ∧ Fields "   " = [].
Proof. repeat split. Qed.

Example Base_of_paths :
  Base "/tmp/10.0.0.5_data.tar.gz" = "10.0.0.5_data.tar.gz"
  ∧ Base "/data/" = "data" ∧ Base "" = "." ∧ Base "//" = "/".
Proof. repeat split. Qed.

Example Itoa_of_numbers : Itoa 12 = "12" ∧ Itoa 0 = "0" ∧ Itoa (-7) = "-7".
Proof. repeat split; vm_compute; reflexivity. Qed.

End GoStringsProps.

(** * Properties of the scheduler *)
Module CronProps.
Import Cron.

Section Manager.
Variable parse_err : string -> option string.

Lemma retired_sub taskID cm e :
  e ∈ retired taskID cm → e ∈ live (cron cm).
Proof.
  unfold retired. destruct (entries cm !! taskID); [|done].
  rewrite list_elem_of_filter. tauto.
Qed.

Lemma retired_none taskID h e :
  tabled h → e ∈ retired taskID (manager h) → TaskID (Job e) ≠ taskID.
Proof.
  intros Ht He Heq. pose proof (Ht e (retired_sub _ _ _ He)) as Hl.
  rewrite Heq in Hl. unfold retired in He. rewrite Hl in He.
  apply list_elem_of_filter in He. tauto.
Qed.

Lemma filter_none {A} (P : A → Prop) `{!∀ x, Decision (P x)} (l : list A) :
  (∀ x, x ∈ l → ¬ P x) → filter P l = [].
Proof.
  induction l as [|a l IH]; intros Hl; [done|].
  rewrite filter_cons_False by (apply Hl; left).
  apply IH. intros x Hx. apply Hl. by right.
Qed.

Lemma filter_twice_length {A} (P Q : A → Prop)
    `{!∀ x, Decision (P x)} `{!∀ x, Decision (Q x)} (l : list A) :
  length (filter P (filter Q l)) ≤ length (filter P l).
Proof.
  induction l as [|a l IH]; [done|].
  rewrite !filter_cons.
  repeat (case_decide; rewrite ?filter_cons; simpl); lia.
Qed.

Lemma retired_filter_le taskID taskID' cm :
  length (filter (fun e => TaskID (Job e) = taskID') (retired taskID cm))
  ≤ length (filter (fun e => TaskID (Job e) = taskID') (live (cron cm))).
Proof.
  unfold retired. destruct (entries cm !! taskID); [|done].
  apply filter_twice_length.
Qed.

(** The manager after [AddTask], in closed form. *)
Lemma AddTask_manager f task h :
  manager (exec (AddTask parse_err f task) h) =
  let cm := manager h in
  match parse_err (ScheduleCron task) with
  | Some _ =>
      {| cron := {| live := retired (TaskID task) cm;
                    nextID := nextID (cron cm) |};
         config := config cm; entries := entries cm |}
  | None =>
      {| cron := {| live := retired (TaskID task) cm ++ [new_entry task cm];
                    nextID := wrap64 (nextID (cron cm) + 1) |};
         config := config cm;
         entries := <[TaskID task := wrap64 (nextID (cron cm) + 1)]> (entries cm) |}
  end.
Proof.
  destruct h as [[[lv nx] cfg en] tab jr].
  unfold AddTask, cron_AddFunc, updateSystemCron, install_line, retired,
    new_entry, exec, bind, gets, ret, cron_Remove, set_entry, set_manager,
    set_crontab, note, read_crontab, modify; simpl.
  destruct (en !! TaskID task); simpl;
    destruct (parse_err (ScheduleCron task)); simpl;
    destruct (install_err f); reflexivity.
Qed.

(** The manager after [RemoveTask], in closed form. *)
Lemma RemoveTask_manager f taskID h :
  manager (exec (RemoveTask f taskID) h) =
  let cm := manager h in
  match entries cm !! taskID with
  | Some _ =>
      {| cron := {| live := retired taskID cm; nextID := nextID (cron cm) |};
         config := config cm; entries := delete taskID (entries cm) |}
  | None => cm
  end.
Proof.
  destruct h as [[[lv nx] cfg en] tab jr].
  unfold RemoveTask, removeFromSystemCron, retired, exec,
    bind, gets, ret, cron_Remove, delete_entry, set_manager, set_crontab, note,
    read_crontab, modify; simpl.
  destruct (en !! taskID); simpl; destruct (install_err f); reflexivity.
Qed.

Lemma live_triggers_retired taskID h :
  tabled h →
  filter (fun e => TaskID (Job e) = taskID) (retired taskID (manager h)) = [].
Proof.
  intros Ht. apply filter_none. intros e He.
  by apply (retired_none taskID h).
Qed.

(** [AddTask] leaves exactly the new trigger for its task, or none when
    the schedule does not parse. *)
Lemma AddTask_live_triggers f task h :
  tabled h →
  live_triggers (TaskID task) (exec (AddTask parse_err f task) h) =
  match parse_err (ScheduleCron task) with
  | Some _ => []
  | None => [new_entry task (manager h)]
  end.
Proof.
  intros Ht. unfold live_triggers. rewrite AddTask_manager. simpl.
  destruct (parse_err (ScheduleCron task)); simpl.
  - by apply live_triggers_retired.
  - rewrite filter_app, live_triggers_retired by done.
    by rewrite filter_cons_True.
Qed.

Lemma AddTask_inv f task h : inv h → inv (exec (AddTask parse_err f task) h).
Proof.
  intros [Ht Hs]. split.
  - unfold tabled. rewrite AddTask_manager. simpl.
    destruct (parse_err (ScheduleCron task)); simpl; intros e He.
    + apply Ht. by apply retired_sub in He.
    + apply elem_of_app in He as [He|He].
      * rewrite lookup_insert_ne by (symmetry; by apply (retired_none _ h)).
        apply Ht. by apply retired_sub in He.
      * apply list_elem_of_singleton in He as ->. simpl.
        by rewrite lookup_insert_eq.
  - intros taskID. destruct (decide (taskID = TaskID task)) as [->|Hne].
    + rewrite AddTask_live_triggers by done.
      destruct (parse_err (ScheduleCron task)); simpl; lia.
    + unfold live_triggers. rewrite AddTask_manager. simpl.
      specialize (Hs taskID). unfold live_triggers in Hs.
      pose proof (retired_filter_le (TaskID task) taskID (manager h)).
      destruct (parse_err (ScheduleCron task)); simpl.
      * lia.
      * rewrite filter_app, filter_cons_False, filter_nil by (simpl; congruence).
        rewrite length_app. simpl. lia.
Qed.

Lemma RemoveTask_live_triggers f taskID h :
  tabled h →
  live_triggers taskID (exec (RemoveTask f taskID) h) = []
  ∧ entries (manager (exec (RemoveTask f taskID) h)) !! taskID = None.
Proof.
  intros Ht. unfold live_triggers. rewrite RemoveTask_manager. simpl.
  pose proof (live_triggers_retired taskID h Ht) as Hr.
  unfold retired in *.
  destruct (entries (manager h) !! taskID) eqn:E; simpl.
  - split; [done|]. apply lookup_delete_eq.
  - by rewrite E.
Qed.

Lemma RemoveTask_inv f taskID h : inv h → inv (exec (RemoveTask f taskID) h).
Proof.
  intros [Ht Hs]. split.
  - unfold tabled. rewrite RemoveTask_manager. simpl.
    pose proof (retired_none taskID h) as Hn.
    pose proof (retired_sub taskID (manager h)) as Hsub.
    unfold retired in *.
    destruct (entries (manager h) !! taskID) as [old|] eqn:E; simpl; [|apply Ht].
    intros e He. rewrite lookup_delete_ne by (symmetry; by apply Hn).
    apply Ht. by apply Hsub.
  - intros tid. unfold live_triggers. rewrite RemoveTask_manager. simpl.
    specialize (Hs tid). unfold live_triggers in Hs.
    pose proof (retired_filter_le taskID tid (manager h)) as Hle.
    destruct (entries (manager h) !! taskID); simpl; lia.
Qed.

Lemma for_each_inv {A} (P : Host → Prop) (xs : list A) (body : A → M Host unit) :
  (∀ x h, P h → P (exec (body x) h)) →
  ∀ h, P h → P (exec (for_each xs body) h).
Proof.
  intros Hb. induction xs as [|x xs IH]; intros h Hh; [done|].
  simpl. unfold exec, bind in *. specialize (Hb x h Hh).
  destruct (body x h) as [u h']. by apply IH.
Qed.

Lemma LoadTasks_inv f h : inv h → inv (exec (LoadTasks parse_err f) h).
Proof.
  intros Hi. unfold LoadTasks, exec, bind, gets. simpl.
  apply (for_each_inv inv); [|done].
  intros task h' Hh'. unfold when.
  destruct (negb _); [by apply AddTask_inv|done].
Qed.

Lemma inv_New cfg tab : inv (New cfg tab).
Proof.
  split; [intros e He; by apply elem_of_nil in He|intros tid; simpl; lia].
Qed.

Lemma whole_call_inv h h' : whole_call parse_err h h' → inv h → inv h'.
Proof.
  destruct 1; intros Hi.
  - done.
  - done.
  - by apply LoadTasks_inv.
  - by apply AddTask_inv.
  - by apply RemoveTask_inv.
Qed.

Lemma between_single c h : between c h → single_trigger h.
Proof.
  unfold between. destruct (call_at c); unfold inv; tauto.
Qed.

(** One statement of a call that runs alone keeps [between]. *)
Lemma step_between c h :
  between c h → between (moved parse_err c h) (after_step parse_err c h).
Proof.
  destruct c as [f task at_]. destruct h as [[[lv nx] cfg en] tab jr].
  unfold between, moved, after_step, inv, tabled, tabled_but, single_trigger,
    live_triggers. simpl.
  destruct at_ as [|old| |entryID| |content|]; simpl.
  - intros Hi. by split.
  - intros [[Ht Hs] ->].
    destruct (en !! TaskID task) as [entryID|] eqn:E; simpl.
    + split; [|split].
      * intros e He Hne. apply Ht. by apply list_elem_of_filter in He as [_ He].
      * apply filter_none. intros e He Hid.
        apply list_elem_of_filter in He as [Hne He].
        apply Ht in He. rewrite Hid, E in He. congruence.
      * intros taskID. etrans; [apply filter_twice_length|apply Hs].
    + split; [|split].
      * intros e He _. by apply Ht.
      * apply filter_none. intros e He Hid.
        apply Ht in He. rewrite Hid, E in He. congruence.
      * done.
  - intros (Ht & Hn & Hs). unfold cron_AddFunc.
    destruct (parse_err (ScheduleCron task)) as [err|]; simpl.
    + split; [|done].
      intros e He. destruct (decide (TaskID (Job e) = TaskID task)) as [Hid|Hne].
      * exfalso. assert (Hin : e ∈ filter (fun e => TaskID (Job e) = TaskID task) lv)
          by (by apply list_elem_of_filter).
        rewrite Hn in Hin. by apply elem_of_nil in Hin.
      * by apply Ht.
    + split; [|split].
      * intros e He Hne. apply elem_of_app in He as [He|He]; [by apply Ht|].
        apply list_elem_of_singleton in He as ->. done.
      * intros e He Hid. apply elem_of_app in He as [He|He].
        -- exfalso. assert (Hin : e ∈ filter (fun e => TaskID (Job e) = TaskID task) lv)
             by (by apply list_elem_of_filter).
           rewrite Hn in Hin. by apply elem_of_nil in Hin.
        -- by apply list_elem_of_singleton in He as ->.
      * intros taskID. rewrite filter_app, length_app.
        destruct (decide (taskID = TaskID task)) as [->|Hne].
        -- rewrite Hn, filter_cons_True by done. simpl. lia.
        -- rewrite filter_cons_False by (simpl; congruence).
           specialize (Hs taskID). simpl. lia.
  - intros (Ht & Hid & Hs). split; [|done].
    intros e He. destruct (decide (TaskID (Job e) = TaskID task)) as [Heq|Hne].
    + rewrite Heq, lookup_insert_eq. f_equal. symmetry. by apply Hid.
    + rewrite lookup_insert_ne by done. by apply Ht.
  - unfold read_crontab, bind, gets, ret, eval, exec. simpl. done.
  - unfold install_line, bind, ret, eval, exec, note, set_crontab, modify.
    destruct (install_err f); simpl; done.
  - done.
Qed.

Lemma serial_between h active :
  serial parse_err h active →
  match active with
  | None => inv h
  | Some c => between c h
  end.
Proof.
  induction 1 as [cfg tab|h h' _ IH Hc|h f task _ IH|h c _ IH Hat|h c _ IH Hat].
  - apply inv_New.
  - by apply (whole_call_inv h).
  - done.
  - by apply step_between.
  - unfold between in IH. by rewrite Hat in IH.
Qed.

(** The six statements of [AddTask], run without another call in between,
    are the call. *)
Lemma AddTask_in_steps f task h :
  AddTask_steps parse_err 6 f task AtLookup h
  = (AtReturn, exec (AddTask parse_err f task) h).
Proof.
  destruct h as [[[lv nx] cfg en] tab jr].
  destruct (en !! TaskID task) eqn:E;
    destruct (parse_err (ScheduleCron task)) eqn:P;
    destruct (install_err f) eqn:I;
    repeat (progress (cbn [AddTask_steps AddTask_step];
      unfold AddTask, updateSystemCron, exec, cron_AddFunc, install_line,
        bind, gets, ret, cron_Remove, set_entry, set_manager, set_crontab,
        note, read_crontab, modify; cbn; rewrite ?E, ?P, ?I));
    reflexivity.
Qed.
(** C8. While the calls on the manager do not overlap there is at most
    one live trigger per task identifier at every moment: between two
    calls and between two statements of a call of [AddTask].  Between
    calls, the six statements of [AddTask] are the call, and [AddTask]
    retires the trigger registered for the identifier before it installs
    the new one: afterwards the live triggers of that identifier are
    exactly the new one (none when the schedule is refused).
    [RemoveTask] retires the trigger and drops the identifier from the job
    table. *)
Theorem job_table_single_live_trigger (h : Host) (active : option Call) :
  serial parse_err h active →
  single_trigger h
  ∧ (active = None →
     (∀ f task,
        AddTask_steps parse_err 6 f task AtLookup h
        = (AtReturn, exec (AddTask parse_err f task) h)
        ∧ live_triggers (TaskID task) (exec (AddTask parse_err f task) h) =
          match parse_err (ScheduleCron task) with
          | Some _ => []
          | None => [{| ID := wrap64 (nextID (cron (manager h)) + 1);
                        Spec := ScheduleCron task; Job := task |}]
          end)
     ∧ (∀ f taskID,
          live_triggers taskID (exec (RemoveTask f taskID) h) = []
          ∧ entries (manager (exec (RemoveTask f taskID) h)) !! taskID = None)).
Proof.
  intros Hs. pose proof (serial_between h active Hs) as Hb.
  split.
  - destruct active as [c|]; [by apply (between_single c)|by destruct Hb].
  - intros ->. destruct Hb as [Ht _]. split.
    + intros f task. split; [apply AddTask_in_steps|].
      by apply AddTask_live_triggers.
    + intros f taskID. by apply RemoveTask_live_triggers.
Qed.

End Manager.

Lemma job_table_single_live_trigger_witness :
  single_trigger
    (after_step accept_all (begin_call no_faults task1)
       (exec (AddTask accept_all no_faults task1) host12)).
Proof.
  apply (job_table_single_live_trigger accept_all _
           (Some (moved accept_all (begin_call no_faults task1)
                    (exec (AddTask accept_all no_faults task1) host12)))).
  apply serial_step; [|discriminate].
  apply serial_begin.
  apply (serial_whole accept_all host12); [apply serial_New|apply call_AddTask].
Defined.

(** C8, as stated, fails.  Two requests that configure task 1 are served
    at the same time on a fresh manager, the two calls of [AddTask] taking
    their statements in turn: both find the job table empty, both
    register a trigger, and when both have returned the engine holds two
    live triggers for task 1, of which the table records the second. *)
Lemma overlapping_calls_leave_two_triggers :
  let st := run_moves accept_all two_requests (New empty_config "", []) in
  overlapping accept_all st.1 st.2
  ∧ call_at <$> st.2 = [AtReturn; AtReturn]
  ∧ ID <$> live_triggers 1 st.1 = [1%Z; 2%Z]
  ∧ entries (manager st.1) !! 1%Z = Some 2%Z
  ∧ ¬ single_trigger st.1.
Proof.
  split; [|split; [|split; [|split]]].
  - unfold run_moves, two_requests.
    assert (Hgen : ∀ ms st, overlapping accept_all st.1 st.2 →
      overlapping accept_all (foldl (fun st m => move accept_all m st) st ms).1
        (foldl (fun st m => move accept_all m st) st ms).2).
    { induction ms as [|m ms IH]; intros st Hst; [done|].
      simpl. apply IH. destruct st as [h calls]. by apply over_move. }
    apply Hgen. simpl. apply over_New.
  - vm_compute. reflexivity.
  - vm_compute. reflexivity.
  - vm_compute. reflexivity.
  - intros Hs. specialize (Hs 1%Z). vm_compute in Hs. lia.
Qed.

(** C4. The marker of task 1 is a substring of the line of task 12:
    adding task 1 (twice in succession) to a crontab that holds the line
    of task 12 removes that line, although the identifiers differ. *)
Theorem updateSystemCron_marker_prefix_collision :
  TaskID task1 ≠ 12%Z
  ∧ SplitByte LF (crontab host12) = [line12; ""]
  ∧ Contains line12 (marker (TaskID task1)) = true
  ∧ SplitByte LF
      (crontab (exec (AddTask accept_all no_faults task1)
                  (exec (AddTask accept_all no_faults task1) host12)))
    = [""; ""; "30 4 * * * /usr/bin/backup-server-agent --task-id 1"; ""].
Proof. repeat split; [discriminate | vm_compute; reflexivity..]. Qed.

End CronProps.

(** * Properties of the file walk *)
Module FsProps.
Import Fs.

Lemma wrap64_small (z : Z) : (- 2 ^ 63 ≤ z < 2 ^ 63)%Z → wrap64 z = z.
Proof.
  intros Hz. unfold wrap64.
  rewrite Z.mod_small by lia. lia.
Qed.

(** Induction on trees, with the hypothesis for every entry of a directory. *)
Lemma Node_forall_ind (P : Node → Prop) :
  (∀ err, P (Missing err)) →
  (∀ regular size, P (File regular size)) →
  (∀ read_err children,
     Forall (fun nc => P nc.2) children → P (Dir read_err children)) →
  ∀ n, P n.
Proof.
  intros HM HF HD. fix IH 1.
  intros [err|regular size|read_err children]; [apply HM|apply HF|].
  apply HD. induction children as [|[name c] cs IHcs]; constructor.
  - apply IH.
  - apply IHcs.
Qed.

(** The walk of [countFiles] returns no error and adds the number of
    reachable regular files to the counter. *)
Lemma Walk_count_regular (n : Node) :
  ∀ rel (c : Z),
    (0 ≤ c)%Z → (c + Z.of_nat (regular_files n) < 2 ^ 63)%Z →
    Walk count_regular rel n c = (None, (c + Z.of_nat (regular_files n))%Z).
Proof.
  induction n as [err|regular size|read_err children IH] using Node_forall_ind;
    intros rel c Hc Hb.
  - simpl. unfold ret. f_equal. lia.
  - simpl in *. destruct regular; simpl.
    + unfold bind, modify, ret. f_equal. apply wrap64_small. lia.
    + unfold ret. f_equal. lia.
  - simpl in *. unfold bind at 1.
    destruct read_err as [e|].
    + simpl. unfold ret. f_equal. lia.
    + change (count_regular rel (Some info_of_dir) None c)
        with (@None string, c).
      cbv beta iota.
      revert c Hc Hb. induction IH as [|[name ch] cs Hch _ IHcs]; intros c Hc Hb.
      * unfold ret. f_equal. lia.
      * simpl in Hch. unfold bind at 1.
        rewrite Hch by lia. rewrite IHcs by lia. f_equal. lia.
Qed.

Lemma regular_files_skips_missing name err cs1 cs2 :
  regular_files (Dir None (cs1 ++ (name, Missing err) :: cs2)) =
  regular_files (Dir None (cs1 ++ cs2)).
Proof.
  simpl. induction cs1 as [|[n1 c1] cs1 IH]; simpl; [done|]. by rewrite IH.
Qed.

(** C10. [countFiles] is a total function to an integer (it has no error
    result, and its walk never ends on an error); the count is not
    negative, it is the number of regular files the walk can reach, it is 0
    for a path that does not exist, and an entry that cannot be examined
    adds nothing to it. *)
Theorem countFiles_total_never_fails (tree : Node) :
  (Z.of_nat (regular_files tree) < 2 ^ 63)%Z →
  eval (Walk count_regular [] tree) 0%Z = None
  ∧ (0 ≤ countFiles tree)%Z
  ∧ countFiles tree = Z.of_nat (regular_files tree)
  ∧ (∀ err, countFiles (Missing err) = 0%Z)
  ∧ (∀ name err cs1 cs2,
       (Z.of_nat (regular_files (Dir None (cs1 ++ cs2))) < 2 ^ 63)%Z →
       countFiles (Dir None (cs1 ++ (name, Missing err) :: cs2)) =
       countFiles (Dir None (cs1 ++ cs2))).
Proof.
  intros Hb.
  assert (Hc : ∀ t, (Z.of_nat (regular_files t) < 2 ^ 63)%Z →
               Walk count_regular [] t 0%Z = (None, Z.of_nat (regular_files t))).
  { intros t Ht. rewrite Walk_count_regular by lia. f_equal. }
  unfold countFiles, eval, exec. rewrite (Hc tree Hb). cbv [fst snd].
  split; [done|]. split; [lia|]. split; [done|]. split; [done|].
  intros name err cs1 cs2 Hcs.
  rewrite (Hc (Dir None (cs1 ++ cs2))) by done.
  rewrite (Hc (Dir None (cs1 ++ (name, Missing err) :: cs2)))
    by (by rewrite regular_files_skips_missing).
  cbv [snd]. by rewrite regular_files_skips_missing.
Qed.

Lemma countFiles_total_never_fails_witness : countFiles sample_tree = 2%Z.
Proof.
  apply (countFiles_total_never_fails sample_tree). vm_compute. reflexivity.
Defined.

End FsProps.

(** * Properties of the ledger *)
Module StorageProps.
Import Sys Storage.

Lemma mark_uploaded_length name s3 d rs :
  length (mark_uploaded name s3 d rs) = length rs.
Proof.
  induction rs as [|r rs IH]; simpl; [done|].
  case_decide; simpl; by rewrite ?IH.
Qed.

Lemma mark_uploaded_no_match name s3 d rs :
  first_match name rs = None → mark_uploaded name s3 d rs = rs.
Proof.
  induction rs as [|r rs IH]; simpl; [done|].
  case_decide; [done|]. intros Hn.
  destruct (first_match name rs); [done|]. by rewrite IH.
Qed.

Lemma mark_uploaded_match name s3 d rs i :
  first_match name rs = Some i →
  ∃ r, rs !! i = Some r ∧ ArchiveName r = name
       ∧ (∀ j r', j < i → rs !! j = Some r' → ArchiveName r' ≠ name)
       ∧ mark_uploaded name s3 d rs !! i = Some (uploaded s3 d r)
       ∧ (∀ j, j ≠ i → mark_uploaded name s3 d rs !! j = rs !! j).
Proof.
  revert i. induction rs as [|r rs IH]; simpl; intros i Hi; [done|].
  case_decide as Hr.
  - injection Hi as <-. exists r. repeat split; [done| |].
    + intros j r' Hj. lia.
    + intros [|j] Hj; [done|]. done.
  - destruct (first_match name rs) as [k|] eqn:Hk; [|done].
    injection Hi as <-. destruct (IH k eq_refl) as (r0 & H1 & H2 & H3 & H4 & H5).
    exists r0. repeat split; [done..| | |].
    + intros [|j] r' Hj Hl; simpl in Hl.
      * by injection Hl as <-.
      * apply (H3 j); [lia|done].
    + done.
    + intros [|j] Hj; [done|]. simpl. apply H5. lia.
Qed.

(** C9. When [os.ReadFile] does not fail on a ledger file that exists:
    [UpdateBackupRecord] writes the records of the ledger file back with
    at most the first record of the archive name changed, and of that
    record only the destination path, the upload time and the status; the
    other records and fields are written back as they stand in the file.
    When no record has the name the records of the file are written back
    unchanged.  The call returns what the write returns: nil, with the
    file holding these records, when the write succeeds, whether or not
    a record matched.  When the file does not exist an empty list is
    written.  When the file cannot be decoded the call returns the
    decoder's error and writes nothing. *)
Theorem UpdateBackupRecord_changes_first_match_only io name s3 d w :
  read_err io = None →
  match ledger w with
  | Stored records =>
      let written := mark_uploaded name s3 d records in
      UpdateBackupRecord io name s3 d w = WriteFile io written w
      ∧ length written = length records
      ∧ (∀ r, SourcePath (uploaded s3 d r) = SourcePath r
              ∧ ArchiveName (uploaded s3 d r) = ArchiveName r
              ∧ BackupDate (uploaded s3 d r) = BackupDate r
              ∧ ArchiveSizeMB (uploaded s3 d r) = ArchiveSizeMB r
              ∧ S3Path (uploaded s3 d r) = s3
              ∧ S3UploadDate (uploaded s3 d r) = Some d
              ∧ Status (uploaded s3 d r) = "success")
      ∧ match first_match name records with
        | Some i =>
            ∃ r, records !! i = Some r ∧ ArchiveName r = name
                 ∧ (∀ j r', j < i → records !! j = Some r' →
                            ArchiveName r' ≠ name)
                 ∧ written !! i = Some (uploaded s3 d r)
                 ∧ (∀ j, j ≠ i → written !! j = records !! j)
        | None => written = records
        end
      ∧ eval (UpdateBackupRecord io name s3 d) w = fst <$> write_err io
      ∧ (write_err io = None →
         ledger (exec (UpdateBackupRecord io name s3 d) w) = Stored written)
  | Absent =>
      UpdateBackupRecord io name s3 d w = WriteFile io [] w
      ∧ eval (UpdateBackupRecord io name s3 d) w = fst <$> write_err io
      ∧ (write_err io = None →
         ledger (exec (UpdateBackupRecord io name s3 d) w) = Stored [])
  | Garbled decoded e =>
      UpdateBackupRecord io name s3 d w = (Some e, w)
  end.
Proof.
  intros Hread.
  assert (Hwrite : ∀ written,
    eval (WriteFile io written) w = fst <$> write_err io
    ∧ (write_err io = None →
       ledger (exec (WriteFile io written) w) = Stored written)).
  { intros written. unfold eval, exec, WriteFile, bind, emit, modify, ret.
    destruct (write_err io) as [[err []]|]; simpl; by split. }
  assert (Hrun : UpdateBackupRecord io name s3 d w
                 = match ledger w with
                   | Absent => WriteFile io [] w
                   | Stored records =>
                       WriteFile io (mark_uploaded name s3 d records) w
                   | Garbled _ e => (Some e, w)
                   end).
  { unfold UpdateBackupRecord, GetBackupRecords, read_records, bind, gets, ret.
    rewrite Hread. by destruct (ledger w). }
  unfold eval, exec in *. rewrite Hrun.
  destruct (ledger w) as [|records|decoded e]; simpl.
  - split; [done|]. apply (Hwrite []).
  - split; [done|]. split; [apply mark_uploaded_length|]. split; [done|].
    split; [|apply (Hwrite (mark_uploaded name s3 d records))].
    destruct (first_match name records) as [i|] eqn:Hi.
    + by apply mark_uploaded_match.
    + by apply mark_uploaded_no_match.
  - done.
Qed.

Lemma UpdateBackupRecord_changes_first_match_only_witness :
  read_err io_ok = None
  ∧ ledger (exec (UpdateBackupRecord io_ok "10.0.0.5_data_5.tar.gz"
                    "s3://backups/10.0.0.5_data_5.tar.gz" 6) two_runs)
    = Stored [monday;
              uploaded "s3://backups/10.0.0.5_data_5.tar.gz" 6 tuesday].
Proof.
  split; [reflexivity|].
  pose proof (UpdateBackupRecord_changes_first_match_only io_ok
                "10.0.0.5_data_5.tar.gz" "s3://backups/10.0.0.5_data_5.tar.gz"
                6 two_runs eq_refl) as H.
  apply H. reflexivity.
Defined.

(** C9, as stated, fails.  The ledger file is cut short, so no record in
    it has the archive name; the call does not rewrite the ledger and
    does not report success: it returns the decoder's error and leaves
    the file as it is. *)
Lemma undecodable_ledger_is_not_rewritten :
  first_match "10.0.0.5_data_5.tar.gz"
    (eval (GetBackupRecords io_ok) cut_short).1 = None
  ∧ UpdateBackupRecord io_ok "10.0.0.5_data_5.tar.gz"
      "s3://backups/10.0.0.5_data_5.tar.gz" 6 cut_short
    = (Some "unexpected end of JSON input", cut_short)
  ∧ eval (UpdateBackupRecord io_ok "10.0.0.5_data_5.tar.gz"
            "s3://backups/10.0.0.5_data_5.tar.gz" 6) cut_short ≠ None
  ∧ EvWriteLedger ∉ trace (exec (UpdateBackupRecord io_ok "10.0.0.5_data_5.tar.gz"
            "s3://backups/10.0.0.5_data_5.tar.gz" 6) cut_short).
Proof.
  split; [reflexivity|]. split; [reflexivity|]. split; [discriminate|].
  simpl. apply not_elem_of_nil.
Qed.

End StorageProps.

(** * Frame rules for the pipeline *)
Module FrameProps.
Import Sys Storage Backup Frame.

Section Rules.
Context (R : World → World → Prop) `{!Preorder R}.

Lemma keeps_ret {A} (a : A) : keeps R (ret a).
Proof. intros w. apply frame_refl. Qed.

Lemma keeps_gets {A} (f : World → A) : keeps R (gets f).
Proof. intros w. apply frame_refl. Qed.

Lemma keeps_bind {A B} (m : M World A) (k : A → M World B) :
  keeps R m → (∀ a, keeps R (k a)) → keeps R (bind m k).
Proof.
  intros Hm Hk w. unfold exec, bind.
  specialize (Hm w). unfold exec in Hm.
  destruct (m w) as [a w1]. simpl in Hm.
  eapply frame_trans; [exact Hm|]. apply (Hk a w1).
Qed.

Lemma keeps_when (b : bool) (m : M World unit) :
  keeps R m → keeps R (when b m).
Proof. intros Hm. destruct b; [done|apply keeps_ret]. Qed.

Lemma keeps_for_each {A} (xs : list A) (body : A → M World unit) :
  (∀ x, keeps R (body x)) → keeps R (for_each xs body).
Proof.
  intros Hb. induction xs as [|x xs IH]; simpl.
  - apply keeps_ret.
  - apply keeps_bind; [apply Hb|intros _; apply IH].
Qed.

Lemma keeps_Walk (fn : Fs.WalkFunc World) :
  (∀ rel info err, keeps R (fn rel info err)) →
  ∀ n rel, keeps R (Fs.Walk fn rel n).
Proof.
  intros Hfn n.
  induction n as [err|regular size|read_err children IH]
    using FsProps.Node_forall_ind; intros rel; simpl.
  - apply Hfn.
  - apply Hfn.
  - apply keeps_bind; [apply Hfn|]. intros err1.
    destruct read_err; [apply keeps_ret|].
    destruct err1; [apply keeps_ret|].
    induction IH as [|[name c] cs Hc _ IHcs]; [apply keeps_ret|].
    apply keeps_bind; [apply Hc|]. intros [e|]; [apply keeps_ret|apply IHcs].
Qed.

End Rules.

#[global] Instance quiet_preorder Q : Preorder (quiet Q).
Proof.
  split.
  - intros w. exists []. by rewrite app_nil_r.
  - intros a b c (t1 & H1 & F1) (t2 & H2 & F2). exists (t1 ++ t2).
    rewrite H2, H1, app_assoc. split; [done|]. by apply Forall_app.
Qed.

#[global] Instance local_kept_preorder : Preorder local_kept.
Proof.
  split.
  - by intros w.
  - intros a b c [H1 H2] [H3 H4]. split; congruence.
Qed.

Lemma quiet_emit Q e : Q e → keeps (quiet Q) (emit e).
Proof. intros He w. exists [e]. split; [done|]. by constructor. Qed.

Lemma quiet_logf Q lvl format : Q (EvLog lvl format) → keeps (quiet Q) (logf lvl format).
Proof. apply quiet_emit. Qed.

Lemma quiet_modify Q (f : World → World) :
  (∀ w, trace (f w) = trace w) → keeps (quiet Q) (modify f).
Proof.
  intros Hf w. exists []. unfold exec, modify. simpl.
  by rewrite Hf, app_nil_r.
Qed.

Lemma quiet_time_Now Q : keeps (quiet Q) time_Now.
Proof. intros w. exists []. simpl. by rewrite app_nil_r. Qed.

Lemma local_emit e : keeps local_kept (emit e).
Proof. by intros w. Qed.

Lemma local_logf lvl format : keeps local_kept (logf lvl format).
Proof. by intros w. Qed.

Lemma local_time_Now : keeps local_kept time_Now.
Proof. by intros w. Qed.

Lemma local_modify_buckets (g : World → gmap string (gmap string Z)) :
  keeps local_kept (modify (fun w => with_buckets (g w) w)).
Proof. by intros w. Qed.

Lemma quiet_weaken (Q Q' : Event → Prop) {A} (m : M World A) :
  (∀ e, Q e → Q' e) → keeps (quiet Q) m → keeps (quiet Q') m.
Proof.
  intros HQ Hm w. destruct (Hm w) as (t & Ht & Hf).
  exists t. split; [done|]. eapply Forall_impl; eauto.
Qed.

(** One step of a frame proof: a rule of the monad, or a case analysis on
    what the computation branches on. *)
Ltac frame_step :=
  first
    [ apply keeps_ret; apply _
    | apply keeps_gets; apply _
    | apply keeps_bind; [apply _| |intros ?]
    | apply keeps_when; [apply _|]
    | apply keeps_for_each; [apply _|intros ?]
    | apply keeps_Walk; [apply _|intros ? ? ?]
    | match goal with
      | |- keeps _ (match ?x with _ => _ end) => destruct x
      end ].

Ltac line_ok :=
  first [left; reflexivity|right; apply list_elem_of_In; simpl; tauto].

Ltac event_ok :=
  match goal with
  | H : ∀ lvl format, pipeline_line lvl format → ?Q (EvLog lvl format)
    |- ?Q (EvLog _ _) => apply H; line_ok
  | H : ∀ legacy, ?Q (EvRun _) |- ?Q (EvRun _) => apply H
  | H : ∀ e, _ → ?Q e |- ?Q _ => apply H; exact I
  | |- any_event _ => exact I
  end.

Ltac quiet_go :=
  repeat first
    [ solve [auto 2]
    | apply quiet_logf; event_ok
    | apply quiet_emit; event_ok
    | apply quiet_time_Now
    | apply quiet_modify; reflexivity
    | frame_step ].

Section Quiet.
Variable Q : Event → Prop.
Hypothesis Hlog : ∀ lvl format, pipeline_line lvl format → Q (EvLog lvl format).

Section Store.
Hypothesis Hstore : ∀ e, store_event e → Q e.

Lemma quiet_ensure_bucket p task : keeps (quiet Q) (ensure_bucket p task).
Proof. unfold ensure_bucket, BucketExists, MakeBucket. quiet_go. Qed.

Lemma quiet_FPutObject p bucket key path :
  keeps (quiet Q) (FPutObject p bucket key path).
Proof. unfold FPutObject. quiet_go. Qed.

Lemma quiet_uploadToS3 p task path : keeps (quiet Q) (uploadToS3 p task path).
Proof.
  pose proof quiet_ensure_bucket. pose proof quiet_FPutObject.
  unfold uploadToS3. quiet_go.
Qed.

Lemma quiet_uploadDirectoryToS3 p task path :
  keeps (quiet Q) (uploadDirectoryToS3 p task path).
Proof.
  pose proof quiet_ensure_bucket. pose proof quiet_FPutObject.
  unfold uploadDirectoryToS3, upload_entry. quiet_go.
Qed.

End Store.

(** The cleanup only logs, lists and removes objects. *)
Lemma quiet_cleanupOldBackups p task :
  (∀ e, object_event e → Q e) →
  keeps (quiet Q) (cleanupOldBackups p task).
Proof.
  intros Hobject.
  unfold cleanupOldBackups, sweep_object, ListObjects, RemoveObject. quiet_go.
Qed.

Section Local.
Hypothesis Hlocal : ∀ e, local_event e → Q e.

Lemma quiet_WriteFile io records : keeps (quiet Q) (WriteFile io records).
Proof. unfold WriteFile. quiet_go. Qed.

Lemma quiet_SaveBackupRecord io record :
  keeps (quiet Q) (SaveBackupRecord io record).
Proof. pose proof quiet_WriteFile. unfold SaveBackupRecord. quiet_go. Qed.

Lemma quiet_GetBackupRecords io : keeps (quiet Q) (GetBackupRecords io).
Proof. unfold GetBackupRecords. quiet_go. Qed.

Lemma quiet_UpdateBackupRecord io name s3 d :
  keeps (quiet Q) (UpdateBackupRecord io name s3 d).
Proof.
  pose proof quiet_WriteFile. pose proof quiet_GetBackupRecords.
  unfold UpdateBackupRecord. quiet_go.
Qed.

Lemma quiet_os_Remove p path : keeps (quiet Q) (os_Remove p path).
Proof. unfold os_Remove. quiet_go. Qed.

Lemma quiet_createArchive p src fmt ip :
  keeps (quiet Q) (createArchive p src fmt ip).
Proof. unfold createArchive, archive_entry, write_file. quiet_go. Qed.

Lemma quiet_archive_step p task ip result :
  keeps (quiet Q) (archive_step p task ip result).
Proof.
  pose proof quiet_createArchive. pose proof quiet_SaveBackupRecord.
  pose proof quiet_GetBackupRecords.
  unfold archive_step, os_Stat. quiet_go.
Qed.

Hypothesis Hstore : ∀ e, store_event e → Q e.

Lemma quiet_upload_step p task result name :
  keeps (quiet Q) (upload_step p task result name).
Proof.
  pose proof (quiet_uploadToS3 Hstore).
  pose proof (quiet_uploadDirectoryToS3 Hstore).
  pose proof quiet_UpdateBackupRecord. pose proof quiet_os_Remove.
  unfold upload_step. quiet_go.
Qed.

Lemma quiet_cleanup_step p task : keeps (quiet Q) (cleanup_step p task).
Proof.
  assert (Hobject : ∀ e, object_event e → Q e)
    by (intros [] He; solve [destruct He|by apply Hstore]).
  pose proof (fun p task => quiet_cleanupOldBackups p task Hobject).
  unfold cleanup_step. quiet_go.
Qed.

(** The body of [ExecuteBackup] logs, touches local files and the ledger
    and talks to the object store: it runs no command. *)
Lemma quiet_run_backup p task ip : keeps (quiet Q) (run_backup p task ip).
Proof.
  pose proof quiet_archive_step. pose proof quiet_upload_step.
  pose proof quiet_cleanup_step.
  unfold run_backup. quiet_go.
Qed.

End Local.

Lemma quiet_compose_down p task :
  (∀ legacy, Q (EvRun (compose_argv legacy task ["down"]))) →
  keeps (quiet Q) (compose_down p task).
Proof. intros Hrun. unfold compose_down, Run. quiet_go. Qed.

Lemma quiet_compose_up p task :
  (∀ legacy, Q (EvRun (compose_argv legacy task ["up"; "-d"]))) →
  keeps (quiet Q) (compose_up p task).
Proof. intros Hrun. unfold compose_up, Run. quiet_go. Qed.

End Quiet.

Ltac local_go :=
  repeat first
    [ solve [auto 2]
    | apply local_logf
    | apply local_emit
    | apply local_time_Now
    | apply local_modify_buckets
    | frame_step ].

Lemma local_ensure_bucket p task : keeps local_kept (ensure_bucket p task).
Proof. unfold ensure_bucket, BucketExists, MakeBucket. local_go. Qed.

Lemma local_FPutObject p bucket key path :
  keeps local_kept (FPutObject p bucket key path).
Proof. unfold FPutObject. local_go. Qed.

Lemma local_uploadToS3 p task path : keeps local_kept (uploadToS3 p task path).
Proof.
  pose proof local_ensure_bucket. pose proof local_FPutObject.
  unfold uploadToS3. local_go.
Qed.

Lemma local_uploadDirectoryToS3 p task path :
  keeps local_kept (uploadDirectoryToS3 p task path).
Proof.
  pose proof local_ensure_bucket. pose proof local_FPutObject.
  unfold uploadDirectoryToS3, upload_entry. local_go.
Qed.

Lemma local_cleanupOldBackups p task :
  keeps local_kept (cleanupOldBackups p task).
Proof.
  unfold cleanupOldBackups, sweep_object, ListObjects, RemoveObject. local_go.
Qed.

Lemma local_compose_down p task : keeps local_kept (compose_down p task).
Proof. unfold compose_down, Run. local_go. Qed.

Lemma local_compose_up p task : keeps local_kept (compose_up p task).
Proof. unfold compose_up, Run. local_go. Qed.

End FrameProps.

(** * Properties of the pipeline *)
Module BackupProps.
Import Sys Storage Backup Frame FrameProps.

(** [ExecuteBackup], step by step. *)
Lemma ExecuteBackup_unfold p task ip w :
  ExecuteBackup p task ip w =
  let (a, w1) := until_upload p task ip w in
  match a with
  | inl returned =>
      (returned, exec (when (guarded task) (compose_up p task)) w1)
  | inr (result, name) =>
      let (u, w2) := upload_step p task result name w1 in
      match u with
      | inl returned =>
          (returned, exec (when (guarded task) (compose_up p task)) w2)
      | inr result' =>
          ((with_Success result', None),
           exec (when (guarded task) (compose_up p task))
             (exec (cleanup_step p task) w2))
      end
  end.
Proof.
  unfold ExecuteBackup, until_upload, run_backup, bind, exec, ret.
  destruct (when (guarded task) (compose_down p task) w) as [[] w0].
  destruct (archive_step p task ip empty_result w0) as [[returned|[result name]] w1].
  - by destruct (when (guarded task) (compose_up p task) w1) as [[] w3].
  - destruct (upload_step p task result name w1) as [[returned|result'] w2];
      cbv beta iota.
    + by destruct (when (guarded task) (compose_up p task) w2) as [[] w3].
    + destruct (cleanup_step p task w2) as [[] w3]. cbn [snd].
      by destruct (when (guarded task) (compose_up p task) w3) as [[] w4].
Qed.

#[global] Instance same_world_preorder : Preorder (fun w w' : World => w' = w).
Proof. split; [done|]. intros a b c -> ->. done. Qed.

(** The walk of [createArchive] changes nothing the model records. *)
Lemma Walk_archive_entry p rel n w :
  exec (Fs.Walk (archive_entry p) rel n) w = w.
Proof.
  apply (keeps_Walk (fun w w' : World => w' = w)).
  intros rel' info err w'. unfold archive_entry. by destruct err.
Qed.

(** The archive path is rooted, whatever the archive name. *)
Lemma archive_path_rooted name :
  ∃ body, filepath_Join ["/tmp"; name] = "/" +:+ body.
Proof.
  unfold filepath_Join. rewrite filter_cons_True by done.
  assert (∀ parts, ∃ body, Clean (Join ("/tmp" :: parts) "/") = "/" +:+ body)
    as Hc.
  { intros parts. unfold Clean.
    assert (HasPrefix (Join ("/tmp" :: parts) "/") "/" = true) as ->
      by (by destruct parts).
    by eexists. }
  destruct (filter _ [name]); apply Hc.
Qed.

Lemma archive_path_nonempty name : filepath_Join ["/tmp"; name] ≠ "".
Proof. destruct (archive_path_rooted name) as [body ->]. done. Qed.

(** What holds when the archive step has built an archive. *)
Lemma archive_step_built p task ip r0 w0 result name w1 :
  CreateArchive task = true →
  archive_step p task ip r0 w0 = (inr (result, name), w1) →
  ArchivePath result = filepath_Join ["/tmp"; name]
  ∧ files w1 !! filepath_Join ["/tmp"; name] = Some (archive_size p)
  ∧ (mkdir_err (save_io p) = None → write_err (save_io p) = None →
     ∃ earlier now,
       ledger w1 = Stored (earlier ++ [creating_record task name now])).
Proof.
  intros Hc. unfold archive_step. rewrite Hc.
  unfold createArchive, bind at 1 2 3.
  unfold time_Now at 1. unfold logf at 1, emit at 1, modify at 1.
  destruct (create_err p) as [e|]; [discriminate|].
  unfold bind at 1. unfold write_file at 1, modify at 1.
  unfold bind at 1.
  match goal with
  | |- context [Fs.Walk (archive_entry p) [] (source p) ?w] =>
      pose proof (Walk_archive_entry p [] (source p) w) as Hw;
      unfold exec in Hw;
      destruct (Fs.Walk (archive_entry p) [] (source p) w) as [err w']
  end.
  simpl in Hw. subst w'.
  unfold bind at 1, write_file at 1, modify at 1.
  destruct err as [e|]; [discriminate|].
  unfold ret at 1. cbv beta iota.
  unfold bind at 1, time_Now at 1.
  unfold bind at 1, SaveBackupRecord, WriteFile, bind, gets, emit, modify, ret,
    os_Stat, GetBackupRecords, logf, emit, modify, bind, gets, ret.
  simpl.
  destruct (mkdir_err (save_io p)) as [em|]; simpl.
  - rewrite lookup_insert_eq. destruct (stat_err p); simpl.
    + intros [= <- <- <-]. simpl. rewrite lookup_insert_eq. by repeat split.
    + destruct (read_records (backfill_io p) (ledger w0)) as [[? [?|]]|];
        intros [= <- <- <-]; simpl; rewrite lookup_insert_eq; by repeat split.
  - destruct (write_err (save_io p)) as [[ew [| |]]|]; simpl;
      rewrite ?lookup_insert_eq; destruct (stat_err p); simpl;
      repeat match goal with
             | |- context [read_records ?io ?l] =>
                 destruct (read_records io l) as [[? [?|]]|]; simpl
             end;
      intros [= <- <- <-]; simpl; rewrite ?lookup_insert_eq;
      (split; [done|]); (split; [done|]); try done;
      intros _ _; first [by eexists [], _|by eexists _, _].
Qed.

Lemma until_upload_built p task ip w result name w1 :
  CreateArchive task = true →
  until_upload p task ip w = (inr (result, name), w1) →
  ArchivePath result = filepath_Join ["/tmp"; name]
  ∧ files w1 !! filepath_Join ["/tmp"; name] = Some (archive_size p)
  ∧ (mkdir_err (save_io p) = None → write_err (save_io p) = None →
     ∃ earlier now,
       ledger w1 = Stored (earlier ++ [creating_record task name now])).
Proof.
  intros Hc. unfold until_upload, bind.
  destruct (when (guarded task) (compose_down p task) w) as [[] w0].
  by apply archive_step_built.
Qed.

(** C1. When archiving and a destination are configured, the archive has
    been built and its upload fails with [e], [ExecuteBackup] returns [e]
    (with the result it had, the error text filled in); from the start of
    the upload to the end of the run nothing writes the ledger or removes
    a local file, so the archive file is still there and the ledger is as
    the archive step left it: when the record was saved, it is the last
    record and its status is "creating". *)
Theorem failed_upload_keeps_archive_and_ledger
    p task ip w result name w1 s e :
  CreateArchive task = true →
  S3Endpoint task ≠ "" →
  S3Bucket task ≠ "" →
  until_upload p task ip w = (inr (result, name), w1) →
  eval (uploadToS3 p task (ArchivePath result)) w1 = (s, Some e) →
  let w' := exec (ExecuteBackup p task ip) w in
  eval (ExecuteBackup p task ip) w
  = (with_Error ("Failed to upload to S3: " +:+ e) result, Some e)
  ∧ files w' = files w1
  ∧ files w' !! ArchivePath result = Some (archive_size p)
  ∧ ledger w' = ledger w1
  ∧ (∃ t, trace w' = trace w1 ++ t ∧ Forall (fun ev => ¬ local_event ev) t)
  ∧ (mkdir_err (save_io p) = None → write_err (save_io p) = None →
     ∃ earlier record,
       ledger w' = Stored (earlier ++ [record])
       ∧ ArchiveName record = name ∧ Status record = "creating").
Proof.
  intros Hc He Hb Hu Hup w'.
  destruct (until_upload_built p task ip w result name w1 Hc Hu)
    as (Hpath & Hfile & Hsaved).
  (* the run, from the upload on *)
  assert (Hrun : ExecuteBackup p task ip w
                 = (with_Error ("Failed to upload to S3: " +:+ e) result, Some e,
                    exec (when (guarded task) (compose_up p task))
                      (exec (uploadToS3 p task (ArchivePath result)) w1))).
  { rewrite ExecuteBackup_unfold, Hu. unfold upload_step.
    rewrite !bool_decide_eq_true_2
      by (done || (rewrite Hpath; apply archive_path_nonempty)).
    simpl. unfold bind at 1. unfold eval, exec in *.
    destruct (uploadToS3 p task (ArchivePath result) w1) as [[s' e'] w2].
    simpl in Hup. injection Hup as -> ->. done. }
  assert (Hlocal : local_kept w1 w').
  { subst w'. unfold exec at 1. rewrite Hrun. simpl.
    eapply frame_trans; [apply local_uploadToS3|].
    apply keeps_when; [apply _|apply local_compose_up]. }
  assert (Hquiet : quiet (fun ev => ¬ local_event ev) w1 w').
  { subst w'. unfold exec at 1. rewrite Hrun. simpl.
    eapply frame_trans.
    - apply quiet_uploadToS3; [by intros ? ? _ []|].
      intros [] Hs Hl; first [solve [destruct Hl]|solve [destruct Hs]].
    - apply keeps_when; [apply _|].
      apply quiet_compose_up; [by intros ? ? _ []|by intros ? []]. }
  destruct Hlocal as [Hl Hf].
  split; [unfold eval; by rewrite Hrun|].
  split; [done|]. split; [by rewrite Hf, Hpath|]. split; [done|].
  split; [done|].
  intros Hm Hw. destruct (Hsaved Hm Hw) as (earlier & now & Hs).
  exists earlier, (creating_record task name now). by rewrite Hl.
Qed.

Lemma failed_upload_keeps_archive_and_ledger_witness :
  files (exec (ExecuteBackup flaky nightly "10.0.0.5") fresh)
    !! "/tmp/10.0.0.5_data_1700000000.tar.gz" = Some 5242880%Z
  ∧ ledger (exec (ExecuteBackup flaky nightly "10.0.0.5") fresh)
    = Stored [creating_record nightly "10.0.0.5_data_1700000000.tar.gz"
                1700000001].
Proof.
  assert (Hu : ∃ result w1,
             until_upload flaky nightly "10.0.0.5" fresh
             = (inr (result, "10.0.0.5_data_1700000000.tar.gz"), w1)
             ∧ ArchivePath result = "/tmp/10.0.0.5_data_1700000000.tar.gz"
             ∧ ledger w1
               = Stored [creating_record nightly
                           "10.0.0.5_data_1700000000.tar.gz" 1700000001]
             ∧ eval (uploadToS3 flaky nightly (ArchivePath result)) w1
               = ("", Some "failed to upload file: connection reset by peer")).
  { eexists _, _. split; [vm_compute; reflexivity|].
    split; [reflexivity|]. split; [reflexivity|]. vm_compute. reflexivity. }
  destruct Hu as (result & w1 & Hu & Hpath & Hledger & Hup).
  destruct (failed_upload_keeps_archive_and_ledger flaky nightly "10.0.0.5"
              fresh result _ w1 _ _ eq_refl
              ltac:(discriminate) ltac:(discriminate) Hu Hup)
    as (_ & _ & Hfile & Hl & _).
  rewrite Hpath in Hfile. by rewrite Hl, Hledger.
Defined.

Lemma emitted_quiet {A} Q (m : M World A) w :
  keeps (quiet Q) m →
  trace (exec m w) = trace w ++ emitted m w ∧ Forall Q (emitted m w).
Proof.
  intros Hm. destruct (Hm w) as (t & Ht & Hq). unfold emitted.
  rewrite Ht, drop_app_length. done.
Qed.






(** The bucket check at the head of both uploads: the existence check,
    then the creation when the check succeeded and found no bucket. *)
Lemma ensure_bucket_trace p task w :
  ∃ mk,
    trace (exec (ensure_bucket p task) w)
    = trace w ++ EvBucketExists (S3Bucket task) :: mk
    ∧ (mk = [] ∨ mk = [EvMakeBucket (S3Bucket task) (S3Region task)])
    ∧ (eval (ensure_bucket p task) w = None →
       buckets w !! S3Bucket task = None →
       mk = [EvMakeBucket (S3Bucket task) (S3Region task)]).
Proof.
  unfold ensure_bucket, BucketExists, MakeBucket, eval, exec, bind, emit,
    modify, gets, ret. simpl.
  destruct (bucket_exists_err p); simpl.
  - exists []. split; [done|]. split; [by left|done].
  - destruct (buckets w !! S3Bucket task) as [objs|] eqn:Hb; simpl.
    + exists []. split; [done|]. split; [by left|done].
    + exists [EvMakeBucket (S3Bucket task) (S3Region task)].
      destruct (make_bucket_err p); rewrite ?Hb; simpl; rewrite <- app_assoc;
        (split; [done|]); (split; [by right|done]).
Qed.

Lemma split_after_prefix {A} (P : A → Prop) (l1 l2 before after : list A) e :
  Forall (fun x => ¬ P x) l1 → P e →
  l1 ++ l2 = before ++ e :: after →
  ∃ mid, before = l1 ++ mid.
Proof.
  revert before. induction l1 as [|x l1 IH]; intros before Hl He Heq.
  - by exists before.
  - apply Forall_cons in Hl as [Hx Hl]. destruct before as [|b before]; simpl in *.
    + injection Heq as -> _. done.
    + injection Heq as -> Heq. destruct (IH before Hl He Heq) as [mid ->].
      by exists mid.
Qed.

(** The events of a computation that starts with the bucket check and
    stops when it fails. *)
Lemma after_check_shape {A} p task (K : option string → M World A) w :
  (∀ e w', exec (K (Some e)) w' = w') →
  keeps (quiet any_event) (K None) →
  ∃ t, trace (exec (bind (ensure_bucket p task) K) w) = trace w ++ t
       ∧ checked_shape task (buckets w !! S3Bucket task = None) t.
Proof.
  intros Hfail Hrest.
  destruct (ensure_bucket_trace p task w) as (mk & Ht & Hmk & Habsent).
  unfold exec, eval, bind in *.
  destruct (ensure_bucket p task w) as [[e|] w1]; simpl in *.
  - specialize (Hfail e w1). unfold exec in Hfail. rewrite Hfail, Ht.
    eexists. split; [done|]. right. exists mk, [].
    rewrite app_nil_r. by repeat split.
  - destruct (Hrest w1) as (tail & Htail & _). unfold exec in Htail.
    rewrite Htail, Ht, <- app_assoc. simpl.
    eexists. split; [done|]. right. exists mk, tail.
    repeat split; [done|]. intros _. by apply Habsent.
Qed.

Lemma checked_shape_first task absent line t :
  checked_shape task absent t →
  bucket_checked_first task absent (EvLog INFO line :: t).
Proof.
  intros Hshape before e after Heq He.
  destruct Hshape as [->|(mk & tail & -> & Hmk & Habsent)].
  - destruct before as [|b [|? ?]]; simplify_eq/=. done.
  - assert (Hpre : Forall (fun x => ¬ object_event x)
                     (EvLog INFO line :: EvBucketExists (S3Bucket task) :: mk)).
    { repeat constructor; try by intros [].
      destruct Hmk as [->| ->]; repeat constructor. by intros []. }
    change (EvLog INFO line :: EvBucketExists (S3Bucket task) :: mk ++ tail)
      with ((EvLog INFO line :: EvBucketExists (S3Bucket task) :: mk) ++ tail)
      in Heq.
    destruct (split_after_prefix _ _ _ _ _ _ Hpre He Heq) as [mid ->].
    split.
    + apply elem_of_app. left. apply list_elem_of_In. simpl. tauto.
    + intros Ha.
      assert (Htail : tail ≠ []).
      { intros ->. rewrite app_nil_r in Heq.
        apply (f_equal length) in Heq. rewrite !length_app in Heq.
        simpl in Heq. lia. }
      rewrite (Habsent Htail Ha).
      apply elem_of_app. left. apply list_elem_of_In. simpl. tauto.
Qed.

Lemma upload_checks_bucket_first {A} p task line (failed : string → A)
    (rest : M World A) w :
  keeps (quiet any_event) rest →
  bucket_checked_first task (buckets w !! S3Bucket task = None)
    (emitted
       (logf INFO line ;;
        match minio_New p task with
        | Some err => ret (failed ("failed to create S3 client: " +:+ err))
        | None =>
            let* err := ensure_bucket p task in
            match err with
            | Some e => ret (failed e)
            | None => rest
            end
        end) w).
Proof.
  intros Hrest.
  set (w0 := exec (logf INFO line) w).
  assert (Hshape : ∃ t, emitted
       (logf INFO line ;;
        match minio_New p task with
        | Some err => ret (failed ("failed to create S3 client: " +:+ err))
        | None =>
            let* err := ensure_bucket p task in
            match err with
            | Some e => ret (failed e)
            | None => rest
            end
        end) w = EvLog INFO line :: t
        ∧ checked_shape task (buckets w !! S3Bucket task = None) t).
  { unfold emitted, exec at 1, bind at 1.
    change (logf INFO line w) with (tt, w0). cbv beta iota.
    destruct (minio_New p task) as [err|].
    - exists []. split; [|by left]. simpl.
      by rewrite drop_app_length.
    - edestruct (after_check_shape p task
                   (fun err => match err with
                               | Some e => ret (failed e)
                               | None => rest
                               end) w0) as (t & Ht & Hs); [done|done|].
      exists t. split; [|done]. unfold exec in Ht. rewrite Ht. simpl.
      by rewrite <- app_assoc, drop_app_length. }
  destruct Hshape as (t & -> & Hs). by apply checked_shape_first.
Qed.

(** C6, as the code has it.  Both upload functions check the bucket before
    any object request and, when the bucket is absent, create it (with the
    task's region) before any object request.  The cleanup sweep makes no
    bucket check and creates no bucket: it lists and removes objects
    directly. *)
Theorem uploads_check_bucket_first_cleanup_never p task path w :
  bucket_checked_first task (buckets w !! S3Bucket task = None)
    (emitted (uploadToS3 p task path) w)
  ∧ bucket_checked_first task (buckets w !! S3Bucket task = None)
      (emitted (uploadDirectoryToS3 p task path) w)
  ∧ Forall (fun e => ¬ bucket_event e) (emitted (cleanupOldBackups p task) w).
Proof.
  assert (Hany : ∀ e : Event, store_event e → any_event e) by done.
  assert (Hlog : ∀ lvl format,
             pipeline_line lvl format → any_event (EvLog lvl format)) by done.
  pose proof (quiet_FPutObject _ Hany) as Hput.
  split; [|split].
  - unfold uploadToS3.
    apply (upload_checks_bucket_first p task "Uploading to S3: %s/%s"
             (fun e => ("", Some e))).
    quiet_go.
  - unfold uploadDirectoryToS3.
    apply (upload_checks_bucket_first p task
             "Uploading directory to S3: %s/%s" (fun e => ("", Some e))).
    unfold upload_entry. quiet_go.
  - apply (emitted_quiet (fun e => ¬ bucket_event e)).
    apply quiet_cleanupOldBackups; [by intros ? ? _ []|].
    intros [] Ho Hb; solve [destruct Ho|destruct Hb].
Qed.

(** C6, as claimed, fails for the cleanup: on a bucket that holds an old
    archive it lists and deletes without a bucket check, and on a missing
    bucket it lists without checking for the bucket or creating it. *)
Lemma cleanup_makes_no_bucket_check :
  emitted (cleanupOldBackups calm nightly) stale
  = [EvLog INFO "Cleaning up backups older than %d days";
     EvListObjects "backups";
     EvLog INFO "Deleting old backup: %s";
     EvRemoveObject "backups" "10.0.0.5_data_1600000000.tar.gz"]
  ∧ emitted (cleanupOldBackups calm nightly) fresh
    = [EvLog INFO "Cleaning up backups older than %d days";
       EvListObjects "backups"]
  ∧ buckets (exec (cleanupOldBackups calm nightly) fresh) !! "backups" = None.
Proof. repeat split; vm_compute; reflexivity. Qed.

(** C5, as the code has it.  When the check reports the bucket absent and
    the creation fails with [e], whatever [e] is, "already exists"
    included, both upload functions return "failed to create bucket: e"
    and make no object request. *)
Theorem failed_bucket_creation_aborts_upload p task w e path :
  minio_New p task = None →
  bucket_exists_err p = None →
  buckets w !! S3Bucket task = None →
  make_bucket_err p = Some e →
  (eval (uploadToS3 p task path) w
   = ("", Some ("failed to create bucket: " +:+ e))
   ∧ emitted (uploadToS3 p task path) w
     = [EvLog INFO "Uploading to S3: %s/%s";
        EvBucketExists (S3Bucket task);
        EvMakeBucket (S3Bucket task) (S3Region task)])
  ∧ (eval (uploadDirectoryToS3 p task path) w
     = ("", Some ("failed to create bucket: " +:+ e))
     ∧ emitted (uploadDirectoryToS3 p task path) w
       = [EvLog INFO "Uploading directory to S3: %s/%s";
          EvBucketExists (S3Bucket task);
          EvMakeBucket (S3Bucket task) (S3Region task)]).
Proof.
  intros Hc Hx Hb Hm.
  unfold uploadToS3, uploadDirectoryToS3, ensure_bucket, BucketExists,
    MakeBucket, emitted, eval, exec, bind, logf, emit, modify, gets, ret.
  rewrite Hc, Hx. simpl. rewrite Hb. simpl. rewrite Hm. simpl.
  rewrite <- !app_assoc, !drop_app_length. done.
Qed.

Lemma failed_bucket_creation_aborts_upload_witness :
  eval (uploadToS3 raced nightly "/tmp/10.0.0.5_data_1700000000.tar.gz") fresh
  = ("", Some ("failed to create bucket: " +:+
       "Your previous request to create the named bucket succeeded and you already own it.")).
Proof.
  apply (failed_bucket_creation_aborts_upload raced nightly fresh); reflexivity.
Defined.

(** C5, as claimed, fails: the check finds no bucket, the creation is
    answered "already exists" because another actor was faster, and both
    uploads return that error without uploading anything. *)
Lemma lost_bucket_race_fails_upload :
  buckets fresh !! S3Bucket nightly = None
  ∧ eval (uploadToS3 raced nightly "/tmp/10.0.0.5_data_1700000000.tar.gz") fresh
    = ("", Some "failed to create bucket: Your previous request to create the named bucket succeeded and you already own it.")
  ∧ emitted (uploadToS3 raced nightly "/tmp/10.0.0.5_data_1700000000.tar.gz") fresh
    = [EvLog INFO "Uploading to S3: %s/%s"; EvBucketExists "backups";
       EvMakeBucket "backups" "eu-west-1"]
  ∧ eval (uploadDirectoryToS3 raced nightly "/data") fresh
    = ("", Some "failed to create bucket: Your previous request to create the named bucket succeeded and you already own it.")
  ∧ emitted (uploadDirectoryToS3 raced nightly "/data") fresh
    = [EvLog INFO "Uploading directory to S3: %s/%s"; EvBucketExists "backups";
       EvMakeBucket "backups" "eu-west-1"].
Proof. repeat split; vm_compute; reflexivity. Qed.

Lemma returns_ret {A} (P : A → Prop) (a : A) : P a → returns P (ret a).
Proof. by intros Ha w. Qed.

Lemma returns_bind {A B} (P : B → Prop) (m : M World A) (k : A → M World B) :
  (∀ a, returns P (k a)) → returns P (bind m k).
Proof.
  intros Hk w. unfold eval, bind. destruct (m w) as [a w1]. apply (Hk a w1).
Qed.

Lemma returns_bind_with {A B} (Q : A → Prop) (P : B → Prop)
    (m : M World A) (k : A → M World B) :
  returns Q m → (∀ a, Q a → returns P (k a)) → returns P (bind m k).
Proof.
  intros Hm Hk w. unfold eval, bind. specialize (Hm w). unfold eval in Hm.
  destruct (m w) as [a w1]. apply (Hk a Hm w1).
Qed.

Ltac returns_go :=
  repeat first
    [ apply returns_ret
    | apply returns_bind; intros ?
    | match goal with
      | |- returns _ (match ?x with _ => _ end) => destruct x
      end ].

(** The archive step returns early exactly when the archive build fails,
    with the error of the build; no step sets the success flag. *)
Lemma archive_step_outcome p task ip r0 w0 :
  match archive_step p task ip r0 w0 with
  | (inl (r, err), _) =>
      CreateArchive task = true
      ∧ err = (eval (createArchive p (Config.SourcePath task)
                       (ArchiveFormat task) ip) w0).2
      ∧ err ≠ None ∧ Success r = Success r0
  | (inr (r, _), _) =>
      (CreateArchive task = false
       ∨ (eval (createArchive p (Config.SourcePath task)
                  (ArchiveFormat task) ip) w0).2 = None)
      ∧ Success r = Success r0
  end.
Proof.
  unfold archive_step, eval. destruct (CreateArchive task); [|by split; [left|]].
  unfold bind at 1.
  destruct (createArchive p (Config.SourcePath task) (ArchiveFormat task) ip w0)
    as [[[path name] [e|]] w1]; simpl; [done|].
  match goal with
  | |- match ?tail w1 with _ => _ end =>
      assert (Ht : returns (fun a => match a with
                                     | inl _ => False
                                     | inr (r, _) => Success r = Success r0
                                     end) tail)
        by (do 4 (apply returns_bind; intros ?);
            apply (returns_bind_with (fun r => Success r = Success r0));
            [returns_go; done|intros r Hr; by apply returns_ret]);
      specialize (Ht w1); unfold eval in Ht;
      destruct (tail w1) as [[[r err]|[r n]] w2]
  end; simpl in Ht; [done|]. by split; [right|].
Qed.

Lemma upload_step_outcome p task result name w1 :
  match upload_step p task result name w1 with
  | (inl (r, err), _) =>
      bool_decide (S3Endpoint task ≠ "") && bool_decide (S3Bucket task ≠ "") = true
      ∧ err = (eval (upload_of p task result) w1).2
      ∧ err ≠ None ∧ Success r = Success result
  | (inr r, _) =>
      (bool_decide (S3Endpoint task ≠ "") && bool_decide (S3Bucket task ≠ "") = false
       ∨ (eval (upload_of p task result) w1).2 = None)
      ∧ Success r = Success result
  end.
Proof.
  unfold upload_step, upload_of, eval.
  destruct (bool_decide (S3Endpoint task ≠ "") && bool_decide (S3Bucket task ≠ ""));
    [|by split; [left|]].
  destruct (bool_decide (ArchivePath result ≠ "")).
  - unfold bind at 1.
    destruct (uploadToS3 p task (ArchivePath result) w1) as [[s [e|]] w2];
      simpl; [done|].
    match goal with
    | |- match ?tail w2 with _ => _ end =>
        assert (Ht : returns (fun a => match a with
                                       | inl _ => False
                                       | inr r => Success r = Success result
                                       end) tail) by (returns_go; done);
        specialize (Ht w2); unfold eval in Ht;
        destruct (tail w2) as [[[r err]|r] w3]
    end; simpl in Ht; [done|]. by split; [right|].
  - unfold bind at 1.
    destruct (uploadDirectoryToS3 p task (Config.SourcePath task) w1)
      as [[s [e|]] w2]; simpl; [done|]. by split; [right|].
Qed.

Lemma until_upload_eq p task ip w :
  until_upload p task ip w
  = archive_step p task ip empty_result
      (exec (when (guarded task) (compose_down p task)) w).
Proof.
  unfold until_upload, bind, exec.
  by destruct (when (guarded task) (compose_down p task) w) as [[] w0].
Qed.

(** The error [ExecuteBackup] returns is the first hard failure, and the
    run is marked successful exactly when there is none. *)
Lemma ExecuteBackup_error p task ip w :
  (eval (ExecuteBackup p task ip) w).2 = first_hard_failure p task ip w
  ∧ (Success (eval (ExecuteBackup p task ip) w).1 = true
     ↔ (eval (ExecuteBackup p task ip) w).2 = None).
Proof.
  unfold first_hard_failure, build_failure, upload_failure, eval.
  rewrite ExecuteBackup_unfold, !until_upload_eq.
  set (w0 := exec (when (guarded task) (compose_down p task)) w).
  pose proof (archive_step_outcome p task ip empty_result w0) as Ha.
  unfold eval in Ha.
  destruct (archive_step p task ip empty_result w0) as [[[r err]|[result name]] w1].
  - destruct Ha as (Hc & He & Hne & Hs). rewrite Hc. simpl in *.
    rewrite <- He. destruct err; [|done]. split; [done|].
    rewrite Hs. split; done.
  - destruct Ha as [Ha Hs].
    assert (Hb : (if CreateArchive task
                  then (createArchive p (Config.SourcePath task)
                          (ArchiveFormat task) ip w0).1.2
                  else None) = None).
    { destruct Ha as [-> | Ha]; [done|]. by destruct (CreateArchive task). }
    rewrite Hb.
    pose proof (upload_step_outcome p task result name w1) as Hu.
    unfold eval in Hu.
    destruct (upload_step p task result name w1) as [[[r err]|r] w2].
    + destruct Hu as (Hc & He & Hne & Hr). rewrite Hc. simpl in *.
      rewrite <- He. split; [done|]. rewrite Hr, Hs.
      destruct err; [|done]. split; done.
    + destruct Hu as [Hu _]. simpl. split; [|done].
      destruct Hu as [-> | Hu]; [done|]. rewrite Hu. by destruct (_ && _).
Qed.

(** Every computation of the pipeline only adds to the trace. *)
Lemma any_log lvl format :
  pipeline_line lvl format → any_event (EvLog lvl format).
Proof. done. Qed.

Lemma any_store e : store_event e → any_event e.
Proof. done. Qed.

Lemma any_local e : local_event e → any_event e.
Proof. done. Qed.

Lemma any_run task verb legacy : any_event (EvRun (compose_argv legacy task verb)).
Proof. done. Qed.

Ltac any_go :=
  repeat first
    [ apply quiet_compose_down; [apply any_log|intros; apply any_run]
    | apply quiet_compose_up; [apply any_log|intros; apply any_run]
    | apply quiet_archive_step; [apply any_log|apply any_local]
    | apply quiet_upload_step; [apply any_log|apply any_local|apply any_store]
    | apply quiet_cleanup_step; [apply any_log|apply any_store]
    | apply quiet_uploadToS3; [apply any_log|apply any_store]
    | apply quiet_uploadDirectoryToS3; [apply any_log|apply any_store]
    | apply quiet_UpdateBackupRecord; [apply any_local]
    | apply quiet_SaveBackupRecord; [apply any_local]
    | apply quiet_os_Remove; [apply any_local]
    | apply quiet_createArchive; [apply any_log]
    | apply quiet_GetBackupRecords
    | apply quiet_cleanupOldBackups; [apply any_log|done]
    | progress quiet_go
    | progress unfold ListObjects, sweep_object, RemoveObject ].




Lemma trace_emitted {A} (m : M World A) w :
  keeps (quiet any_event) m → trace (exec m w) = trace w ++ emitted m w.
Proof. intros Hm. by destruct (emitted_quiet _ m w Hm). Qed.

Lemma any_when_up p task : keeps (quiet any_event) (when (guarded task) (compose_up p task)).
Proof. any_go. Qed.

Lemma any_until_upload p task ip : keeps (quiet any_event) (until_upload p task ip).
Proof. unfold until_upload. any_go. Qed.

(** The events of a run, step by step. *)
Lemma emitted_ExecuteBackup p task ip w :
  emitted (ExecuteBackup p task ip) w =
  emitted (until_upload p task ip) w ++
  match until_upload p task ip w with
  | (inl _, w1) => emitted (when (guarded task) (compose_up p task)) w1
  | (inr (result, name), w1) =>
      emitted (upload_step p task result name) w1 ++
      match upload_step p task result name w1 with
      | (inl _, w2) => emitted (when (guarded task) (compose_up p task)) w2
      | (inr _, w2) =>
          emitted (cleanup_step p task) w2 ++
          emitted (when (guarded task) (compose_up p task))
            (exec (cleanup_step p task) w2)
      end
  end.
Proof.
  unfold emitted at 1. unfold exec at 1. rewrite ExecuteBackup_unfold.
  pose proof (trace_emitted (until_upload p task ip) w
                (any_until_upload p task ip)) as H1.
  unfold exec in H1.
  destruct (until_upload p task ip w) as [[returned|[result name]] w1];
    simpl in H1 |- *.
  - rewrite (trace_emitted _ w1 (any_when_up p task)), H1.
    by rewrite <- app_assoc, drop_app_length.
  - pose proof (trace_emitted (upload_step p task result name) w1) as H2.
    unfold exec in H2.
    destruct (upload_step p task result name w1) as [[returned|result'] w2];
      simpl in H2 |- *.
    + rewrite (trace_emitted _ w2 (any_when_up p task)), H2, H1 by any_go.
      by rewrite <- !app_assoc, drop_app_length.
    + rewrite (trace_emitted _ _ (any_when_up p task)).
      rewrite (trace_emitted (cleanup_step p task) w2) by any_go.
      rewrite H2, H1 by any_go.
      by rewrite <- !app_assoc, drop_app_length.
Qed.









Lemma emitted_ret {A} (a : A) w : emitted (ret a) w = [].
Proof. unfold emitted. simpl. by rewrite drop_all. Qed.




(** A run without hard failure goes through the three steps. *)
Lemma no_hard_failure_path p task ip w :
  first_hard_failure p task ip w = None →
  ∃ result name w1 result' w2,
    until_upload p task ip w = (inr (result, name), w1)
    ∧ upload_step p task result name w1 = (inr result', w2)
    ∧ (bool_decide (S3Endpoint task ≠ "") && bool_decide (S3Bucket task ≠ "") = true →
       (eval (upload_of p task result) w1).2 = None).
Proof.
  unfold first_hard_failure, build_failure, upload_failure.
  rewrite until_upload_eq.
  set (w0 := exec (when (guarded task) (compose_down p task)) w).
  pose proof (archive_step_outcome p task ip empty_result w0) as Ha.
  destruct (archive_step p task ip empty_result w0) as [[[r err]|[result name]] w1].
  - destruct Ha as (Hc & He & Hne & _). rewrite Hc, <- He.
    by destruct err.
  - destruct Ha as [Ha _].
    destruct (if CreateArchive task then _ else None); [done|].
    intros Hu. pose proof (upload_step_outcome p task result name w1) as Hs.
    destruct (upload_step p task result name w1) as [[[r err]|r] w2] eqn:Hup.
    + destruct Hs as (Hc & He & Hne & _). rewrite Hc in Hu. congruence.
    + exists result, name, w1, r, w2. split; [done|]. split; [done|].
      intros Hc. by rewrite Hc in Hu.
Qed.





(** C7.  In a run where everything succeeds the archive has 5 MiB, the
    result carries that size, and the record left in the ledger has the
    upload fields but the size it was created with, 0: the size computed
    from the stat is put into a copy of the records that is never written
    back. *)
Theorem size_backfill_is_not_persisted :
  ArchiveSize (eval (ExecuteBackup calm nightly "10.0.0.5") fresh).1 = 5242880%Z
  ∧ megabytes 5242880 = 5%float
  ∧ ledger (exec (ExecuteBackup calm nightly "10.0.0.5") fresh)
    = Stored
        [{| Sys.SourcePath := "/data";
            ArchiveName := "10.0.0.5_data_1700000000.tar.gz";
            BackupDate := 1700000001;
            S3UploadDate := Some 1700000002%Z;
            ArchiveSizeMB := 0%float;
            Sys.S3Path := "s3://backups/10.0.0.5_data_1700000000.tar.gz";
            Status := "success" |}].
Proof. repeat split; vm_compute; reflexivity. Qed.

End BackupProps.


(** * Properties of the task list *)
Module ConfigProps.
Import ConfigOps.

Lemma first_task_replace_first task tasks tasks' :
  replace_first task tasks = Some tasks' →
  first_task (TaskID task) tasks' = Some task
  ∧ (∀ id, id ≠ TaskID task → first_task id tasks' = first_task id tasks)
  ∧ length tasks' = length tasks
  ∧ TaskID <$> tasks' = TaskID <$> tasks.
Proof.
  revert tasks'. induction tasks as [|t rest IH]; intros tasks' H; [done|].
  simpl in H. case_decide as Ht.
  - injection H as <-. split; [|split; [|split]].
    + simpl. by rewrite decide_True by done.
    + intros id Hid. simpl. rewrite Ht. by rewrite !decide_False by done.
    + done.
    + rewrite !fmap_cons. by rewrite Ht.
  - destruct (replace_first task rest) as [r|]; [|done].
    injection H as <-. destruct (IH r eq_refl) as (H1 & H2 & H3 & H4).
    split; [|split; [|split]].
    + simpl. by rewrite decide_False by done.
    + intros id Hid. simpl. case_decide; [done|]. by apply H2.
    + simpl. by rewrite H3.
    + rewrite !fmap_cons. by rewrite H4.
Qed.

Lemma first_task_none_iff id tasks :
  first_task id tasks = None ↔ id ∉ TaskID <$> tasks.
Proof.
  induction tasks as [|t rest IH]; simpl.
  - split; [intros _; apply not_elem_of_nil|done].
  - rewrite not_elem_of_cons. case_decide; [|by rewrite IH; intuition].
    split; [done|]. intros [? _]. congruence.
Qed.

Lemma replace_first_none task tasks :
  replace_first task tasks = None ↔ first_task (TaskID task) tasks = None.
Proof.
  induction tasks as [|t rest IH]; simpl; [done|].
  case_decide; [done|].
  destruct (replace_first task rest); simpl; [|tauto].
  split; [done|]. intros Hn. by apply IH in Hn.
Qed.

Lemma first_task_app_absent id tasks task :
  first_task id tasks = None →
  first_task id (tasks ++ [task])
  = if decide (TaskID task = id) then Some task else None.
Proof.
  induction tasks as [|t rest IH]; simpl; [done|].
  destruct (decide (TaskID t = id)); [by intros ?|]. apply IH.
Qed.

Lemma first_task_app_other id tasks task :
  id ≠ TaskID task → first_task id (tasks ++ [task]) = first_task id tasks.
Proof.
  intros Hid. induction tasks as [|t rest IH]; simpl.
  - by rewrite decide_False by done.
  - by case_decide.
Qed.

Lemma AddOrUpdateTask_fields task c :
  Port (AddOrUpdateTask task c) = Port c
  ∧ ServerIP (AddOrUpdateTask task c) = ServerIP c
  ∧ ServerHostname (AddOrUpdateTask task c) = ServerHostname c.
Proof. unfold AddOrUpdateTask. by destruct (replace_first task (Tasks c)). Qed.

Lemma filter_absent taskID tasks :
  first_task taskID tasks = None →
  filter (fun t => TaskID t ≠ taskID) tasks = tasks.
Proof.
  induction tasks as [|t rest IH]; [done|]. simpl.
  destruct (decide (TaskID t = taskID)); [done|]. intros Hn.
  rewrite filter_cons_True by done. f_equal. by apply IH.
Qed.

Lemma GetTask_added task c :
  GetTask (TaskID task) (AddOrUpdateTask task c) = Some task.
Proof.
  unfold GetTask, AddOrUpdateTask.
  destruct (replace_first task (Tasks c)) as [tasks'|] eqn:Hr; simpl.
  - by destruct (first_task_replace_first _ _ _ Hr) as (H1 & _).
  - apply replace_first_none in Hr.
    rewrite first_task_app_absent by done. by rewrite decide_True.
Qed.

(** X1. After [AddOrUpdateTask] the lookup of the task's identifier gives
    the task, whatever the list held (duplicates of the identifier
    included), and the lookup of every other identifier is as before. *)
Theorem GetTask_after_AddOrUpdateTask task c :
  GetTask (TaskID task) (AddOrUpdateTask task c) = Some task
  ∧ (∀ id, id ≠ TaskID task →
       GetTask id (AddOrUpdateTask task c) = GetTask id c)
  ∧ Port (AddOrUpdateTask task c) = Port c
  ∧ ServerIP (AddOrUpdateTask task c) = ServerIP c
  ∧ ServerHostname (AddOrUpdateTask task c) = ServerHostname c.
Proof.
  split; [apply GetTask_added|]. split; [|apply AddOrUpdateTask_fields].
  unfold GetTask, AddOrUpdateTask.
  destruct (replace_first task (Tasks c)) as [tasks'|] eqn:Hr; simpl.
  - by destruct (first_task_replace_first _ _ _ Hr) as (_ & H2 & _).
  - intros id Hid. by apply first_task_app_other.
Qed.

(** X2. [AddOrUpdateTask] overwrites in place or appends: the identifiers
    already in the list stay where they are, the list grows by one exactly
    when the identifier is new, and identifiers that were distinct stay
    distinct. *)
Theorem AddOrUpdateTask_identifiers task c :
  let ids := TaskID <$> Tasks c in
  let ids' := TaskID <$> Tasks (AddOrUpdateTask task c) in
  (TaskID task ∈ ids → ids' = ids)
  ∧ (TaskID task ∉ ids → Tasks (AddOrUpdateTask task c) = Tasks c ++ [task])
  ∧ (NoDup ids → NoDup ids').
Proof.
  unfold AddOrUpdateTask.
  destruct (replace_first task (Tasks c)) as [tasks'|] eqn:Hr; simpl.
  - destruct (first_task_replace_first _ _ _ Hr) as (H1 & _ & _ & H4).
    split; [done|]. split; [|by rewrite H4].
    intros Hn. apply first_task_none_iff in Hn.
    apply replace_first_none in Hn. congruence.
  - apply replace_first_none in Hr. pose proof Hr as Hn.
    apply first_task_none_iff in Hn. split; [done|]. split; [done|].
    intros Hd. rewrite fmap_app. apply NoDup_app. repeat split; [done| |].
    + intros x Hx Hx'. apply list_elem_of_singleton in Hx'. by subst.
    + apply NoDup_singleton.
Qed.

(** X3. After [RemoveTask] the identifier is not found any more, every
    other identifier is found as before, and a list that does not hold
    the identifier is left as it is. *)
Theorem GetTask_after_RemoveTask taskID c :
  GetTask taskID (RemoveTask taskID c) = None
  ∧ (∀ id, id ≠ taskID → GetTask id (RemoveTask taskID c) = GetTask id c)
  ∧ (GetTask taskID c = None → Tasks (RemoveTask taskID c) = Tasks c).
Proof.
  unfold GetTask, RemoveTask. simpl.
  induction (Tasks c) as [|t rest (IH1 & IH2 & IH3)]; [done|].
  destruct (decide (TaskID t = taskID)) as [Ht|Ht].
  - rewrite filter_cons_False by (intros Hn; by apply Hn).
    split; [done|]. split.
    + intros id Hid. simpl. rewrite decide_False by congruence. by apply IH2.
    + simpl. by rewrite decide_True.
  - rewrite filter_cons_True by done. simpl. rewrite decide_False by done.
    split; [done|]. split.
    + intros id Hid. destruct (decide (TaskID t = id)); [done|]. by apply IH2.
    + intros Hn. rewrite decide_False in Hn by done. f_equal. by apply IH3.
Qed.

(** X4. Removing a task that was added to a list without its identifier
    gives the list back; in general removal after the upsert is the
    removal alone. *)
Theorem RemoveTask_after_AddOrUpdateTask task c :
  Tasks (RemoveTask (TaskID task) (AddOrUpdateTask task c))
  = Tasks (RemoveTask (TaskID task) c)
  ∧ (GetTask (TaskID task) c = None →
     RemoveTask (TaskID task) (AddOrUpdateTask task c) = c).
Proof.
  assert (H : Tasks (RemoveTask (TaskID task) (AddOrUpdateTask task c))
              = Tasks (RemoveTask (TaskID task) c)).
  { unfold RemoveTask, AddOrUpdateTask. simpl.
    destruct (replace_first task (Tasks c)) as [tasks'|] eqn:Hr; simpl.
    - revert tasks' Hr. induction (Tasks c) as [|t rest IH]; intros tasks' Hr;
        [done|]. simpl in Hr. case_decide as Ht.
      + injection Hr as <-.
        by rewrite !filter_cons_False by (intros Hn; by apply Hn).
      + destruct (replace_first task rest) as [r|]; [|done].
        injection Hr as <-. rewrite !filter_cons_True by done.
        by rewrite (IH r eq_refl).
    - rewrite filter_app, filter_cons_False by (intros Hn; by apply Hn).
      by rewrite filter_nil, app_nil_r. }
  split; [done|]. intros Hn.
  pose proof (filter_absent _ _ Hn) as H3.
  destruct (AddOrUpdateTask_fields task c) as (Hp & Hi & Hh).
  unfold RemoveTask, with_Tasks in *. simpl in *.
  rewrite Hp, Hi, Hh, H, H3. by destruct c.
Qed.

Lemma RemoveTask_after_AddOrUpdateTask_witness :
  RemoveTask 7 (AddOrUpdateTask (Cron.plain_task 7 "@daily") two_tasks)
  = two_tasks.
Proof.
  apply (RemoveTask_after_AddOrUpdateTask (Cron.plain_task 7 "@daily") two_tasks).
  reflexivity.
Defined.

End ConfigProps.


(** * The text of the system crontab *)
Module CrontabProps.
Import Cron CronText.

(** ** Bytes of a string *)

Lemma append_assoc (a b c : string) : (a +:+ b) +:+ c = a +:+ (b +:+ c).
Proof.
  induction a as [|x a IH]; [done|].
  change (String x ((a +:+ b) +:+ c) = String x (a +:+ b +:+ c)).
  by rewrite IH.
Qed.

Lemma HasPrefix_refl s : HasPrefix s s = true.
Proof.
  unfold HasPrefix. induction s as [|c s IH]; [done|]. simpl.
  destruct (ascii_dec c c); [done|congruence].
Qed.

Lemma Contains_byte c r sep :
  Contains (String c r) (String sep "")
  = bool_decide (c = sep) || Contains r (String sep "").
Proof.
  simpl. f_equal. unfold HasPrefix. simpl.
  destruct (ascii_dec sep c) as [->|Hne].
  - rewrite bool_decide_eq_true_2 by done. by destruct r.
  - by rewrite bool_decide_eq_false_2 by congruence.
Qed.

Lemma Contains_app_byte a b sep :
  Contains (a +:+ b) (String sep "")
  = Contains a (String sep "") || Contains b (String sep "").
Proof.
  induction a as [|c a IH].
  - simpl. unfold HasPrefix. by simpl.
  - change (String c a +:+ b) with (String c (a +:+ b)).
    rewrite !Contains_byte, IH. by rewrite orb_assoc.
Qed.

Lemma Contains_suffix a b : Contains (a +:+ b) b = true.
Proof.
  induction a as [|c a IH].
  - change ("" +:+ b) with b.
    destruct b; unfold Contains; fold Contains; by rewrite HasPrefix_refl.
  - change (String c a +:+ b) with (String c (a +:+ b)).
    simpl. rewrite IH. by rewrite orb_true_r.
Qed.

(** ** [strings.Split] and [strings.Join] on lines *)

Lemma SplitByte_nonempty sep s : SplitByte sep s ≠ [].
Proof.
  destruct s as [|c r]; [done|]. simpl.
  destruct (decide (c = sep)); [done|]. by destruct (SplitByte sep r).
Qed.

Lemma SplitByte_cons c sep r :
  c ≠ sep →
  ∃ h t, SplitByte sep r = h :: t
         ∧ SplitByte sep (String c r) = String c h :: t.
Proof.
  intros Hc. simpl. rewrite decide_False by done.
  destruct (SplitByte sep r) as [|h t] eqn:Hr.
  - by destruct (SplitByte_nonempty sep r).
  - by exists h, t.
Qed.

Lemma SplitByte_no_sep sep s :
  Contains s (String sep "") = false → SplitByte sep s = [s].
Proof.
  induction s as [|c r IH]; [done|].
  rewrite Contains_byte. intros [Hc Hr]%orb_false_iff.
  apply bool_decide_eq_false in Hc.
  destruct (SplitByte_cons c sep r Hc) as (h & t & H1 & ->).
  rewrite IH in H1 by done. by simplify_eq.
Qed.

Lemma SplitByte_pieces sep s l :
  l ∈ SplitByte sep s → Contains l (String sep "") = false.
Proof.
  revert l. induction s as [|c r IH]; intros l.
  - simpl. by intros ->%list_elem_of_singleton.
  - destruct (decide (c = sep)) as [->|Hc].
    + simpl. rewrite decide_True by done.
      intros [->|Hl]%elem_of_cons; [done|]. by apply IH.
    + destruct (SplitByte_cons c sep r Hc) as (h & t & H1 & ->).
      intros [->|Hl]%elem_of_cons.
      * rewrite Contains_byte, bool_decide_eq_false_2 by done.
        apply IH. rewrite H1. by left.
      * apply IH. rewrite H1. by right.
Qed.

Lemma SplitByte_app sep a b :
  SplitByte sep (a +:+ String sep b) = SplitByte sep a ++ SplitByte sep b.
Proof.
  induction a as [|c a IH].
  - change ("" +:+ String sep b) with (String sep b). simpl.
    by rewrite decide_True.
  - change (String c a +:+ String sep b) with (String c (a +:+ String sep b)).
    destruct (decide (c = sep)) as [->|Hc].
    + simpl. rewrite !decide_True by done. by rewrite IH.
    + destruct (SplitByte_cons c sep a Hc) as (h & t & H1 & ->).
      destruct (SplitByte_cons c sep (a +:+ String sep b) Hc)
        as (h' & t' & H2 & ->).
      rewrite IH, H1 in H2. simpl in H2. by simplify_eq.
Qed.

Lemma Join_cons x y rest sep :
  Join (x :: y :: rest) sep = x +:+ sep +:+ Join (y :: rest) sep.
Proof. done. Qed.

Lemma SplitByte_Join sep ls :
  ls ≠ [] →
  (∀ l, l ∈ ls → Contains l (String sep "") = false) →
  SplitByte sep (Join ls (String sep "")) = ls.
Proof.
  induction ls as [|x [|y rest] IH]; intros Hne Hls; [done|..].
  - simpl. apply SplitByte_no_sep, Hls. by left.
  - rewrite Join_cons.
    change (x +:+ String sep "" +:+ Join (y :: rest) (String sep ""))
      with (x +:+ String sep (Join (y :: rest) (String sep ""))).
    rewrite SplitByte_app, IH, SplitByte_no_sep; [done|..|done|].
    + apply Hls. by left.
    + intros l Hl. apply Hls. by right.
Qed.

Lemma Join_SplitByte sep s : Join (SplitByte sep s) (String sep "") = s.
Proof.
  induction s as [|c r IH]; [done|].
  destruct (decide (c = sep)) as [->|Hc].
  - cbn [SplitByte]. rewrite decide_True by done.
    destruct (SplitByte sep r) as [|h t] eqn:Hr.
    + by destruct (SplitByte_nonempty sep r).
    + by rewrite Join_cons, IH.
  - destruct (SplitByte_cons c sep r Hc) as (h & t & H1 & ->).
    rewrite H1 in IH. destruct t as [|y t]; [by rewrite <- IH|].
    by rewrite Join_cons, <- IH, Join_cons.
Qed.

(** ** Decimal numerals *)

Lemma pretty_N_go_no_LF x s :
  Contains (pretty_N_go x s) nl = Contains s nl.
Proof.
  revert s. induction (N.lt_wf_0 x) as [x _ IH]; intros s.
  assert (x = 0 ∨ 0 < x)%N as [->|Hx] by lia.
  - by rewrite pretty_N_go_0.
  - rewrite pretty_N_go_step by done. rewrite IH by (by apply N.div_lt).
    unfold nl. rewrite Contains_byte.
    rewrite bool_decide_eq_false_2; [done|].
    unfold pretty_N_char. by repeat case_match.
Qed.

Lemma Itoa_no_LF z : Contains (Itoa z) nl = false.
Proof.
  assert (∀ p : positive, Contains (pretty p) nl = false) as Hp.
  { intros p. unfold pretty, pretty_positive, pretty, pretty_N.
    rewrite decide_False by done. by rewrite pretty_N_go_no_LF. }
  unfold Itoa, pretty, pretty_Z. destruct z as [|p|p]; [done|apply Hp|].
  unfold nl in *. rewrite Contains_app_byte. by rewrite (Hp p).
Qed.

(** ** White-space runes and fields *)

(** A white-space rune found at the start of a string is found at the
    start of every string that extends it. *)
Lemma space_width_prefix a b :
  space_width (a +:+ b) = 0 → space_width a = 0.
Proof.
  destruct a as [|c1 [|c2 [|c3 a]]]; [done|..].
  - change (String c1 "" +:+ b) with (String c1 b).
    unfold space_width. destruct (asciiSpace c1); [done|]. done.
  - change (String c1 (String c2 "") +:+ b) with (String c1 (String c2 b)).
    unfold space_width. destruct (asciiSpace c1); [done|].
    destruct (_ && _); done.
  - done.
Qed.

(** A space after a string that starts with no white-space rune does not
    complete one. *)
Lemma space_width_then_space a s :
  a ≠ "" → space_width a = 0 → space_width (a +:+ String " " s) = 0.
Proof.
  intros Hne. destruct a as [|c1 [|c2 [|c3 a]]]; [done|..].
  - change (String c1 "" +:+ String " " s) with (String c1 (String " " s)).
    unfold space_width. destruct (asciiSpace c1); [done|]. intros _.
    change (nat_of_ascii " ") with 32. cbn [Nat.eqb orb].
    rewrite andb_false_r. destruct s as [|c3 s]; [done|].
    unfold three_byte_space. cbn [Nat.eqb]. by rewrite !andb_false_r.
  - change (String c1 (String c2 "") +:+ String " " s)
      with (String c1 (String c2 (String " " s))).
    unfold space_width. destruct (asciiSpace c1); [done|].
    destruct (_ && _); [done|]. intros _.
    unfold three_byte_space. change (nat_of_ascii " ") with 32.
    cbn [Nat.eqb Nat.leb]. by rewrite ?andb_false_r, ?orb_false_r.
  - done.
Qed.

Lemma fields_from_unfold c r :
  fields_from 0 (String c r) =
  match space_width (String c r) with
  | S k => fields_from k r
  | O =>
      match r with
      | EmptyString => [String c EmptyString]
      | String _ _ =>
          match space_width r with
          | S _ => String c EmptyString :: fields_from 0 r
          | O =>
              match fields_from 0 r with
              | h :: t => String c h :: t
              | [] => [String c EmptyString]
              end
          end
      end
  end.
Proof. done. Qed.

Lemma spaceless_no_LF s : spaceless s = true → Contains s nl = false.
Proof.
  induction s as [|c r IH]; [done|]. cbn [spaceless].
  destruct (space_width (String c r)) eqn:Hw; [|done].
  intros Hr. unfold nl. rewrite Contains_byte.
  rewrite bool_decide_eq_false_2; [by apply IH|].
  intros ->. by vm_compute in Hw.
Qed.

(** The first field of a string that starts with no white space starts
    the string. *)
Lemma first_field_prefix s h t :
  fields_from 0 s = h :: t → space_width s = 0 → ∃ rest, s = h +:+ rest.
Proof.
  revert h t. induction s as [|c r IH]; intros h t; [done|].
  rewrite fields_from_unfold. intros Hf Hw. rewrite Hw in Hf.
  destruct r as [|c' r']; [injection Hf as <- <-; by exists ""|].
  destruct (space_width (String c' r')) eqn:Hw'.
  - destruct (fields_from 0 (String c' r')) as [|h' t'] eqn:Hr.
    + injection Hf as <- <-. by exists (String c' r').
    + injection Hf as <- <-. destruct (IH h' t' eq_refl eq_refl) as [rest ->].
      by exists rest.
  - injection Hf as <- <-. by exists (String c' r').
Qed.

Lemma word_byte c r : space_width (String c r) = 0 → word (String c "").
Proof.
  intros Hw. split; [done|]. cbn [spaceless].
  by rewrite (space_width_prefix (String c "") r Hw).
Qed.

Lemma fields_from_words s : ∀ k f, f ∈ fields_from k s → word f.
Proof.
  induction s as [|c r IH]; intros k f; [by intros ?%elem_of_nil|].
  destruct k as [|k]; [|apply IH].
  rewrite fields_from_unfold.
  destruct (space_width (String c r)) as [|k] eqn:Hw; [|apply IH].
  destruct r as [|c' r']; [intros ->%list_elem_of_singleton; by apply (word_byte c "")|].
  destruct (space_width (String c' r')) eqn:Hw'.
  - destruct (fields_from 0 (String c' r')) as [|h t] eqn:Hr.
    + intros ->%list_elem_of_singleton. by apply (word_byte c (String c' r')).
    + intros [->|Hf]%elem_of_cons.
      * destruct (IH 0 h) as [_ Hh]; [rewrite Hr; by left|].
        destruct (first_field_prefix _ h t Hr Hw') as [rest Hrest].
        split; [done|]. cbn [spaceless].
        rewrite (space_width_prefix (String c h) rest); [done|].
        change (String c h +:+ rest) with (String c (h +:+ rest)).
        by rewrite <- Hrest.
      * apply (IH 0). rewrite Hr. by right.
  - intros [->|Hf]%elem_of_cons; [by apply (word_byte c (String c' r'))|].
    by apply (IH 0).
Qed.

Lemma Fields_words s f : f ∈ Fields s → word f.
Proof. apply fields_from_words. Qed.

Lemma Fields_word_then_space w s :
  word w → Fields (w +:+ String " " s) = w :: Fields s.
Proof.
  unfold Fields. intros [Hne Hw]. induction w as [|c w IH]; [done|].
  cbn [spaceless] in Hw.
  destruct (space_width (String c w)) eqn:Hc; [|done].
  change (String c w +:+ String " " s) with (String c (w +:+ String " " s)).
  rewrite fields_from_unfold.
  change (String c (w +:+ String " " s)) with (String c w +:+ String " " s).
  rewrite space_width_then_space by done.
  destruct w as [|c' w'].
  - change ("" +:+ String " " s) with (String " " s).
    by rewrite (fields_from_unfold " " s).
  - assert (space_width (String c' w') = 0) as Hc'.
    { cbn [spaceless] in Hw. by destruct (space_width (String c' w')). }
    rewrite (space_width_then_space (String c' w') s), IH by done.
    reflexivity.
Qed.

Lemma Fields_word w : word w → Fields w = [w].
Proof.
  unfold Fields. intros [Hne Hw]. induction w as [|c w IH]; [done|].
  cbn [spaceless] in Hw.
  destruct (space_width (String c w)) eqn:Hc; [|done].
  rewrite fields_from_unfold, Hc.
  destruct w as [|c' w']; [done|].
  assert (space_width (String c' w') = 0) as ->.
  { cbn [spaceless] in Hw. by destruct (space_width (String c' w')). }
  by rewrite IH.
Qed.

Lemma Fields_Join ws : Forall word ws → Fields (Join ws " ") = ws.
Proof.
  induction ws as [|x [|y rest] IH]; intros Hws; [done|..].
  - apply Fields_word. by inversion Hws.
  - rewrite Join_cons.
    change (x +:+ " " +:+ Join (y :: rest) " ")
      with (x +:+ String " " (Join (y :: rest) " ")).
    inversion Hws; subst.
    rewrite Fields_word_then_space by done. by rewrite IH.
Qed.

Lemma Join_words_no_LF ws : Forall word ws → Contains (Join ws " ") nl = false.
Proof.
  induction ws as [|x [|y rest] IH]; intros Hws; [done|..].
  - inversion Hws as [|?? [_ Hx] _]; subst. by apply spaceless_no_LF.
  - rewrite Join_cons. inversion Hws as [|?? [_ Hx] Hr]; subst.
    pose proof (spaceless_no_LF x Hx) as Hx'.
    unfold nl in *. by rewrite !Contains_app_byte, IH, Hx'.
Qed.

(** ** The crontab after a synchronisation *)

Lemma cronLine_marked task :
  Contains (cronLine task) (marker (TaskID task)) = true.
Proof.
  unfold cronLine, marker.
  change (" --task-id " +:+ Itoa (TaskID task))
    with (" " +:+ "--task-id " +:+ Itoa (TaskID task)).
  set (m := "--task-id " +:+ Itoa (TaskID task)).
  rewrite <- !append_assoc. apply Contains_suffix.
Qed.

Lemma cronLine_no_LF task :
  Contains (cronExpr task) nl = false → Contains (cronLine task) nl = false.
Proof.
  intros He. pose proof (Itoa_no_LF (TaskID task)) as Hi.
  unfold cronLine, nl in *. by rewrite !Contains_app_byte, He, Hi.
Qed.

Lemma keep_unmarked_no_LF taskID s l :
  l ∈ keep_unmarked taskID (SplitByte LF s) → Contains l nl = false.
Proof.
  unfold keep_unmarked. intros [_ Hl]%list_elem_of_filter.
  by apply SplitByte_pieces in Hl.
Qed.

Lemma keep_unmarked_idemp taskID lines :
  keep_unmarked taskID (keep_unmarked taskID lines)
  = keep_unmarked taskID lines.
Proof.
  unfold keep_unmarked. induction lines as [|l lines IH]; [done|].
  destruct (Contains l (marker taskID)) eqn:Hl.
  - by rewrite filter_cons_False by congruence.
  - rewrite filter_cons_True by done.
    rewrite filter_cons_True by done. by rewrite IH.
Qed.

Lemma marked_keep_unmarked taskID lines :
  marked taskID (keep_unmarked taskID lines) = [].
Proof.
  unfold marked, keep_unmarked. induction lines as [|l lines IH]; [done|].
  destruct (Contains l (marker taskID)) eqn:Hl.
  - by rewrite filter_cons_False by congruence.
  - rewrite filter_cons_True by done.
    by rewrite filter_cons_False by congruence.
Qed.

Lemma updateSystemCron_crontab f task h :
  install_err f = None →
  crontab (exec (updateSystemCron f task) h)
  = Join (keep_unmarked (TaskID task) (listed f h) ++ [cronLine task]) nl
    +:+ nl.
Proof.
  intros Hi. unfold updateSystemCron, install_line, exec, bind, read_crontab, gets.
  by rewrite Hi.
Qed.

Lemma removeFromSystemCron_crontab f taskID h :
  install_err f = None →
  crontab (exec (removeFromSystemCron f taskID) h)
  = Join (keep_unmarked taskID (listed f h)) nl +:+ nl.
Proof.
  intros Hi. unfold removeFromSystemCron, exec, bind, read_crontab, gets.
  by rewrite Hi.
Qed.

Lemma installed_lines (lines : list string) :
  lines ≠ [] →
  (∀ l, l ∈ lines → Contains l nl = false) →
  SplitByte LF (Join lines nl +:+ nl) = lines ++ [""].
Proof.
  intros Hne Hl. unfold nl. rewrite SplitByte_app.
  by rewrite SplitByte_Join.
Qed.

Lemma updateSystemCron_lines_eq f task h :
  install_err f = None →
  Contains (cronExpr task) nl = false →
  SplitByte LF (crontab (exec (updateSystemCron f task) h))
  = keep_unmarked (TaskID task) (listed f h) ++ [cronLine task; ""].
Proof.
  intros Hi He. rewrite updateSystemCron_crontab by done.
  rewrite installed_lines.
  - by rewrite <- app_assoc.
  - by destruct (keep_unmarked (TaskID task) (listed f h)).
  - intros l [Hl| ->%list_elem_of_singleton]%elem_of_app.
    + by apply keep_unmarked_no_LF in Hl.
    + by apply cronLine_no_LF.
Qed.

(** X5. After a successful [updateSystemCron] the crontab consists of the
    lines read that do not carry the task's marker, in their order, then
    the task's line, then an empty line (the final newline); exactly one
    line carries the marker, and it is the task's line.  (The expression
    written must hold no line feed, which a six-field schedule ensures.) *)
Theorem updateSystemCron_one_marked_line f task h :
  install_err f = None →
  Contains (cronExpr task) nl = false →
  let after := SplitByte LF (crontab (exec (updateSystemCron f task) h)) in
  after = keep_unmarked (TaskID task) (listed f h) ++ [cronLine task; ""]
  ∧ marked (TaskID task) after = [cronLine task]
  ∧ keep_unmarked (TaskID task) after
    = keep_unmarked (TaskID task) (listed f h) ++ [""].
Proof.
  intros Hi He after. unfold after.
  rewrite updateSystemCron_lines_eq by done. split; [done|].
  pose proof (cronLine_marked task) as Hm. split.
  - unfold marked at 1. rewrite filter_app.
    fold (marked (TaskID task) (keep_unmarked (TaskID task) (listed f h))).
    rewrite marked_keep_unmarked.
    rewrite filter_cons_True by done. by rewrite filter_cons_False.
  - unfold keep_unmarked at 1. rewrite filter_app.
    fold (keep_unmarked (TaskID task) (keep_unmarked (TaskID task) (listed f h))).
    rewrite keep_unmarked_idemp.
    rewrite filter_cons_False by congruence. by rewrite filter_cons_True.
Qed.

Lemma updateSystemCron_one_marked_line_witness :
  marked 1 (SplitByte LF (crontab (exec (updateSystemCron no_faults task1) host12)))
  = [cronLine task1].
Proof.
  apply (updateSystemCron_one_marked_line no_faults task1 host12);
    reflexivity.
Defined.

(** X6. Synchronising the same task a second time does not give the same
    crontab back: the empty line that ended the first text is kept and the
    task's line is appended after it, so every further synchronisation
    inserts one more empty line before the task's line. *)
Theorem updateSystemCron_again_adds_blank_line f task h :
  install_err f = None → list_fails f = false →
  Contains (cronExpr task) nl = false →
  let once := exec (updateSystemCron f task) h in
  let twice := exec (updateSystemCron f task) once in
  SplitByte LF (crontab twice)
  = keep_unmarked (TaskID task) (SplitByte LF (crontab h))
    ++ [""; cronLine task; ""]
  ∧ crontab twice ≠ crontab once.
Proof.
  intros Hi Hl He once twice.
  assert (SplitByte LF (crontab twice)
          = keep_unmarked (TaskID task) (SplitByte LF (crontab h))
            ++ [""; cronLine task; ""]) as H2.
  { unfold twice. rewrite updateSystemCron_lines_eq by done.
    unfold listed at 1. rewrite Hl. fold once. unfold once.
    rewrite updateSystemCron_lines_eq by done.
    unfold listed. rewrite Hl.
    unfold keep_unmarked at 1. rewrite filter_app.
    fold (keep_unmarked (TaskID task)
            (keep_unmarked (TaskID task) (SplitByte LF (crontab h)))).
    rewrite keep_unmarked_idemp.
    rewrite filter_cons_False by (by rewrite cronLine_marked).
    rewrite filter_cons_True by done. by rewrite <- app_assoc. }
  split; [done|]. intros Heq. rewrite Heq in H2. unfold once in H2.
  rewrite updateSystemCron_lines_eq in H2 by done.
  unfold listed in H2. rewrite Hl in H2.
  apply app_inv_head in H2. apply (f_equal length) in H2. done.
Qed.

Lemma updateSystemCron_again_adds_blank_line_witness :
  SplitByte LF
    (crontab (exec (updateSystemCron no_faults task1)
                (exec (updateSystemCron no_faults task1) (New empty_config ""))))
  = [""; ""; cronLine task1; ""].
Proof.
  apply (updateSystemCron_again_adds_blank_line no_faults task1
           (New empty_config "")); reflexivity.
Defined.

(** X7. After a successful [removeFromSystemCron] no line of the crontab
    carries the marker; the lines are the unmarked lines read, in their
    order, and an empty line (one empty line in their place when every
    line read was marked). *)
Theorem removeFromSystemCron_leaves_no_marked_line f taskID h :
  install_err f = None →
  let kept := keep_unmarked taskID (listed f h) in
  let after := SplitByte LF (crontab (exec (removeFromSystemCron f taskID) h)) in
  after = (if decide (kept = []) then [""] else kept) ++ [""]
  ∧ marked taskID after = [].
Proof.
  intros Hi kept after. unfold after.
  rewrite removeFromSystemCron_crontab by done. fold kept.
  destruct (decide (kept = [])) as [->|Hne]; [done|].
  rewrite installed_lines; [|done|].
  - split; [done|]. unfold marked. rewrite filter_app.
    fold (marked taskID kept). unfold kept.
    by rewrite marked_keep_unmarked.
  - intros l Hl. by apply keep_unmarked_no_LF in Hl.
Qed.

Lemma removeFromSystemCron_leaves_no_marked_line_witness :
  marked 12 (SplitByte LF (crontab (exec (removeFromSystemCron no_faults 12) host12)))
  = [].
Proof.
  apply (removeFromSystemCron_leaves_no_marked_line no_faults 12 host12).
  reflexivity.
Defined.

(** X8. Removing a task that has no line in the crontab is not a no-op:
    the text read is written back with one more newline at its end. *)
Theorem removeFromSystemCron_absent_task_appends_newline f taskID h :
  install_err f = None → list_fails f = false →
  marked taskID (SplitByte LF (crontab h)) = [] →
  crontab (exec (removeFromSystemCron f taskID) h) = crontab h +:+ nl.
Proof.
  intros Hi Hl Hm. rewrite removeFromSystemCron_crontab by done.
  unfold listed. rewrite Hl.
  assert (keep_unmarked taskID (SplitByte LF (crontab h))
          = SplitByte LF (crontab h)) as ->.
  { unfold marked, keep_unmarked in *.
    induction (SplitByte LF (crontab h)) as [|l ls IH]; [done|].
    destruct (Contains l (marker taskID)) eqn:Hc.
    - by rewrite filter_cons_True in Hm by done.
    - rewrite filter_cons_False in Hm by congruence.
      rewrite filter_cons_True by done. by rewrite IH. }
  unfold nl. by rewrite Join_SplitByte.
Qed.

Lemma removeFromSystemCron_absent_task_appends_newline_witness :
  crontab (exec (removeFromSystemCron no_faults 7) host12)
  = crontab host12 +:+ nl.
Proof.
  apply (removeFromSystemCron_absent_task_appends_newline no_faults 7 host12);
    reflexivity.
Defined.

(** X9. The two [crontab] invocations fail independently.  When the
    installation fails the crontab is what it was and one warning is
    logged.  When only the listing fails its error is dropped and what it
    printed before it failed is taken for the crontab: the installed text
    is made of the unmarked lines of that output and the task's line,
    whatever the crontab held before. *)
Theorem updateSystemCron_under_faults f task h :
  let h' := exec (updateSystemCron f task) h in
  manager h' = manager h
  ∧ (∀ e, install_err f = Some e →
       crontab h' = crontab h
       ∧ journal h' = journal h
                      ++ [(WARN, "Failed to update system crontab: %v")])
  ∧ (install_err f = None →
       journal h' = journal h
                    ++ [(INFO, "Updated system crontab for task %d")])
  ∧ (install_err f = None → list_fails f = true →
       crontab h'
       = Join (keep_unmarked (TaskID task) (SplitByte LF (list_stdout f))
               ++ [cronLine task]) nl +:+ nl
       ∧ (list_stdout f = "" → crontab h' = nl +:+ cronLine task +:+ nl)).
Proof.
  intros h'. split; [|split; [|split]].
  - unfold h', updateSystemCron, install_line, exec, bind.
    by destruct (install_err f).
  - intros e Hi. unfold h', updateSystemCron, install_line, exec, bind.
    by rewrite Hi.
  - intros Hi. unfold h', updateSystemCron, install_line, exec, bind.
    by rewrite Hi.
  - intros Hi Hl. unfold h'. rewrite updateSystemCron_crontab by done.
    unfold listed. rewrite Hl. split; [done|]. by intros ->.
Qed.

(** X10. The expression written to the system crontab: a schedule of
    six fields loses its first field (the seconds) and is rewritten with
    single spaces, so that it has exactly the five remaining fields and
    no line feed; any other schedule is written as it is. *)
Theorem cronExpr_drops_seconds task :
  let parts := Fields (ScheduleCron task) in
  (length parts = 6 →
     Fields (cronExpr task) = tail parts
     ∧ length (Fields (cronExpr task)) = 5
     ∧ Contains (cronExpr task) nl = false)
  ∧ (length parts ≠ 6 → cronExpr task = ScheduleCron task).
Proof.
  intros parts. unfold cronExpr. fold parts. split; intros Hlen.
  - rewrite decide_True by done.
    assert (Forall word (tail parts)) as Hw.
    { apply Forall_forall. intros w Hw. apply (Fields_words (ScheduleCron task)).
      fold parts. destruct parts; [done|]. by right. }
    rewrite Fields_Join by done. split; [done|]. split.
    + destruct parts; simpl in *; lia.
    + by apply Join_words_no_LF.
  - by rewrite decide_False.
Qed.

End CrontabProps.

(** * The scheduler and the configured tasks *)
Module ManagerProps.
Import Cron.

Section Manager.
Variable parse_err : string -> option string.

Lemma exec_bind {W A B} (m : M W A) (k : A → M W B) w :
  exec (bind m k) w = exec (k (eval m w)) (exec m w).
Proof. unfold exec, eval, bind. by destruct (m w). Qed.

(** X11. When the engine refuses the schedule of a task, [AddTask] has
    already retired the task's previous trigger and stops there: the job
    table still holds the identifier of the retired trigger, which no live
    trigger carries, the system crontab is not touched (a line installed
    for the task earlier stays), and the only trace is one error line. *)
Theorem AddTask_refused_schedule f task h e :
  parse_err (ScheduleCron task) = Some e →
  let h' := exec (AddTask parse_err f task) h in
  crontab h' = crontab h
  ∧ entries (manager h') = entries (manager h)
  ∧ live (cron (manager h')) = retired (TaskID task) (manager h)
  ∧ (∀ id entry, entries (manager h') !! TaskID task = Some id →
       entry ∈ live (cron (manager h')) → ID entry ≠ id)
  ∧ journal h' = journal h ++ [(ERROR, "Failed to add cron task %d: %v")].
Proof.
  intros He h'.
  assert (crontab h' = crontab h
          ∧ journal h' = journal h
                         ++ [(ERROR, "Failed to add cron task %d: %v")])
    as [Hc Hj].
  { unfold h', AddTask, cron_AddFunc, exec, bind, gets, cron_Remove,
      set_manager, modify, note, ret. rewrite He.
    by destruct (entries (manager h) !! TaskID task). }
  pose proof (CronProps.AddTask_manager parse_err f task h) as Hm.
  fold h' in Hm. rewrite He in Hm. simpl in Hm.
  rewrite Hm. simpl. repeat split; try done.
  intros id entry Hid. unfold retired. rewrite Hid.
  rewrite list_elem_of_filter. tauto.
Qed.

(** The loop body of [LoadTasks]. *)
Lemma scheduled_entries f task h :
  entries (manager (exec
    (when (negb (String.eqb (ScheduleCron task) "")) (AddTask parse_err f task)) h))
  = if decide (ScheduleCron task ≠ "" ∧ parse_err (ScheduleCron task) = None)
    then <[TaskID task := wrap64 (nextID (cron (manager h)) + 1)]>
           (entries (manager h))
    else entries (manager h).
Proof.
  destruct (String.eqb_spec (ScheduleCron task) "") as [Heq|Hne]; simpl.
  - rewrite decide_False by tauto. done.
  - rewrite CronProps.AddTask_manager. simpl.
    destruct (parse_err (ScheduleCron task)) eqn:Hp.
    + rewrite decide_False by (intros [_ ?]; congruence). done.
    + by rewrite decide_True.
Qed.

Lemma scheduled_config f task h :
  config (manager (exec
    (when (negb (String.eqb (ScheduleCron task) "")) (AddTask parse_err f task)) h))
  = config (manager h).
Proof.
  destruct (String.eqb (ScheduleCron task) ""); simpl; [done|].
  rewrite CronProps.AddTask_manager. simpl.
  by destruct (parse_err (ScheduleCron task)).
Qed.

Lemma for_each_job_table (f : Task → Faults) tasks h :
  let body := fun task =>
    when (negb (String.eqb (ScheduleCron task) ""))
      (AddTask parse_err (f task) task) in
  let h' := exec (for_each tasks body) h in
  (∀ id, is_Some (entries (manager h) !! id) →
         is_Some (entries (manager h') !! id))
  ∧ (∀ task, task ∈ tasks → ScheduleCron task ≠ "" →
       parse_err (ScheduleCron task) = None →
       is_Some (entries (manager h') !! TaskID task))
  ∧ (∀ id, (∀ task, task ∈ tasks → TaskID task = id →
              ScheduleCron task = "" ∨ is_Some (parse_err (ScheduleCron task))) →
       entries (manager h') !! id = entries (manager h) !! id)
  ∧ config (manager h') = config (manager h).
Proof.
  intros body. revert h. induction tasks as [|x xs IH]; intros h h'.
  { repeat split; try done. by intros ? ?%elem_of_nil. }
  unfold h'. cbn [for_each]. rewrite exec_bind.
  set (h1 := exec (body x) h).
  destruct (IH h1) as (IH1 & IH2 & IH3 & IH4). clear IH.
  pose proof (scheduled_entries (f x) x h) as He. fold (body x) h1 in He.
  pose proof (scheduled_config (f x) x h) as Hc. fold (body x) h1 in Hc.
  repeat split.
  - intros id Hid. apply IH1. rewrite He. case_decide; [|done].
    destruct (decide (id = TaskID x)) as [->|Hne].
    + by rewrite lookup_insert_eq.
    + by rewrite lookup_insert_ne.
  - intros task [->|Hin]%elem_of_cons Hs Hp; [|by apply IH2].
    apply IH1. rewrite He. rewrite decide_True by done.
    by rewrite lookup_insert_eq.
  - intros id Hid. rewrite IH3.
    + rewrite He. case_decide as Hx; [|done].
      rewrite lookup_insert_ne; [done|]. intros Heq.
      destruct (Hid x) as [Hs|[e Hp]]; [by left|done|tauto|].
      destruct Hx as [_ Hx]. congruence.
    + intros task Hin. apply Hid. by right.
  - by rewrite IH4.
Qed.

(** X12. [LoadTasks] gives every configured task that has a schedule the
    engine accepts an entry in the job table, leaves the table as it was at
    every identifier none of whose configured tasks has such a schedule
    (an empty schedule is skipped, a refused one adds nothing), and does not
    change the configuration. *)
Theorem LoadTasks_job_table f h :
  let h' := exec (LoadTasks parse_err f) h in
  (∀ task, task ∈ Tasks (config (manager h)) → ScheduleCron task ≠ "" →
     parse_err (ScheduleCron task) = None →
     is_Some (entries (manager h') !! TaskID task))
  ∧ (∀ id, (∀ task, task ∈ Tasks (config (manager h)) → TaskID task = id →
              ScheduleCron task = "" ∨ is_Some (parse_err (ScheduleCron task))) →
       entries (manager h') !! id = entries (manager h) !! id)
  ∧ config (manager h') = config (manager h).
Proof.
  intros h'. unfold h', LoadTasks. rewrite exec_bind.
  unfold gets at 1 2. unfold exec at 2. unfold eval. cbn [fst snd].
  destruct (for_each_job_table f (Tasks (config (manager h))) h)
    as (_ & H2 & H3 & H4).
  done.
Qed.

(** X13. A configuration none of whose tasks has a schedule leaves the
    scheduler and the system crontab exactly as they were: [LoadTasks]
    installs no trigger, writes no crontab and logs nothing. *)
Theorem LoadTasks_without_schedules f h :
  (∀ task, task ∈ Tasks (config (manager h)) → ScheduleCron task = "") →
  exec (LoadTasks parse_err f) h = h.
Proof.
  intros Hs. unfold LoadTasks. rewrite exec_bind.
  unfold gets at 1 2. unfold exec at 2. unfold eval. cbn [fst snd].
  induction (Tasks (config (manager h))) as [|x xs IH]; [done|].
  cbn [for_each]. rewrite exec_bind.
  rewrite (Hs x) by (by left). simpl. apply IH.
  intros task Hin. apply Hs. by right.
Qed.

End Manager.

Lemma AddTask_refused_schedule_witness :
  crontab (exec (AddTask (fun _ => Some "bad") no_faults task1) host12)
  = crontab host12.
Proof.
  apply (AddTask_refused_schedule (fun _ => Some "bad") no_faults task1
           host12 "bad").
  reflexivity.
Defined.

Lemma LoadTasks_without_schedules_witness :
  exec (LoadTasks accept_all (fun _ => no_faults))
       (New {| Port := 11540; ServerIP := ""; ServerHostname := "";
               Tasks := [plain_task 3 ""] |} "")
  = New {| Port := 11540; ServerIP := ""; ServerHostname := "";
           Tasks := [plain_task 3 ""] |} "".
Proof.
  apply (LoadTasks_without_schedules accept_all).
  intros task Hin. apply list_elem_of_singleton in Hin. by subst.
Defined.

End ManagerProps.

(** * The ledger across several calls *)
Module LedgerProps.
Import Sys Storage LedgerText.

Lemma mark_uploaded_again name s3 d s3' d' rs :
  mark_uploaded name s3' d' (mark_uploaded name s3 d rs)
  = mark_uploaded name s3' d' rs.
Proof.
  induction rs as [|r rs IH]; [done|]. simpl.
  destruct (decide (ArchiveName r = name)) as [Hr|Hr]; simpl.
  - by rewrite decide_True.
  - rewrite decide_False by done. by rewrite IH.
Qed.

Lemma mark_uploaded_app_absent name s3 d rs r :
  first_match name rs = None →
  mark_uploaded name s3 d (rs ++ [r])
  = rs ++ mark_uploaded name s3 d [r].
Proof.
  induction rs as [|x rs IH]; [done|]. simpl.
  destruct (decide (ArchiveName x = name)); [done|].
  destruct (first_match name rs); [done|]. intros _. by rewrite IH.
Qed.

Lemma mark_uploaded_app_present name s3 d rs r i :
  first_match name rs = Some i →
  mark_uploaded name s3 d (rs ++ [r]) = mark_uploaded name s3 d rs ++ [r].
Proof.
  revert i. induction rs as [|x rs IH]; intros i; [done|]. simpl.
  destruct (decide (ArchiveName x = name)); [done|].
  destruct (first_match name rs) as [j|]; [|done]. intros _.
  by rewrite (IH j).
Qed.

Lemma SaveBackupRecord_ok io record w :
  mkdir_err io = None → write_err io = None →
  SaveBackupRecord io record w
  = (None,
     with_ledger
       (Stored (match read_err io with
                | Some _ => []
                | None => decodable (ledger w)
                end ++ [record]))
       (exec (emit EvWriteLedger) w)).
Proof.
  intros Hm Hw. unfold SaveBackupRecord, WriteFile, read_records, bind, gets.
  rewrite Hm, Hw. simpl.
  by destruct (read_err io), (ledger w).
Qed.

Lemma UpdateBackupRecord_ok io name s3 d w rs :
  read_err io = None → write_err io = None → ledger w = Stored rs →
  UpdateBackupRecord io name s3 d w
  = (None, with_ledger (Stored (mark_uploaded name s3 d rs))
             (exec (emit EvWriteLedger) w)).
Proof.
  intros Hr Hw Hl.
  unfold UpdateBackupRecord, GetBackupRecords, WriteFile, read_records, bind,
    gets.
  by rewrite Hr, Hw, Hl.
Qed.

(** X14. [SaveBackupRecord] appends: when the directory and the write
    succeed, the ledger afterwards holds the records that could be decoded
    from the file followed by the new record, and [GetBackupRecords]
    returns that list without an error.  A file that does not decode is
    not reported: what was decoded before the error is kept, the rest of
    the file is lost; a file that cannot be read counts as empty. *)
Theorem SaveBackupRecord_then_GetBackupRecords io record w :
  mkdir_err io = None → write_err io = None →
  let w' := exec (SaveBackupRecord io record) w in
  let previous :=
    match read_err io with
    | Some _ => []
    | None => decodable (ledger w)
    end in
  eval (SaveBackupRecord io record) w = None
  ∧ ledger w' = Stored (previous ++ [record])
  ∧ (∀ io', read_err io' = None →
       eval (GetBackupRecords io') w' = (previous ++ [record], None)).
Proof.
  intros Hm Hw w' previous. unfold w', exec, eval.
  rewrite SaveBackupRecord_ok by done. simpl. repeat split.
  intros io' Hr. unfold GetBackupRecords, read_records, bind, gets. simpl.
  by rewrite Hr.
Qed.

Lemma SaveBackupRecord_then_GetBackupRecords_witness :
  eval (GetBackupRecords io_ok)
    (exec (SaveBackupRecord io_ok tuesday) (with_ledger mistyped two_runs))
  = ([unfinished; tuesday], None).
Proof.
  apply (SaveBackupRecord_then_GetBackupRecords io_ok tuesday
           (with_ledger mistyped two_runs)); reflexivity.
Defined.

(** X15. [UpdateBackupRecord] on a ledger that cannot be read, or that is
    not there, does not fail: the read error is taken for an empty ledger,
    and the empty list is written, so that whatever the file held is
    replaced by an empty ledger. *)
Theorem UpdateBackupRecord_unreadable_ledger io name s3 d w :
  write_err io = None →
  read_err io ≠ None ∨ ledger w = Absent →
  eval (UpdateBackupRecord io name s3 d) w = None
  ∧ ledger (exec (UpdateBackupRecord io name s3 d) w) = Stored []
  ∧ trace (exec (UpdateBackupRecord io name s3 d) w)
    = trace w ++ [EvWriteLedger].
Proof.
  intros Hw Hr.
  unfold UpdateBackupRecord, GetBackupRecords, WriteFile, read_records, bind,
    gets, exec, eval.
  rewrite Hw. destruct (read_err io) eqn:He; simpl; [done|].
  destruct Hr as [Hr| ->]; done.
Qed.

Lemma UpdateBackupRecord_unreadable_ledger_witness :
  ledger (exec (UpdateBackupRecord
                  {| mkdir_err := None; read_err := Some "input/output error";
                     write_err := None |}
                  "10.0.0.5_data_5.tar.gz" "s3://backups/x" 7) two_runs)
  = Stored [].
Proof.
  apply (UpdateBackupRecord_unreadable_ledger
           {| mkdir_err := None; read_err := Some "input/output error";
              write_err := None |}
           "10.0.0.5_data_5.tar.gz" "s3://backups/x" 7 two_runs);
    [reflexivity | left; discriminate].
Defined.

(** X16. Of two updates for the same archive name the later one decides:
    the ledger after both is the ledger after the later one alone, the
    same record being rewritten.  In particular an update repeated with
    the same arguments changes nothing more. *)
Theorem UpdateBackupRecord_later_update_wins io io' name s3 d s3' d' w :
  read_err io = None → write_err io = None →
  read_err io' = None → write_err io' = None →
  ledger (exec (UpdateBackupRecord io' name s3' d')
            (exec (UpdateBackupRecord io name s3 d) w))
  = ledger (exec (UpdateBackupRecord io' name s3' d') w).
Proof.
  intros Hr Hw Hr' Hw'.
  unfold UpdateBackupRecord, GetBackupRecords, WriteFile, read_records, bind,
    gets, exec.
  rewrite Hr, Hw. destruct (ledger w) as [|rs|dec err] eqn:Hl; simpl;
    rewrite ?Hr', ?Hw', ?Hl; simpl; rewrite ?Hr', ?Hw', ?Hl; simpl; try done.
  by rewrite mark_uploaded_again.
Qed.

Lemma UpdateBackupRecord_later_update_wins_witness :
  ledger (exec (UpdateBackupRecord io_ok "10.0.0.5_data_5.tar.gz" "s3://b/y" 9)
            (exec (UpdateBackupRecord io_ok "10.0.0.5_data_5.tar.gz" "s3://b/x" 7)
               two_runs))
  = ledger (exec (UpdateBackupRecord io_ok "10.0.0.5_data_5.tar.gz" "s3://b/y" 9)
              two_runs).
Proof.
  apply (UpdateBackupRecord_later_update_wins io_ok io_ok); reflexivity.
Defined.

(** X17. The save and the update of one run, composed.  When no record
    already in the ledger has the archive name, the update marks the
    record the run saved.  When an earlier record has the name (two runs of
    one source within the same second), the update marks that earlier
    record and the record just saved stays as it was saved. *)
Theorem save_then_update io io' record s3 d w rs :
  mkdir_err io = None → read_err io = None → write_err io = None →
  read_err io' = None → write_err io' = None →
  ledger w = Stored rs →
  let w' := exec (UpdateBackupRecord io' (ArchiveName record) s3 d)
              (exec (SaveBackupRecord io record) w) in
  (first_match (ArchiveName record) rs = None →
     ledger w' = Stored (rs ++ [uploaded s3 d record]))
  ∧ (∀ i, first_match (ArchiveName record) rs = Some i →
       ledger w' = Stored (mark_uploaded (ArchiveName record) s3 d rs
                           ++ [record])).
Proof.
  intros Hm Hr Hw Hr' Hw' Hl w'.
  assert (ledger w' = Stored (mark_uploaded (ArchiveName record) s3 d
                                (rs ++ [record]))) as ->.
  { unfold w'. unfold exec at 2. rewrite SaveBackupRecord_ok by done.
    rewrite Hr, Hl. simpl. unfold exec.
    by erewrite UpdateBackupRecord_ok. }
  split.
  - intros Hn. rewrite mark_uploaded_app_absent by done. simpl.
    by rewrite decide_True.
  - intros i Hi. by rewrite (mark_uploaded_app_present _ _ _ _ _ i).
Qed.

Lemma save_then_update_witness :
  ledger (exec (UpdateBackupRecord io_ok (ArchiveName monday) "s3://b/z" 9)
            (exec (SaveBackupRecord io_ok monday) two_runs))
  = Stored [uploaded "s3://b/z" 9 monday; tuesday; monday].
Proof.
  refine (proj2 (save_then_update io_ok io_ok monday "s3://b/z" 9 two_runs
                   [monday; tuesday] _ _ _ _ _ _) 0%nat _); reflexivity.
Defined.

End LedgerProps.

(** * More on the runs of the pipeline *)
Module PipelineProps.
Import Sys Storage Backup Frame FrameProps BackupProps Pipeline.

#[global] Instance trace_only_preorder : Preorder trace_only.
Proof.
  split.
  - by intros w.
  - intros a b c (H1 & H2 & H3 & H4) (H5 & H6 & H7 & H8).
    repeat split; congruence.
Qed.

Lemma trace_only_emit e : keeps trace_only (emit e).
Proof. by intros w. Qed.

Lemma trace_only_logf lvl format : keeps trace_only (logf lvl format).
Proof. by intros w. Qed.

Ltac trace_only_go :=
  repeat first
    [ solve [auto 2]
    | apply trace_only_logf
    | apply trace_only_emit
    | frame_step ].

Lemma trace_only_compose_down p task : keeps trace_only (compose_down p task).
Proof. unfold compose_down, Run. trace_only_go. Qed.

Lemma trace_only_compose_up p task : keeps trace_only (compose_up p task).
Proof. unfold compose_up, Run. trace_only_go. Qed.

Lemma trace_only_guard (m : M World unit) b :
  keeps trace_only m → keeps trace_only (when b m).
Proof. intros Hm. by apply keeps_when; [apply _|]. Qed.

Lemma unguarded_ExecuteBackup p task ip w :
  guarded task = false →
  ExecuteBackup p task ip w = run_backup p task ip w.
Proof.
  intros Hg. unfold ExecuteBackup. rewrite Hg. unfold when, bind, ret.
  by destruct (run_backup p task ip w).
Qed.

(** X18. The commands of a run.  Every command [ExecuteBackup] runs is
    one of the four [docker compose] commands on the task's compose file
    (down and up, each in the new and in the legacy spelling); a task that
    is not a compose project, or has no compose path, runs no command at
    all, and its run is the plain body. *)
Theorem ExecuteBackup_commands p task ip w :
  Forall (fun e => run_event e → compose_command task e)
         (emitted (ExecuteBackup p task ip) w)
  ∧ (IsDockerCompose task = false ∨ DockerComposePath task = "" →
     Forall (fun e => ¬ run_event e) (emitted (ExecuteBackup p task ip) w)
     ∧ ExecuteBackup p task ip w = run_backup p task ip w).
Proof.
  split.
  - apply emitted_quiet.
    set (Q := fun e => run_event e → compose_command task e).
    assert (Hlog : ∀ lvl format, pipeline_line lvl format → Q (EvLog lvl format))
      by (by intros ?? _ ?).
    assert (Hlocal : ∀ e, local_event e → Q e) by (by intros [] ? ?).
    assert (Hstore : ∀ e, store_event e → Q e) by (by intros [] ? ?).
    unfold ExecuteBackup.
    apply keeps_bind; [apply _| |intros _].
    + apply keeps_when; [apply _|]. apply quiet_compose_down; [done|].
      intros legacy _. exists legacy, ["down"]. by split; [|left].
    + apply keeps_bind; [apply _| |intros returned].
      * by apply quiet_run_backup.
      * apply keeps_bind; [apply _| |intros _; apply keeps_ret; apply _].
        apply keeps_when; [apply _|]. apply quiet_compose_up; [done|].
        intros legacy _. exists legacy, ["up"; "-d"]. by split; [|right].
  - intros Hg.
    assert (guarded task = false) as Hg'.
    { unfold guarded. destruct Hg as [-> | ->]; [done|].
      rewrite bool_decide_eq_false_2 by (by intros ?).
      by rewrite andb_false_r. }
    split; [|by apply unguarded_ExecuteBackup].
    apply emitted_quiet.
    set (Q := fun e => ¬ run_event e).
    assert (Hlog : ∀ lvl format, pipeline_line lvl format → Q (EvLog lvl format))
      by (by intros ?? _ ?).
    assert (Hlocal : ∀ e, local_event e → Q e) by (by intros [] ? ?).
    assert (Hstore : ∀ e, store_event e → Q e) by (by intros [] ? ?).
    intros w0. unfold exec. rewrite unguarded_ExecuteBackup by done.
    by apply quiet_run_backup.
Qed.

(** ** A run without archive *)

Lemma keeps_bind_ret {A B} (R : World → World → Prop) (a : A)
    (k : A → M World B) :
  keeps R (k a) → keeps R (bind (ret a) k).
Proof. intros Hk w. apply (Hk w). Qed.

Lemma no_archive_path (n : Z) :
  bool_decide (ArchivePath (with_FilesCount n empty_result) ≠ "") = false.
Proof. by apply bool_decide_eq_false_2; intros H. Qed.

(** The body of a run without archive, for a relation that the directory
    upload, the cleanup and the log keep. *)
Lemma direct_run_keeps R `{!Preorder R} p task ip :
  CreateArchive task = false →
  (∀ path, keeps R (uploadDirectoryToS3 p task path)) →
  keeps R (cleanupOldBackups p task) →
  (∀ lvl format, pipeline_line lvl format → keeps R (logf lvl format)) →
  keeps R (run_backup p task ip).
Proof.
  intros Hc Hup Hcl Hlog. unfold run_backup, archive_step. rewrite Hc.
  apply keeps_bind_ret. cbv beta iota.
  apply keeps_bind; [done| |].
  - unfold upload_step. rewrite no_archive_path.
    destruct (_ && _); [|by apply keeps_ret].
    apply keeps_bind; [done|apply Hup|]. intros [s3 [e|]]; by apply keeps_ret.
  - intros [returned|result]; [by apply keeps_ret|].
    apply keeps_bind; [done| |intros _; by apply keeps_ret].
    unfold cleanup_step. destruct (CleanupEnabled task); [|by apply keeps_ret].
    apply keeps_bind; [done|done|]. intros [e|]; [|by apply keeps_ret].
    apply Hlog. line_ok.
Qed.

Lemma direct_run_result p task ip :
  CreateArchive task = false →
  returns (fun out : Returned =>
             ArchivePath out.1 = "" ∧ ArchiveSize out.1 = 0%Z
             ∧ FilesCount out.1 = Fs.countFiles (source p))
    (run_backup p task ip).
Proof.
  intros Hc w. unfold eval.
  destruct (run_backup p task ip w) as [out w'] eqn:Hrun.
  unfold run_backup, archive_step in Hrun. rewrite Hc in Hrun.
  unfold bind at 1 in Hrun. unfold ret at 1 in Hrun. cbv beta iota in Hrun.
  unfold upload_step in Hrun. rewrite no_archive_path in Hrun.
  destruct (_ && _).
  - unfold bind at 1 2 in Hrun.
    destruct (uploadDirectoryToS3 p task (Config.SourcePath task) w)
      as [[s3 [e|]] w1]; unfold ret at 1 in Hrun; cbv beta iota in Hrun.
    + by injection Hrun as <- <-.
    + unfold bind in Hrun. destruct (cleanup_step p task w1).
      by injection Hrun as <- <-.
  - unfold bind, ret in Hrun. destruct (cleanup_step p task w).
    by injection Hrun as <- <-.
Qed.

(** X19. A run without archive ([CreateArchive] false) leaves the ledger
    and the local files as they are and attempts neither a ledger write
    nor the removal of a file, whatever fails; the result it returns (with
    or without an error) names no archive, has size 0 and carries the
    number of files counted in the source. *)
Theorem run_without_archive_is_not_local p task ip w :
  CreateArchive task = false →
  let out := eval (ExecuteBackup p task ip) w in
  let w' := exec (ExecuteBackup p task ip) w in
  ledger w' = ledger w ∧ files w' = files w
  ∧ Forall (fun e => ¬ local_event e) (emitted (ExecuteBackup p task ip) w)
  ∧ ArchivePath out.1 = "" ∧ ArchiveSize out.1 = 0%Z
  ∧ FilesCount out.1 = Fs.countFiles (source p).
Proof.
  intros Hc out w'.
  assert (keeps local_kept (ExecuteBackup p task ip)) as Hl.
  { unfold ExecuteBackup.
    apply keeps_bind; [apply _| |intros _].
    - apply keeps_when; [apply _|]. apply local_compose_down.
    - apply keeps_bind; [apply _| |intros returned].
      + apply direct_run_keeps; [apply _|done|..].
        * apply local_uploadDirectoryToS3.
        * apply local_cleanupOldBackups.
        * intros. apply local_logf.
      + apply keeps_bind; [apply _| |intros _; apply keeps_ret; apply _].
        apply keeps_when; [apply _|]. apply local_compose_up. }
  set (Q := fun e => ¬ local_event e).
  assert (Hlog : ∀ lvl format, pipeline_line lvl format → Q (EvLog lvl format))
    by (by intros ?? _ ?).
  assert (Hstore : ∀ e, store_event e → Q e) by (by intros [] ? ?).
  assert (keeps (quiet Q) (ExecuteBackup p task ip)) as Hq.
  { unfold ExecuteBackup.
    apply keeps_bind; [apply _| |intros _].
    - apply keeps_when; [apply _|]. apply quiet_compose_down; [done|].
      by intros legacy ?.
    - apply keeps_bind; [apply _| |intros returned].
      + apply direct_run_keeps; [apply _|done|..].
        * intros path. by apply quiet_uploadDirectoryToS3.
        * apply quiet_cleanupOldBackups; [done|]. by intros [] ? ?.
        * intros. by apply quiet_logf, Hlog.
      + apply keeps_bind; [apply _| |intros _; apply keeps_ret; apply _].
        apply keeps_when; [apply _|]. apply quiet_compose_up; [done|].
        by intros legacy ?. }
  destruct (Hl w) as [H1 H2]. split; [done|]. split; [done|].
  split; [by apply emitted_quiet|].
  unfold out, eval, ExecuteBackup, bind.
  destruct (when (guarded task) (compose_down p task) w) as [[] w0].
  pose proof (direct_run_result p task ip Hc w0) as Hr. unfold eval in Hr.
  destruct (run_backup p task ip w0) as [returned w1].
  by destruct (when (guarded task) (compose_up p task) w1) as [[] w2].
Qed.

Lemma run_without_archive_is_not_local_witness :
  ledger (exec (ExecuteBackup calm mirror "10.0.0.5") fresh) = ledger fresh.
Proof.
  apply (run_without_archive_is_not_local calm mirror "10.0.0.5" fresh).
  reflexivity.
Defined.

(** ** The objects of a directory upload *)

Lemma FPutObject_trace p bucket key path w :
  trace (exec (FPutObject p bucket key path) w)
  = trace w ++ [EvFPutObject bucket key path].
Proof.
  unfold FPutObject, exec, bind, emit, modify, gets, ret. simpl.
  destruct (put_err p key); [done|].
  by destruct (buckets w !! bucket).
Qed.

Lemma regular_paths_length n : ∀ rel,
  length (regular_paths rel n) = Fs.regular_files n.
Proof.
  induction n as [err|regular size|read_err children IH]
    using FsProps.Node_forall_ind; intros rel; [done|by destruct regular|].
  destruct read_err as [e|]; [done|]. simpl.
  induction IH as [|[name ch] cs Hch _ IHcs]; [done|].
  simpl in Hch. rewrite length_app, (Hch (rel ++ [name])).
  simpl in IHcs. by rewrite IHcs.
Qed.

(** The walk of [uploadDirectoryToS3] only uploads, and when it ends
    without error it has uploaded every regular file of the tree, in the
    order of the walk, from its path below the source to the key made of
    the prefix and its path relative to the source. *)
Lemma Walk_upload_entry p task src prefix n :
  ∀ rel w,
    let '(err, w') := Fs.Walk (upload_entry p task src prefix) rel n w in
    ∃ t, trace w' = trace w ++ t
         ∧ (err = None →
            t = (fun rel => EvFPutObject (S3Bucket task)
                              (prefix +:+ "/" +:+ Fs.Rel rel)
                              (walk_path src rel))
                <$> regular_paths rel n).
Proof.
  induction n as [err|regular size|read_err children IH]
    using FsProps.Node_forall_ind; intros rel w.
  - exists []. simpl. by rewrite app_nil_r.
  - destruct regular; simpl.
    + pose proof (FPutObject_trace p (S3Bucket task)
                    (prefix +:+ "/" +:+ Fs.Rel rel) (walk_path src rel) w) as Ht.
      unfold exec, bind in *.
      destruct (FPutObject p (S3Bucket task) (prefix +:+ "/" +:+ Fs.Rel rel)
                  (walk_path src rel) w) as [[e|] w1]; simpl in *;
        eexists; (split; [exact Ht|done]).
    + exists []. by rewrite app_nil_r.
  - simpl. unfold bind at 1. destruct read_err as [e|].
    + exists []. simpl. by rewrite app_nil_r.
    + change (upload_entry p task src prefix rel (Some Fs.info_of_dir) None w)
        with (@None string, w).
      cbv beta iota.
      revert w. induction IH as [|[name ch] cs Hch _ IHcs]; intros w.
      * exists []. simpl. by rewrite app_nil_r.
      * simpl in Hch. unfold bind at 1.
        specialize (Hch (rel ++ [name]) w).
        destruct (Fs.Walk (upload_entry p task src prefix) (rel ++ [name]) ch w)
          as [[e|] w1].
        -- destruct Hch as (t & Ht & _). exists t. by split.
        -- destruct Hch as (t1 & Ht1 & Hn1).
           specialize (IHcs w1).
           match goal with
           | |- context [?entries cs w1] =>
               destruct (entries cs w1) as [err2 w2]
           end.
           destruct IHcs as (t2 & Ht2 & Hn2).
           exists (t1 ++ t2). rewrite Ht2, Ht1, app_assoc.
           split; [done|].
           intros Hn. rewrite fmap_app, Hn1, Hn2 by done. done.
Qed.

Lemma ensure_bucket_clock p task w :
  clock (exec (ensure_bucket p task) w) = clock w.
Proof.
  unfold ensure_bucket, BucketExists, MakeBucket, exec, bind, emit, modify,
    gets, ret. simpl.
  destruct (bucket_exists_err p); [done|]. simpl.
  destruct (buckets w !! S3Bucket task) eqn:Hb; simpl; [done|].
  destruct (make_bucket_err p); rewrite ?Hb; done.
Qed.

(** X20. A directory upload that succeeds has uploaded every regular
    file of the source tree, in the order of the walk and nothing else,
    between the bucket check and the final log line: the file at the path
    [Walk] composes for it below the source, to the task's bucket, under
    the key "base_timestamp/relative path".  The returned path names that
    prefix, and the number of uploads is the number of regular files of
    the tree. *)
Theorem directory_upload_puts_every_regular_file p task src w s3 :
  eval (uploadDirectoryToS3 p task src) w = (s3, None) →
  let prefix := Base src +:+ "_" +:+ format_time p (clock w) in
  let puts :=
    (fun rel => EvFPutObject (S3Bucket task)
                  (prefix +:+ "/" +:+ Fs.Rel rel) (walk_path src rel))
    <$> regular_paths [] (source p) in
  ∃ checks,
    emitted (uploadDirectoryToS3 p task src) w
    = EvLog INFO "Uploading directory to S3: %s/%s" :: checks ++ puts
      ++ [EvLog INFO "Successfully uploaded directory to %s"]
    ∧ Forall bucket_event checks
    ∧ length puts = Fs.regular_files (source p)
    ∧ s3 = "s3://" +:+ S3Bucket task +:+ "/" +:+ prefix +:+ "/".
Proof.
  intros Hok prefix puts.
  assert (length puts = Fs.regular_files (source p)) as Hlen
    by (unfold puts; by rewrite length_fmap, regular_paths_length).
  unfold puts, prefix in *. clear puts prefix.
  unfold emitted, eval, exec, uploadDirectoryToS3 in *.
  unfold bind at 1 in Hok. unfold bind at 1.
  unfold logf, emit, modify in *. cbv beta iota in *.
  destruct (minio_New p task); [discriminate|].
  set (w0 := {| ledger := ledger w; files := files w; buckets := buckets w;
                clock := clock w;
                trace := trace w ++ [EvLog INFO "Uploading directory to S3: %s/%s"] |})
    in *.
  unfold bind at 1 in Hok. unfold bind at 1.
  destruct (ensure_bucket_trace p task w0) as (mk & Hmk & Hshape & _).
  pose proof (ensure_bucket_clock p task w0) as Hclock.
  unfold exec in Hmk, Hclock.
  destruct (ensure_bucket p task w0) as [[e|] w1]; [discriminate|].
  simpl in Hmk, Hclock.
  unfold bind at 1 in Hok. unfold bind at 1.
  unfold time_Now at 1 in Hok. unfold time_Now at 1.
  cbv beta iota in *.
  unfold bind at 1 in Hok. unfold bind at 1.
  match type of Hok with
  | context [Fs.Walk ?fn [] (source p) ?w1'] =>
      pose proof (Walk_upload_entry p task src
                    (Base src +:+ "_" +:+ format_time p (clock w1))
                    (source p) [] w1') as Hwalk;
      destruct (Fs.Walk fn [] (source p) w1') as [[e|] w2]
  end; [discriminate|].
  destruct Hwalk as (t & Ht & Hput). simpl in Ht.
  specialize (Hput eq_refl). subst t.
  unfold bind, ret in *. simpl in *.
  injection Hok as <-. rewrite Hclock in *.
  exists (EvBucketExists (S3Bucket task) :: mk).
  rewrite Ht, Hmk. rewrite <- !app_assoc. rewrite drop_app_length.
  split; [done|]. split; [|done].
  constructor; [done|]. by destruct Hshape as [-> | ->]; repeat constructor.
Qed.

Lemma directory_upload_puts_every_regular_file_witness :
  ∃ checks,
    emitted (uploadDirectoryToS3 calm mirror "/srv/www") fresh
    = EvLog INFO "Uploading directory to S3: %s/%s" :: checks
      ++ [EvFPutObject "mirror" "www_1700000000/a.txt" "/srv/www/a.txt";
          EvFPutObject "mirror" "www_1700000000/sub/b.txt"
            "/srv/www/sub/b.txt"]
      ++ [EvLog INFO "Successfully uploaded directory to %s"].
Proof.
  destruct (directory_upload_puts_every_regular_file calm mirror "/srv/www"
              fresh "s3://mirror/www_1700000000/") as (checks & H & _).
  { vm_compute. reflexivity. }
  exists checks. exact H.
Defined.

(** ** The archive file *)

(** [createArchive] once the file is created: the archive file is there
    with its final size whether the walk fails or not. *)
Lemma createArchive_created p src fmt ip w :
  create_err p = None →
  createArchive p src fmt ip w =
  let name := archive_name_at p src fmt ip (clock w) in
  let path := archive_path name in
  (match (eval (createArchive p src fmt ip) w).2 with
   | Some e => ("", "", Some e)
   | None => (path, name, None)
   end,
   {| ledger := ledger w; files := <[path := archive_size p]> (files w);
      buckets := buckets w; clock := (clock w + 1)%Z;
      trace := trace w ++ [EvLog INFO "Creating archive: %s from %s"] |}).
Proof.
  intros Hc.
  assert (∃ err,
    createArchive p src fmt ip w =
    (match err with
     | Some e => ("", "", Some e)
     | None => (archive_path (archive_name_at p src fmt ip (clock w)),
                archive_name_at p src fmt ip (clock w), None)
     end,
     {| ledger := ledger w;
        files := <[archive_path (archive_name_at p src fmt ip (clock w))
                   := archive_size p]> (files w);
        buckets := buckets w; clock := (clock w + 1)%Z;
        trace := trace w ++ [EvLog INFO "Creating archive: %s from %s"] |}))
    as [err Heq].
  { unfold createArchive, archive_path, archive_name_at.
    unfold bind at 1 2. unfold time_Now.
    unfold bind at 1. unfold logf, emit, modify at 1. rewrite Hc.
    unfold bind at 1. unfold write_file at 1, modify at 1.
    unfold bind at 1.
    match goal with
    | |- context [Fs.Walk (archive_entry p) [] (source p) ?w0] =>
        pose proof (Walk_archive_entry p [] (source p) w0) as Hw;
        unfold exec in Hw;
        destruct (Fs.Walk (archive_entry p) [] (source p) w0) as [err w']
    end.
    simpl in Hw. subst w'. exists err.
    unfold bind, write_file, modify, with_files, ret. simpl.
    rewrite insert_insert_eq. by destruct err. }
  unfold eval. rewrite Heq. cbv zeta. by destruct err.
Qed.

Lemma archive_step_failed p task ip r0 w0 e :
  CreateArchive task = true → create_err p = None →
  (eval (createArchive p (Config.SourcePath task) (ArchiveFormat task) ip) w0).2
  = Some e →
  archive_step p task ip r0 w0 =
  (inl (with_Error ("Failed to create archive: " +:+ e) r0, Some e),
   {| ledger := ledger w0;
      files := <[archive_path (archive_name_at p (Config.SourcePath task)
                                 (ArchiveFormat task) ip (clock w0))
                 := archive_size p]> (files w0);
      buckets := buckets w0; clock := (clock w0 + 1)%Z;
      trace := trace w0 ++ [EvLog INFO "Creating archive: %s from %s"] |}).
Proof.
  intros Hc Hcr He. unfold archive_step. rewrite Hc. unfold bind at 1.
  rewrite createArchive_created by done. cbv zeta. by rewrite He.
Qed.

Lemma guard_down p task w :
  let w0 := exec (when (guarded task) (compose_down p task)) w in
  trace_only w w0
  ∧ ∃ t, trace w0 = trace w ++ t
         ∧ Forall (fun e => ¬ local_event e ∧ ¬ store_event e) t.
Proof.
  intros w0. split.
  - apply trace_only_guard, trace_only_compose_down.
  - assert (keeps (quiet (fun e => ¬ local_event e ∧ ¬ store_event e))
              (when (guarded task) (compose_down p task))) as Hk.
    { apply keeps_when; [apply _|].
      apply quiet_compose_down; [|by intros legacy; split; intros ?].
      by intros lvl format _; split; intros ?. }
    exact (Hk w).
Qed.

Lemma guard_up p task w :
  let w' := exec (when (guarded task) (compose_up p task)) w in
  trace_only w w'
  ∧ ∃ t, trace w' = trace w ++ t
         ∧ Forall (fun e => ¬ local_event e ∧ ¬ store_event e) t.
Proof.
  intros w0. split.
  - apply trace_only_guard, trace_only_compose_up.
  - assert (keeps (quiet (fun e => ¬ local_event e ∧ ¬ store_event e))
              (when (guarded task) (compose_up p task))) as Hk.
    { apply keeps_when; [apply _|].
      apply quiet_compose_up; [|by intros legacy; split; intros ?].
      by intros lvl format _; split; intros ?. }
    exact (Hk w).
Qed.

(** X21. When the archive file has been created and the build then
    fails, the run returns the error of the build with an empty result (no
    archive path), and the partly written archive stays where it was
    created, at [filepath.Join("/tmp", name)] for the archive name
    composed when the build started: the local files afterwards are
    those before plus the archive file, nothing removes it, no ledger
    record mentions it, and the object store is not contacted. *)
Theorem failed_build_leaves_archive_file p task ip w e :
  CreateArchive task = true → create_err p = None →
  build_failure p task ip w = Some e →
  let w' := exec (ExecuteBackup p task ip) w in
  let path := filepath_Join ["/tmp";
                             archive_name_at p (Config.SourcePath task)
                               (ArchiveFormat task) ip (clock w)] in
  eval (ExecuteBackup p task ip) w
  = (with_Error ("Failed to create archive: " +:+ e) empty_result, Some e)
  ∧ files w' = <[path := archive_size p]> (files w)
  ∧ ledger w' = ledger w ∧ buckets w' = buckets w
  ∧ Forall (fun e => ¬ local_event e ∧ ¬ store_event e)
           (emitted (ExecuteBackup p task ip) w).
Proof.
  intros Hc Hcr Hb w' path.
  unfold build_failure in Hb. rewrite Hc in Hb.
  unfold w', emitted, eval, exec. rewrite ExecuteBackup_unfold, until_upload_eq.
  destruct (guard_down p task w) as ((Hl0 & Hf0 & Hb0 & Hc0) & t0 & Ht0 & Hq0).
  set (w0 := exec (when (guarded task) (compose_down p task)) w) in *.
  rewrite (archive_step_failed p task ip empty_result w0 e) by done.
  match goal with
  | |- context [exec (when (guarded task) (compose_up p task)) ?w1] =>
      destruct (guard_up p task w1) as ((Hl1 & Hf1 & Hb1 & Hc1) & t1 & Ht1 & Hq1);
      set (w2 := exec (when (guarded task) (compose_up p task)) w1) in *
  end.
  simpl in *. split; [done|].
  unfold path. rewrite Hf1, Hl1, Hb1, Hf0, Hl0, Hb0, Hc0.
  repeat split; try done.
  rewrite Ht1, Ht0, <- !app_assoc, drop_app_length.
  apply Forall_app. split; [done|]. constructor; [|done].
  by split; intros ?.
Qed.

Lemma failed_build_leaves_archive_file_witness :
  files (exec (ExecuteBackup torn nightly "10.0.0.5") fresh)
  = <["/tmp/10.0.0.5_data_1700000000.tar.gz" := archive_size torn]>
      (files fresh).
Proof.
  apply (failed_build_leaves_archive_file torn nightly "10.0.0.5" fresh
           "write /tmp/archive: no space left on device");
    vm_compute; reflexivity.
Defined.

(** ** A run without destination *)

Section Sharper.
Variable Q : Event → Prop.
Hypothesis Hlog : ∀ lvl format, pipeline_line lvl format → Q (EvLog lvl format).

(** The archive step only logs and writes the ledger. *)
Lemma quiet_archive_step_ledger p task ip result :
  (∀ e, ledger_event e → Q e) →
  keeps (quiet Q) (archive_step p task ip result).
Proof.
  intros Hledger.
  unfold archive_step, createArchive, archive_entry, write_file,
    SaveBackupRecord, WriteFile, GetBackupRecords, os_Stat.
  quiet_go.
Qed.

(** The cleanup step only logs, lists and removes objects. *)
Lemma quiet_cleanup_step_sweep p task :
  (∀ e, sweep_event e → Q e) →
  keeps (quiet Q) (cleanup_step p task).
Proof.
  intros Hsweep.
  unfold cleanup_step, cleanupOldBackups, sweep_object, ListObjects,
    RemoveObject.
  quiet_go.
Qed.

End Sharper.

Lemma local_cleanup_step p task : keeps local_kept (cleanup_step p task).
Proof.
  pose proof (local_cleanupOldBackups p task). unfold cleanup_step. local_go.
Qed.

Lemma upload_step_no_destination p task result name w :
  S3Endpoint task = "" ∨ S3Bucket task = "" →
  upload_step p task result name w = (inr result, w).
Proof.
  intros Hd. unfold upload_step.
  assert (bool_decide (S3Endpoint task ≠ "") && bool_decide (S3Bucket task ≠ "")
          = false) as ->; [|done].
  destruct Hd as [-> | ->].
  - by rewrite bool_decide_eq_false_2 by (by intros ?).
  - rewrite (bool_decide_eq_false_2 ("" ≠ "")) by (by intros ?).
    by rewrite andb_false_r.
Qed.

Lemma archive_step_S3Path p task ip r0 w0 :
  match archive_step p task ip r0 w0 with
  | (inl (r, _), _) | (inr (r, _), _) => S3Path r = S3Path r0
  end.
Proof.
  assert (returns (fun a => match a with
                            | inl (r, _) | inr (r, _) => S3Path r = S3Path r0
                            end) (archive_step p task ip r0)) as Hr.
  { unfold archive_step. destruct (CreateArchive task); [|by apply returns_ret].
    apply returns_bind. intros [[path name] [e|]]; [by apply returns_ret|].
    do 4 (apply returns_bind; intros ?).
    apply (returns_bind_with (fun r => S3Path r = S3Path r0));
      [returns_go; done|intros r Hr; by apply returns_ret]. }
  specialize (Hr w0). unfold eval in Hr.
  by destruct (archive_step p task ip r0 w0) as [[[r err]|[r n]] w1].
Qed.

(** X22. A run for a task without destination (no endpoint or no bucket)
    uploads nothing: it makes no bucket check, creates no bucket, uploads
    no object and removes no local file, and its result has no object
    path.  When it has built an archive it still reports success, and the
    archive stays under the path of the result,
    [filepath.Join("/tmp", name)], its ledger record (when the save
    succeeded) being the last one, under the name [name] and in state
    "creating". *)
Theorem run_without_destination_keeps_archive p task ip w :
  S3Endpoint task = "" ∨ S3Bucket task = "" →
  let out := eval (ExecuteBackup p task ip) w in
  let w' := exec (ExecuteBackup p task ip) w in
  Forall upload_free (emitted (ExecuteBackup p task ip) w)
  ∧ S3Path out.1 = ""
  ∧ (CreateArchive task = true → out.2 = None →
     Success out.1 = true
     ∧ files w' !! ArchivePath out.1 = Some (archive_size p)
     ∧ (mkdir_err (save_io p) = None → write_err (save_io p) = None →
        ∃ earlier name now,
          ArchivePath out.1 = filepath_Join ["/tmp"; name]
          ∧ ledger w' = Stored (earlier ++ [creating_record task name now]))).
Proof.
  intros Hd out w'.
  assert (Hlog : ∀ lvl format,
            pipeline_line lvl format → upload_free (EvLog lvl format)) by done.
  assert (Hup : ∀ w1, Forall upload_free
                        (emitted (when (guarded task) (compose_up p task)) w1)).
  { intros w1. apply emitted_quiet. apply keeps_when; [apply _|].
    by apply quiet_compose_up. }
  split.
  { rewrite emitted_ExecuteBackup. apply Forall_app. split.
    - apply emitted_quiet. unfold until_upload.
      apply keeps_bind; [apply _| |intros _].
      + apply keeps_when; [apply _|]. by apply quiet_compose_down.
      + apply quiet_archive_step_ledger; [done|by intros []].
    - destruct (until_upload p task ip w) as [[returned|[result name]] w1];
        [done|].
      rewrite upload_step_no_destination by done.
      apply Forall_app. split.
      + unfold emitted, exec. rewrite upload_step_no_destination by done.
        simpl. by rewrite drop_all.
      + apply Forall_app. split; [|done].
        apply emitted_quiet. apply quiet_cleanup_step_sweep; [done|].
        by intros []. }
  unfold out, w', eval, exec. rewrite ExecuteBackup_unfold, until_upload_eq.
  set (w0 := exec (when (guarded task) (compose_down p task)) w).
  pose proof (archive_step_S3Path p task ip empty_result w0) as Hs.
  pose proof (archive_step_outcome p task ip empty_result w0) as Ho.
  destruct (archive_step p task ip empty_result w0)
    as [[[r err]|[result name]] w1] eqn:Ha.
  - simpl. split; [done|]. intros _ He.
    destruct Ho as (_ & _ & Hne & _). simpl in He. congruence.
  - rewrite upload_step_no_destination by done. simpl.
    split; [done|]. intros Hc _. split; [done|].
    destruct (archive_step_built p task ip empty_result w0 result name w1 Hc Ha)
      as (Hp & Hf & Hl).
    destruct (local_cleanup_step p task w1) as [Hl2 Hf2].
    destruct (guard_up p task (exec (cleanup_step p task) w1))
      as ((Hl3 & Hf3 & _) & _).
    unfold exec in *. rewrite Hf3, Hf2, Hl3, Hl2, Hp.
    split; [done|]. intros Hm Hw.
    destruct (Hl Hm Hw) as (earlier & now & Hled).
    by exists earlier, name, now.
Qed.

Lemma run_without_destination_keeps_archive_witness :
  Forall upload_free
    (emitted (ExecuteBackup calm (Cron.plain_task 3 "") "10.0.0.5") fresh).
Proof.
  apply (run_without_destination_keeps_archive calm (Cron.plain_task 3 "")
           "10.0.0.5" fresh).
  left. reflexivity.
Defined.

(** ** The sweep of the cleanup *)

Lemma for_each_sweep p task cutoffTime (l : list (string * Z)) :
  ∀ w cur,
    buckets w !! S3Bucket task = Some cur →
    let w' := exec (for_each
                      ((fun kv => {| Key := kv.1; LastModified := kv.2;
                                     Err := None |}) <$> l)
                      (sweep_object p task cutoffTime)) w in
    buckets w'
    = <[S3Bucket task := foldl (sweep_one p cutoffTime) cur l]> (buckets w)
    ∧ ledger w' = ledger w ∧ files w' = files w ∧ clock w' = clock w.
Proof.
  induction l as [|[key t] l IH]; intros w cur Hb w'.
  - unfold w'. simpl. by rewrite insert_id.
  - unfold w'. rewrite fmap_cons. cbn [for_each].
    rewrite ManagerProps.exec_bind. cbv beta. cbn [fst snd foldl].
    set (w1 := exec (sweep_object p task cutoffTime
                       {| Key := key; LastModified := t; Err := None |}) w).
    assert (buckets w1
            = <[S3Bucket task := sweep_one p cutoffTime cur (key, t)]> (buckets w)
            ∧ ledger w1 = ledger w ∧ files w1 = files w ∧ clock w1 = clock w)
      as (Hb1 & Hl1 & Hf1 & Hc1).
    { unfold w1, sweep_one. cbn [fst snd].
      destruct (decide (expired p cutoffTime key t)) as [[Hlt Hr]|Hne].
      - unfold sweep_object, RemoveObject, exec, bind, logf, emit, modify, ret.
        cbn [Err LastModified Key].
        rewrite (proj2 (Z.ltb_lt _ _) Hlt), Hr. simpl. split; [|done].
        apply map_eq. intros b.
        destruct (decide (b = S3Bucket task)) as [->|Hne].
        + by rewrite lookup_alter_eq, lookup_insert_eq, Hb.
        + by rewrite lookup_alter_ne, lookup_insert_ne.
      - rewrite insert_id by done.
        unfold sweep_object, RemoveObject, exec, bind, logf, emit, modify, ret.
        cbn [Err LastModified Key].
        destruct (Z.ltb_spec t cutoffTime) as [Hlt|Hge]; [|done].
        destruct (remove_object_err p key) eqn:Hr; [done|].
        destruct Hne. by split. }
    destruct (IH w1 (sweep_one p cutoffTime cur (key, t))) as (H1 & H2 & H3 & H4).
    { by rewrite Hb1, lookup_insert_eq. }
    rewrite H1, H2, H3, H4, Hb1. by rewrite insert_insert_eq.
Qed.

Lemma foldl_sweep_None p cutoffTime (l : list (string * Z)) :
  ∀ cur key,
    cur !! key = None → foldl (sweep_one p cutoffTime) cur l !! key = None.
Proof.
  induction l as [|[k t] l IH]; intros cur key Hk; [done|]. simpl.
  apply IH. unfold sweep_one. case_decide; [|done].
  rewrite lookup_delete_None. by right.
Qed.

Lemma foldl_sweep_lookup p cutoffTime (l : list (string * Z)) :
  ∀ cur key,
    ((∃ t, (key, t) ∈ l ∧ expired p cutoffTime key t) →
     foldl (sweep_one p cutoffTime) cur l !! key = None)
    ∧ ((∀ t, (key, t) ∈ l → ¬ expired p cutoffTime key t) →
       foldl (sweep_one p cutoffTime) cur l !! key = cur !! key).
Proof.
  induction l as [|[k t] l IH]; intros cur key; simpl.
  - split; [|done]. by intros (t & ?%elem_of_nil & _).
  - destruct (IH (sweep_one p cutoffTime cur (k, t)) key) as [IH1 IH2].
    split.
    + intros (t' & [[= <- <-]|Hin]%elem_of_cons & He).
      * apply foldl_sweep_None. unfold sweep_one. simpl.
        rewrite decide_True by done. by rewrite lookup_delete_eq.
      * apply IH1. by exists t'.
    + intros Hno. rewrite IH2 by (intros t2 ?; apply Hno; by right).
      unfold sweep_one. simpl. case_decide as He; [|done].
      destruct (decide (k = key)) as [->|Hne].
      * destruct (Hno t); [by left|done].
      * by rewrite lookup_delete_ne.
Qed.

(** X23. The sweep of [cleanupOldBackups], when the client is created and
    the bucket is listed: afterwards the bucket holds exactly the objects
    that were not last modified strictly before the cutoff or whose
    removal failed; an object modified exactly at the cutoff stays.  The
    cutoff is [AddDate(0, 0, -CleanupDays)] of the time read before the
    listing, the negation being that of a 64-bit integer.  Other buckets, the ledger and the local files are
    untouched, and the function returns nil whatever the removals did. *)
Theorem cleanupOldBackups_deletes_expired_objects p task w objs :
  minio_New p task = None → list_err p = None →
  buckets w !! S3Bucket task = Some objs →
  let w' := exec (cleanupOldBackups p task) w in
  let cutoffTime := cutoff p (clock w) (CleanupDays task) in
  eval (cleanupOldBackups p task) w = None
  ∧ buckets w'
    = <[S3Bucket task
        := filter (fun kv => ¬ expired p cutoffTime kv.1 kv.2) objs]>
        (buckets w)
  ∧ ledger w' = ledger w ∧ files w' = files w.
Proof.
  intros Hn Hl Hb w' cutoffTime.
  pose proof (for_each_sweep p task cutoffTime (map_to_list objs)
                {| ledger := ledger w; files := files w; buckets := buckets w;
                   clock := (clock w + 1)%Z;
                   trace := (trace w
                             ++ [EvLog INFO "Cleaning up backups older than %d days"])
                            ++ [EvListObjects (S3Bucket task)] |}
                objs Hb) as Hsweep.
  unfold w', eval, exec, cleanupOldBackups, ListObjects, bind, logf, emit,
    modify, time_Now, gets, ret in *.
  rewrite Hn. simpl in *. rewrite Hb, Hl. fold cutoffTime.
  destruct (for_each _ _ _) as [[] w2]. simpl in *.
  destruct Hsweep as (H1 & H2 & H3 & _). split; [done|].
  rewrite H1, H2, H3. split; [|done]. f_equal.
  apply map_eq. intros key.
  destruct (foldl_sweep_lookup p cutoffTime (map_to_list objs) objs key)
    as [Hdel Hkeep].
  destruct (objs !! key) as [t|] eqn:Hk.
  - destruct (decide (expired p cutoffTime key t)) as [He|He].
    + rewrite Hdel by (exists t; by rewrite elem_of_map_to_list).
      symmetry. apply map_lookup_filter_None. right. intros t' Hk'.
      simpl. rewrite Hk in Hk'. injection Hk' as <-. tauto.
    + rewrite Hkeep; rewrite ?Hk.
      * symmetry. by apply map_lookup_filter_Some.
      * intros t' Hin%elem_of_map_to_list. congruence.
  - rewrite Hkeep; rewrite ?Hk.
    + symmetry. apply map_lookup_filter_None. by left.
    + intros t' Hin%elem_of_map_to_list. congruence.
Qed.

Lemma cleanupOldBackups_deletes_expired_objects_witness :
  buckets (exec (cleanupOldBackups calm nightly) stale)
  = <[S3Bucket nightly
      := filter (fun kv => ¬ expired calm
                                (cutoff calm (clock stale) (CleanupDays nightly))
                                kv.1 kv.2)
           {[ "10.0.0.5_data_1600000000.tar.gz" := 1600000000%Z ]}]>
      (buckets stale).
Proof.
  apply (cleanupOldBackups_deletes_expired_objects calm nightly stale
           {[ "10.0.0.5_data_1600000000.tar.gz" := 1600000000%Z ]});
    reflexivity.
Defined.



(** ** The endpoint *)

Lemma drop_bytes_app (a b : string) : drop_bytes (String.length a) (a +:+ b) = b.
Proof. induction a as [|c a IH]; [done|]. exact IH. Qed.

Lemma HasPrefix_app (a b : string) : HasPrefix (a +:+ b) a = true.
Proof.
  unfold HasPrefix. induction a as [|c a IH]; [by destruct b|].
  change (String c a +:+ b) with (String c (a +:+ b)). simpl.
  destruct (ascii_dec c c); [done|congruence].
Qed.

Lemma TrimPrefix_app (a b : string) : TrimPrefix (a +:+ b) a = b.
Proof. unfold TrimPrefix. by rewrite HasPrefix_app, drop_bytes_app. Qed.

(** X25. The endpoint handed to the client.  An endpoint that starts
    with "https://" loses that scheme and selects TLS.  One that starts
    with "http://" loses it, does not select TLS, and then loses a further
    "https://" if what is left starts with one.  An endpoint with neither
    scheme is passed as it is, without TLS. *)
Theorem endpoint_scheme_is_stripped task host :
  (S3Endpoint task = "https://" +:+ host →
     endpoint_of task = host ∧ useSSL task = true)
  ∧ (S3Endpoint task = "http://" +:+ host →
     endpoint_of task = TrimPrefix host "https://" ∧ useSSL task = false)
  ∧ (HasPrefix (S3Endpoint task) "http://" = false →
     HasPrefix (S3Endpoint task) "https://" = false →
     endpoint_of task = S3Endpoint task ∧ useSSL task = false).
Proof.
  unfold endpoint_of, useSSL. split; [|split].
  - intros ->. split; [|apply HasPrefix_app].
    change (TrimPrefix ("https://" +:+ host) "http://")
      with ("https://" +:+ host).
    apply TrimPrefix_app.
  - intros ->. split; [by rewrite TrimPrefix_app|done].
  - intros H1 H2. split; [|done]. unfold TrimPrefix. by rewrite H1, H2.
Qed.

(** ** The key of the uploaded archive *)

Lemma ReplaceByte_removes s old new :
  old ≠ new → Contains (ReplaceByte s old new) (String old "") = false.
Proof.
  intros Hne. induction s as [|c s IH]; [done|].
  cbn [ReplaceByte]. rewrite CrontabProps.Contains_byte, IH.
  case_decide; by rewrite bool_decide_eq_false_2.
Qed.

Lemma archive_name_no_slash p src fmt ip now :
  Contains ip "/" = false → Contains fmt "/" = false →
  Contains (format_time p now) "/" = false →
  Contains (archive_name_at p src fmt ip now) "/" = false
  ∧ archive_name_at p src fmt ip now ≠ "".
Proof.
  intros Hip Hfmt Ht. unfold archive_name_at. split.
  - rewrite !CrontabProps.Contains_app_byte, Hip, Hfmt, Ht.
    by rewrite ReplaceByte_removes.
  - by destruct ip.
Qed.

Lemma Base_tmp name :
  name ≠ "" → Contains name "/" = false → Base ("/tmp/" +:+ name) = name.
Proof.
  intros Hne Hs. unfold Base. rewrite decide_False by done.
  change ("/tmp/" +:+ name) with ("/tmp" +:+ String "/" name).
  rewrite CrontabProps.SplitByte_app, (CrontabProps.SplitByte_no_sep _ _ Hs).
  change (SplitByte "/" "/tmp" ++ [name]) with [""; "tmp"; name].
  rewrite filter_cons_False by (by intros ?).
  rewrite filter_cons_True by done.
  by rewrite filter_cons_True by done.
Qed.

Lemma archive_name_plain p src fmt ip now :
  archive_name_at p src fmt ip now ≠ "."
  ∧ archive_name_at p src fmt ip now ≠ "..".
Proof.
  assert (Contains (archive_name_at p src fmt ip now) "_" = true) as Hu.
  { unfold archive_name_at. rewrite CrontabProps.Contains_app_byte.
    apply orb_true_iff. right.
    change ("_" +:+ ?s) with (String "_" s).
    by rewrite CrontabProps.Contains_byte, bool_decide_eq_true_2. }
  split; intros Heq; by rewrite Heq in Hu.
Qed.

(** [filepath.Join("/tmp", name)] for a plain file name. *)
Lemma filepath_Join_tmp name :
  name ≠ "" → name ≠ "." → name ≠ ".." → Contains name "/" = false →
  filepath_Join ["/tmp"; name] = "/tmp/" +:+ name.
Proof.
  intros Hne Hdot Hdots Hs. unfold filepath_Join.
  rewrite filter_cons_True, filter_cons_True by done.
  cbn [filter list_filter].
  change (Join ["/tmp"; name] "/") with ("/tmp" +:+ String "/" name).
  unfold Clean.
  rewrite CrontabProps.SplitByte_app, (CrontabProps.SplitByte_no_sep _ _ Hs).
  change (HasPrefix ("/tmp" +:+ String "/" name) "/") with true.
  change (SplitByte "/" "/tmp" ++ [name]) with [""; "tmp"; name].
  cbn [clean_elems]. rewrite decide_True by done.
  rewrite (decide_False (P := "tmp" = "")), (decide_False (P := "tmp" = ".")),
    (decide_False (P := "tmp" = "..")) by done.
  by rewrite !decide_False by done.
Qed.

(** What a successful [uploadToS3] returns and leaves in the bucket. *)
Lemma uploadToS3_ok p task path w1 s3 :
  eval (uploadToS3 p task path) w1 = (s3, None) →
  s3 = "s3://" +:+ S3Bucket task +:+ "/" +:+ Base path
  ∧ ∃ objs,
      buckets (exec (uploadToS3 p task path) w1) !! S3Bucket task = Some objs
      ∧ is_Some (objs !! Base path).
Proof.
  intros Hup. unfold eval, exec, uploadToS3 in *.
  unfold bind at 1 in Hup. unfold bind at 1.
  unfold logf at 1, emit at 1, modify at 1 in Hup.
  unfold logf at 1, emit at 1, modify at 1.
  cbv beta iota in Hup |- *.
  destruct (minio_New p task); [discriminate|].
  unfold bind at 1 in Hup. unfold bind at 1.
  destruct (ensure_bucket p task _) as [[e|] w2]; [discriminate|].
  unfold bind at 1 in Hup. unfold bind at 1.
  unfold FPutObject, bind, emit, modify, gets, logf, emit, modify, ret in *.
  simpl in *.
  destruct (put_err p (Base path)); [discriminate|].
  destruct (buckets w2 !! S3Bucket task) as [objs|]; [|discriminate].
  simpl in *. injection Hup as <-. split; [done|].
  eexists. rewrite lookup_insert_eq. split; [done|].
  by rewrite lookup_insert_eq.
Qed.

(** X26. The archive in the bucket goes by its archive name.  When
    server address, archive format and time stamp hold no slash, the
    archive [createArchive] returns lies directly in [/tmp], its base name
    is the archive name (the name the ledger records), and a successful
    [uploadToS3] of it returns "s3://bucket/name" and leaves an object
    with that name as key in the bucket. *)
Theorem uploaded_archive_key_is_archive_name p task ip w path name w1 s3 :
  Contains ip "/" = false →
  Contains (ArchiveFormat task) "/" = false →
  Contains (format_time p (clock w)) "/" = false →
  eval (createArchive p (Config.SourcePath task) (ArchiveFormat task) ip) w
  = (path, name, None) →
  eval (uploadToS3 p task path) w1 = (s3, None) →
  path = "/tmp/" +:+ name
  ∧ Base path = name
  ∧ s3 = "s3://" +:+ S3Bucket task +:+ "/" +:+ name
  ∧ ∃ objs,
      buckets (exec (uploadToS3 p task path) w1) !! S3Bucket task = Some objs
      ∧ is_Some (objs !! name).
Proof.
  intros Hip Hfmt Ht Hcreate Hup.
  assert (create_err p = None) as Hc.
  { destruct (create_err p) as [e|] eqn:He; [|done].
    unfold eval, createArchive, bind, time_Now, logf, emit, modify, ret in Hcreate.
    by rewrite He in Hcreate. }
  unfold eval in Hcreate. rewrite createArchive_created in Hcreate by done.
  cbv zeta in Hcreate. cbn [fst] in Hcreate.
  destruct (_ .2) as [e|]; [discriminate|].
  injection Hcreate as <- <-.
  destruct (archive_name_no_slash p (Config.SourcePath task) (ArchiveFormat task)
              ip (clock w) Hip Hfmt Ht) as [Hs Hne].
  destruct (archive_name_plain p (Config.SourcePath task) (ArchiveFormat task)
              ip (clock w)) as [Hdot Hdots].
  destruct (uploadToS3_ok p task _ w1 s3 Hup) as (Hs3 & objs & Hb & Hk).
  unfold archive_path in *.
  rewrite (filepath_Join_tmp _ Hne Hdot Hdots Hs) in *.
  rewrite (Base_tmp _ Hne Hs) in *.
  split; [done|]. split; [done|]. split; [done|]. by exists objs.
Qed.

Lemma uploaded_archive_key_is_archive_name_witness :
  Base "/tmp/10.0.0.5_data_1700000000.tar.gz"
  = "10.0.0.5_data_1700000000.tar.gz".
Proof.
  refine (proj1 (proj2 (uploaded_archive_key_is_archive_name calm nightly
            "10.0.0.5" fresh "/tmp/10.0.0.5_data_1700000000.tar.gz"
            "10.0.0.5_data_1700000000.tar.gz" fresh
            "s3://backups/10.0.0.5_data_1700000000.tar.gz" _ _ _ _ _)));
    vm_compute; reflexivity.
Defined.

(** ** A run in which nothing fails *)

Lemma upload_step_uploaded p task result name w1 rs :
  bool_decide (S3Endpoint task ≠ "") && bool_decide (S3Bucket task ≠ "") = true →
  ArchivePath result ≠ "" →
  (eval (uploadToS3 p task (ArchivePath result)) w1).2 = None →
  read_err (update_io p) = None → write_err (update_io p) = None →
  remove_err p = None →
  ledger w1 = Stored rs → is_Some (files w1 !! ArchivePath result) →
  ∃ now w2,
    upload_step p task result name w1
    = (inr (with_S3Path ("s3://" +:+ S3Bucket task +:+ "/"
                         +:+ Base (ArchivePath result)) result), w2)
    ∧ ledger w2
      = Stored (mark_uploaded name
                  ("s3://" +:+ S3Bucket task +:+ "/" +:+ Base (ArchivePath result))
                  now rs)
    ∧ files w2 = delete (ArchivePath result) (files w1).
Proof.
  intros Hd Hp Hok Hr Hw Hrm Hl [size Hf].
  destruct (local_uploadToS3 p task (ArchivePath result) w1) as [Hl1 Hf1].
  unfold upload_step. rewrite Hd, bool_decide_eq_true_2 by done.
  unfold bind at 1. unfold eval, exec in *.
  destruct (uploadToS3 p task (ArchivePath result) w1) as [[s3 err] w1u] eqn:Hu.
  simpl in Hok, Hl1, Hf1. subst err.
  destruct (uploadToS3_ok p task (ArchivePath result) w1 s3) as [-> _].
  { unfold eval. by rewrite Hu. }
  cbv beta iota. unfold bind at 1, time_Now at 1. cbv beta iota.
  unfold bind at 1.
  erewrite (LedgerProps.UpdateBackupRecord_ok (update_io p) name _ _ _ rs);
    [|done|done|simpl; congruence].
  unfold os_Remove, logf, emit, exec, with_ledger, with_files.
  unfold bind, modify, gets, ret.
  simpl. rewrite Hrm, Hf1, Hf. simpl.
  eexists _, _. split; [reflexivity|]. simpl. by rewrite ?Hf1.
Qed.

(** X27. A run in which nothing fails, for a task with archive and
    destination.  The run returns no error and reports success; the result
    names the archive path [filepath.Join("/tmp", name)] and the object
    path "s3://bucket/base" for the base name of that path; no file
    is left at the archive path; and the ledger is what the archive step
    left (earlier records, then this run's record under the name [name])
    with the update for the archive name applied. *)
Theorem successful_archive_run p task ip w :
  CreateArchive task = true →
  S3Endpoint task ≠ "" → S3Bucket task ≠ "" →
  first_hard_failure p task ip w = None →
  mkdir_err (save_io p) = None → write_err (save_io p) = None →
  read_err (update_io p) = None → write_err (update_io p) = None →
  remove_err p = None →
  let out := eval (ExecuteBackup p task ip) w in
  let w' := exec (ExecuteBackup p task ip) w in
  ∃ name earlier t0 now,
    out.2 = None ∧ Success out.1 = true
    ∧ ArchivePath out.1 = filepath_Join ["/tmp"; name]
    ∧ S3Path out.1
      = "s3://" +:+ S3Bucket task +:+ "/"
        +:+ Base (filepath_Join ["/tmp"; name])
    ∧ files w' !! filepath_Join ["/tmp"; name] = None
    ∧ ledger w'
      = Stored (mark_uploaded name (S3Path out.1) now
                  (earlier ++ [creating_record task name t0])).
Proof.
  intros Hc He Hb Hn Hsm Hsw Hur Huw Hrm out w'.
  assert (bool_decide (S3Endpoint task ≠ "") && bool_decide (S3Bucket task ≠ "")
          = true) as Hd by (by rewrite !bool_decide_eq_true_2).
  destruct (no_hard_failure_path p task ip w Hn)
    as (result & name & w1 & result' & w2 & Hu & Hup & Hok).
  destruct (until_upload_built p task ip w result name w1 Hc Hu)
    as (Hp & Hf & Hl).
  destruct (Hl Hsm Hsw) as (earlier & t0 & Hled).
  assert (Hpath : ArchivePath result ≠ "")
    by (rewrite Hp; apply archive_path_nonempty).
  specialize (Hok Hd). unfold upload_of in Hok.
  rewrite bool_decide_eq_true_2 in Hok by done.
  destruct (upload_step_uploaded p task result name w1 _ Hd Hpath Hok Hur Huw
              Hrm Hled) as (now & w2' & Hstep & Hl2 & Hf2).
  { rewrite Hp. by eexists. }
  rewrite Hup in Hstep. injection Hstep as -> <-.
  unfold out, w', eval, exec. rewrite ExecuteBackup_unfold, Hu, Hup.
  destruct (local_cleanup_step p task w2) as [Hl3 Hf3].
  destruct (guard_up p task (exec (cleanup_step p task) w2))
    as ((Hl4 & Hf4 & _) & _).
  unfold exec in *. simpl. rewrite Hf4, Hf3, Hl4, Hl3, Hf2, Hl2, Hp.
  exists name, earlier, t0, now. repeat split; try done.
  by rewrite lookup_delete_eq.
Qed.

Lemma successful_archive_run_witness :
  ∃ name earlier t0 now,
    (eval (ExecuteBackup calm nightly "10.0.0.5") fresh).2 = None
    ∧ Success (eval (ExecuteBackup calm nightly "10.0.0.5") fresh).1 = true
    ∧ ArchivePath (eval (ExecuteBackup calm nightly "10.0.0.5") fresh).1
      = filepath_Join ["/tmp"; name]
    ∧ S3Path (eval (ExecuteBackup calm nightly "10.0.0.5") fresh).1
      = "s3://" +:+ S3Bucket nightly +:+ "/"
        +:+ Base (filepath_Join ["/tmp"; name])
    ∧ files (exec (ExecuteBackup calm nightly "10.0.0.5") fresh)
      !! filepath_Join ["/tmp"; name] = None
    ∧ ledger (exec (ExecuteBackup calm nightly "10.0.0.5") fresh)
      = Stored (mark_uploaded name
                  (S3Path (eval (ExecuteBackup calm nightly "10.0.0.5") fresh).1)
                  now (earlier ++ [creating_record nightly name t0])).
Proof.
  apply (successful_archive_run calm nightly "10.0.0.5" fresh);
    first [discriminate | vm_compute; reflexivity].
Defined.

End PipelineProps.

(** * The handlers *)
Module ApiProps.
Import Sys Backup Api ConfigOps.

(** X28. The answer of [executeTask].  A body that does not bind is
    answered 400 and nothing is done.  Otherwise the run is made for the
    task built from the request (it has no schedule), under the configured
    server address or "unknown"; the answer is a 500 with the error
    exactly when the run has a hard failure (the archive build or the
    upload), and else a 200 whose success flag is always true. *)
Theorem executeTask_response p cfg req w :
  let task := task_of_request req in
  let ip := serverIP_of cfg in
  let result := (eval (ExecuteBackup p task ip) w).1 in
  exec (executeTask p cfg (inr req)) w = exec (ExecuteBackup p task ip) w
  ∧ eval (executeTask p cfg (inr req)) w
    = match first_hard_failure p task ip w with
      | Some e => InternalServerError e
      | None => Executed true (ArchiveSize result) (FilesCount result)
                  (Backup.S3Path result)
      end
  ∧ (∀ err, executeTask p cfg (inl err) w = (BadRequest err, w)).
Proof.
  intros task ip result. unfold result.
  destruct (BackupProps.ExecuteBackup_error p task ip w) as [He Hs].
  unfold executeTask, eval, exec, bind in *. fold task ip.
  destruct (ExecuteBackup p task ip w) as [[r err] w1]. simpl in *.
  rewrite <- He. split; [by destruct err|]. split; [|done].
  destruct err; [done|]. simpl. f_equal. by apply Hs.
Qed.

Lemma executeTask_response_witness :
  eval (executeTask calm default_config (inr archive_request)) fresh
  = Executed true 5242880 2 "".
Proof.
  rewrite (proj1 (proj2 (executeTask_response calm default_config
                           archive_request fresh))).
  vm_compute. reflexivity.
Defined.

Lemma host_after_update task h :
  exec (update_config task) h
  = {| Cron.manager :=
         {| Cron.cron := Cron.cron (Cron.manager h);
            Cron.config := AddOrUpdateTask task (Cron.config (Cron.manager h));
            Cron.entries := Cron.entries (Cron.manager h) |};
       Cron.crontab := Cron.crontab h; Cron.journal := Cron.journal h |}.
Proof. done. Qed.

(** X29. [setTaskConfig] for a body that binds.  The task is put into
    the shared configuration first: whatever happens next, the
    configuration in memory has it.  When the save fails the answer is a
    500 and the scheduler is not told: triggers, job table and crontab are
    as before, although the configuration in memory has changed.  When the
    save succeeds the file holds the new configuration, the task is handed
    to [AddTask], and the answer is 200 whatever the scheduler made of the
    schedule. *)
Theorem setTaskConfig_outcome parse_err sf cf task a :
  let a' := exec (setTaskConfig parse_err sf cf (inr task)) a in
  let answer := eval (setTaskConfig parse_err sf cf (inr task)) a in
  let updated := exec (update_config task) (host a) in
  GetTask (TaskID task) (Cron.config (Cron.manager (host a'))) = Some task
  ∧ (is_Some (save_mkdir_err sf) ∨ is_Some (save_write_err sf) →
     (∃ e, answer = InternalServerError e) ∧ host a' = updated)
  ∧ (save_mkdir_err sf = None → save_write_err sf = None →
     answer = StatusOk
     ∧ host a' = exec (Cron.AddTask parse_err cf task) updated
     ∧ config_file a' = Holds (Cron.config (Cron.manager (host a')))).
Proof.
  intros a' answer updated. unfold a', answer, updated.
  clear a' answer updated. rewrite host_after_update.
  unfold setTaskConfig, Save, eval, exec, bind, on_host, update_config,
    Cron.set_manager, gets, set_file, modify, ret.
  simpl.
  set (updated := {| Cron.manager := _; Cron.crontab := _; Cron.journal := _ |}).
  assert (Hadd : Cron.config (Cron.manager
                    (exec (Cron.AddTask parse_err cf task) updated))
                 = AddOrUpdateTask task (Cron.config (Cron.manager (host a)))).
  { rewrite CronProps.AddTask_manager. simpl.
    by destruct (parse_err (ScheduleCron task)). }
  destruct (save_mkdir_err sf) as [e|] eqn:Hm; simpl.
  { split; [by rewrite ConfigProps.GetTask_added|].
    split; [by split; [eexists|]|done]. }
  destruct (save_write_err sf) as [[e [| |]]|] eqn:Hw; simpl;
    try (split; [by rewrite ConfigProps.GetTask_added|];
         split; [by split; [eexists|]|done]).
  unfold exec in Hadd.
  destruct (Cron.AddTask parse_err cf task updated) as [[] h'].
  simpl in *.
  split; [by rewrite Hadd, ConfigProps.GetTask_added|].
  split; [by intros [[? [=]]|[? [=]]]|]. intros _ _.
  split; [done|]. split; [done|]. by rewrite Hadd.
Qed.

Lemma setTaskConfig_outcome_witness :
  host (exec (setTaskConfig Cron.accept_all disk_full Cron.no_faults
                (inr Cron.task1)) started)
  = exec (update_config Cron.task1) (host started).
Proof.
  apply (setTaskConfig_outcome Cron.accept_all disk_full Cron.no_faults
           Cron.task1 started).
  right. by eexists.
Defined.

(** X30. Who is admitted.  [authMiddleware] looks at the path, the
    client address, the host name header and the two server fields of the
    configuration only: adding, updating or removing a task never changes
    its answer.  The health check is always admitted; a configuration with
    neither server address nor server host name, such as the one [Load]
    creates, admits every request; and a request admitted elsewhere comes
    from the configured address and names the configured host, as far as
    these are set. *)
Theorem authMiddleware_admission cfg path clientIP hostname :
  (∀ task, authMiddleware (AddOrUpdateTask task cfg) path clientIP hostname
           = authMiddleware cfg path clientIP hostname)
  ∧ (∀ taskID, authMiddleware (RemoveTask taskID cfg) path clientIP hostname
               = authMiddleware cfg path clientIP hostname)
  ∧ authMiddleware cfg "/ping" clientIP hostname = None
  ∧ authMiddleware default_config path clientIP hostname = None
  ∧ (ServerIP cfg = "" → ServerHostname cfg = "" →
     authMiddleware cfg path clientIP hostname = None)
  ∧ (path ≠ "/ping" →
     authMiddleware cfg path clientIP hostname = None →
     (ServerIP cfg = "" ∨ clientIP = ServerIP cfg)
     ∧ (ServerHostname cfg = "" ∨ hostname = ServerHostname cfg)).
Proof.
  split; [|split; [|split; [|split; [|split]]]].
  - intros task. unfold authMiddleware.
    by destruct (ConfigProps.AddOrUpdateTask_fields task cfg) as (_ & -> & ->).
  - done.
  - done.
  - unfold authMiddleware. by destruct (String.eqb path "/ping").
  - intros Hi Hh. unfold authMiddleware. rewrite Hi, Hh.
    by destruct (String.eqb path "/ping").
  - intros Hp. unfold authMiddleware.
    destruct (String.eqb_spec path "/ping") as [|_]; [done|].
    destruct (String.eqb_spec (ServerIP cfg) "") as [Hi|Hi];
      destruct (String.eqb_spec clientIP (ServerIP cfg)) as [Hc|Hc];
      destruct (String.eqb_spec (ServerHostname cfg) "") as [Hh|Hh];
      destruct (String.eqb_spec hostname (ServerHostname cfg)) as [Hn|Hn];
      simpl; try done; intros _; split; auto.
Qed.

End ApiProps.
